(** * git-assets-canary-releaser: coordination state, control loops and
    health-check engine, embedded from the Go sources

    - [lib] state store client ([State], [getLock], [CanInstallTag],
      [GetRolloutProgress], ...), over a model of the Redis server;
    - [lib] release source ([GitHub.DownloadReleaseAsset]);
    - [cmd/root.go] ([deploy], [handleRollout], [handleCanaryRelease],
      [handleRollback], [runHealthCheck], the loop of [runServer]).

    Effects are threaded explicitly: every Go function that talks to the
    store, the release source, the file system or a shell command is a
    function from a [World] to a result and a new [World]. *)

From Stdlib Require Import ZArith String Ascii List Bool Lia.
From stdpp Require Import base option list strings pretty gmap.

Local Open Scope Z_scope.

(* ===================================================================== *)
(** * Go values *)
(* ===================================================================== *)

(** ** int64 arithmetic of [time.Duration] *)

Definition wrap64 (z : Z) : Z := (z + 2 ^ 63) mod 2 ^ 64 - 2 ^ 63.

Definition dur_mul (a b : Z) : Z := wrap64 (a * b).
Definition dur_add (a b : Z) : Z := wrap64 (a + b).

(** [time.Second] and [time.Millisecond]. *)
Definition second : Z := 1000000000.
Definition millisecond : Z := 1000000.

(** ** Errors

    Package-level error values are compared by identity by [errors.Is];
    [Sentinel] names them.  [ErrorString] is any error value made at the
    place it is returned ([errors.New], [fmt.Errorf] with the [%s] verb, an
    error of a library): it is never identical to a package-level value and
    it has no cause.  [WithMessage] is [errors.Wrap] of pkg/errors, which
    keeps its cause.  [RetryError] is retry-go's [retry.Error], one message
    per failed attempt. *)

Inductive sentinel :=
| ErrAvoidReleaseTag
| ErrAlreadyInstalled
| ErrAssetsNotFound
| ErrAssetsCannotDownload
| ErrRollback
| ErrNoRollback
| DeadlineExceeded.

Inductive error :=
| Sentinel (s : sentinel)
| ErrorString (msg : string)
| WithMessage (cause : error) (msg : string)
| RetryError (attempts : list string).

Definition sentinel_eqb (a b : sentinel) : bool :=
  match a, b with
  | ErrAvoidReleaseTag, ErrAvoidReleaseTag
  | ErrAlreadyInstalled, ErrAlreadyInstalled
  | ErrAssetsNotFound, ErrAssetsNotFound
  | ErrAssetsCannotDownload, ErrAssetsCannotDownload
  | ErrRollback, ErrRollback
  | ErrNoRollback, ErrNoRollback
  | DeadlineExceeded, DeadlineExceeded => true
  | _, _ => false
  end.

Definition sentinel_text (s : sentinel) : string :=
  match s with
  | ErrAvoidReleaseTag => "avoid release tag"
  | ErrAlreadyInstalled => "already installed"
  | ErrAssetsNotFound => "no match assets"
  | ErrAssetsCannotDownload => "assets cannot download"
  | ErrRollback => "rollback"
  | ErrNoRollback => "no rollback"
  | DeadlineExceeded => "context deadline exceeded"
  end.

(** [errors.Is err target] for a package-level [target]: walk the chain of
    causes. *)
Fixpoint errors_Is (err : error) (target : sentinel) : bool :=
  match err with
  | Sentinel s => sentinel_eqb s target
  | ErrorString _ => false
  | WithMessage cause _ => errors_Is cause target
  | RetryError _ => false
  end.

Definition newline : string := String (Ascii.ascii_of_nat 10) EmptyString.

Fixpoint number_lines (i : nat) (msgs : list string) : string :=
  match msgs with
  | [] => ""
  | m :: rest =>
      "#" +:+ pretty i +:+ ": " +:+ m +:+
      match rest with [] => "" | _ => newline +:+ number_lines (S i) rest end
  end.

(** The method [Error()]. *)
Fixpoint error_text (err : error) : string :=
  match err with
  | Sentinel s => sentinel_text s
  | ErrorString msg => msg
  | WithMessage cause msg => msg +:+ ": " +:+ error_text cause
  | RetryError attempts =>
      "All attempts fail:" +:+ newline +:+ number_lines 1 attempts
  end.

(** ** Results of a call

    [Ok]: the call returned with a nil error; [Err]: it returned a non-nil
    error; [Halt]: it did not return to its caller ([Panicked]: a nil
    pointer was dereferenced; [Blocked]: a [select] waits for a channel that
    the schedule of the model never fires). *)

Inductive halt :=
| Panicked (msg : string)
| Blocked.

Inductive result (A : Type) :=
| Ok (a : A)
| Err (e : error)
| Halt (h : halt).
Arguments Ok {A} a.
Arguments Err {A} e.
Arguments Halt {A} h.

(* ===================================================================== *)
(** * The shared state store

    A model of the Redis server behind [redis.Client], at the level of the
    commands the program sends: one key space, a value is a string or a set,
    a key may carry a deadline after which it no longer exists.  [now] is the
    server's clock.  [faults] schedules the failures of round trips: each
    round trip takes the next flag, [true] meaning that the command does not
    reach the server and the client reports an error; an empty schedule
    means that every round trip goes through. *)
(* ===================================================================== *)

Module Redis.

Inductive value :=
| VString (s : string)
| VSet (members : gset string).

Record entry := Entry { e_value : value; e_deadline : option Z }.

Record t := Client {
  keyspace : gmap string entry;
  now : Z;
  faults : list bool
}.

Inductive reply (A : Type) :=
| Reply (a : A)
| Nil
| Failure (msg : string).
Arguments Reply {A} a.
Arguments Nil {A}.
Arguments Failure {A} msg.

Definition alive (clock : Z) (e : entry) : bool :=
  match e_deadline e with
  | None => true
  | Some d => clock <? d
  end.

(** The entry a key holds now, if any. *)
Definition find (key : string) (db : t) : option entry :=
  match keyspace db !! key with
  | Some e => if alive (now db) e then Some e else None
  | None => None
  end.

Definition with_keyspace (f : gmap string entry → gmap string entry) (db : t) : t :=
  {| keyspace := f (keyspace db); now := now db; faults := faults db |}.

Definition with_faults (fs : list bool) (db : t) : t :=
  {| keyspace := keyspace db; now := now db; faults := fs |}.

(** Time passing on the server. *)
Definition advance (d : Z) (db : t) : t :=
  {| keyspace := keyspace db; now := now db + d; faults := faults db |}.

Definition wrongtype : string :=
  "WRONGTYPE Operation against a key holding the wrong kind of value".

(** *** Commands, as the server runs them *)

(** SETNX key value *)
Definition srv_setnx (key val : string) (db : t) : reply bool * t :=
  match find key db with
  | Some _ => (Reply false, db)
  | None => (Reply true, with_keyspace <[key := Entry (VString val) None]> db)
  end.

(** EXPIRE key seconds: the time to live is a number of seconds.  A
    deadline that is not in the future deletes the key, which is what a
    deadline [now + seconds * second] with [seconds <= 0] amounts to. *)
Definition srv_expire (key : string) (seconds : Z) (db : t) : reply bool * t :=
  match find key db with
  | Some e =>
      (Reply true,
       with_keyspace
         <[key := Entry (e_value e) (Some (now db + seconds * second))]> db)
  | None => (Reply false, db)
  end.

(** DEL key *)
Definition srv_del (key : string) (db : t) : reply Z * t :=
  (Reply (match find key db with Some _ => 1 | None => 0 end),
   with_keyspace (delete key) db).

(** SET key value *)
Definition srv_set (key val : string) (db : t) : reply unit * t :=
  (Reply tt, with_keyspace <[key := Entry (VString val) None]> db).

(** SETEX key seconds value *)
Definition srv_setex (key val : string) (seconds : Z) (db : t) : reply unit * t :=
  if seconds <=? 0 then (Failure "ERR invalid expire time in 'setex' command", db)
  else (Reply tt,
        with_keyspace
          <[key := Entry (VString val) (Some (now db + seconds * second))]> db).

(** GET key *)
Definition srv_get (key : string) (db : t) : reply string * t :=
  match find key db with
  | None => (Nil, db)
  | Some (Entry (VString s) _) => (Reply s, db)
  | Some (Entry (VSet _) _) => (Failure wrongtype, db)
  end.

(** SADD key member... *)
Definition srv_sadd (key : string) (members : list string) (db : t) : reply Z * t :=
  match members with
  | [] => (Failure "ERR wrong number of arguments for 'sadd' command", db)
  | _ =>
      let new := list_to_set members : gset string in
      match find key db with
      | None =>
          (Reply (Z.of_nat (size new)),
           with_keyspace <[key := Entry (VSet new) None]> db)
      | Some (Entry (VSet old) d) =>
          (Reply (Z.of_nat (size (new ∖ old))),
           with_keyspace <[key := Entry (VSet (old ∪ new)) d]> db)
      | Some (Entry (VString _) _) => (Failure wrongtype, db)
      end
  end.

(** SMEMBERS key *)
Definition srv_smembers (key : string) (db : t) : reply (list string) * t :=
  match find key db with
  | None => (Reply [], db)
  | Some (Entry (VSet s) _) => (Reply (elements s), db)
  | Some (Entry (VString _) _) => (Failure wrongtype, db)
  end.

(** SREM key member...: a set left empty is deleted. *)
Definition srv_srem (key : string) (members : list string) (db : t) : reply Z * t :=
  match members with
  | [] => (Failure "ERR wrong number of arguments for 'srem' command", db)
  | _ =>
      let gone := list_to_set members : gset string in
      match find key db with
      | None => (Reply 0, db)
      | Some (Entry (VSet old) d) =>
          let rest := old ∖ gone in
          (Reply (Z.of_nat (size (old ∩ gone))),
           if decide (rest = ∅) then with_keyspace (delete key) db
           else with_keyspace <[key := Entry (VSet rest) d]> db)
      | Some (Entry (VString _) _) => (Failure wrongtype, db)
      end
  end.

(** *** The client: one round trip per command *)

(** [formatSec] of go-redis, through which [Expire] and [SetEx] send a
    [time.Duration]: whole seconds, the rest cut off; a positive duration
    under one second is sent as one second. *)
Definition formatSec (dur : Z) : Z :=
  if (0 <? dur) && (dur <? second) then 1 else dur ÷ second.

Definition unreachable : string := "dial tcp: connection refused".

Definition roundtrip {A} (cmd : t → reply A * t) (db : t) : reply A * t :=
  match faults db with
  | [] => cmd db
  | false :: fs => cmd (with_faults fs db)
  | true :: fs => (Failure unreachable, with_faults fs db)
  end.

Definition SetNX key val := roundtrip (srv_setnx key val).
Definition Expire key ttl := roundtrip (srv_expire key (formatSec ttl)).
Definition Del key := roundtrip (srv_del key).
Definition Set_ key val := roundtrip (srv_set key val).
Definition Get key := roundtrip (srv_get key).
Definition SAdd key members := roundtrip (srv_sadd key members).
Definition SMembers key := roundtrip (srv_smembers key).
Definition SRem key members := roundtrip (srv_srem key members).

(** A pipeline queues commands and sends them in one round trip; the server
    runs them in order and [Exec] reports the first error. *)
Definition queued := t → option string * t.

Definition drop_reply {A} (cmd : t → reply A * t) : queued :=
  fun db =>
    match cmd db with
    | (Failure msg, db') => (Some msg, db')
    | (_, db') => (None, db')
    end.

Fixpoint run_queue (q : list queued) (db : t) : option string * t :=
  match q with
  | [] => (None, db)
  | c :: rest =>
      let '(e, db1) := c db in
      let '(e', db2) := run_queue rest db1 in
      (match e with Some m => Some m | None => e' end, db2)
  end.

Definition Exec (q : list queued) : t → reply unit * t :=
  roundtrip (fun db =>
    match run_queue q db with
    | (Some msg, db') => (Failure msg, db')
    | (None, db') => (Reply tt, db')
    end).

End Redis.

(* ===================================================================== *)
(** * Configuration ([lib.Config]) *)
(* ===================================================================== *)

Record RedisConfig := {
  Redis_Host : string;
  Redis_Port : Z;
  Redis_Password : string;
  Redis_DB : Z;
  Redis_KeyPrefix : string
}.

(** Durations are [time.Duration] values (int64 nanoseconds);
    [HealthCheckRetries] is a [uint]. *)
Record Config := {
  GitHubToken : string;
  Repo : string;
  SaveAssetsPath : string;
  GitHubAPIEndpoint : string;
  DeployCommand : string;
  RollbackCommand : string;
  HealthCheckCommand : string;
  VersionCommand : string;
  HealthCheckInterval : Z;
  CanaryRolloutWindow : Z;
  RolloutWindow : Z;
  RepositryPollingInterval : Z;
  PackageNamePattern : string;
  SlackWebhookURL : string;
  SlackChannel : string;
  Redis_ : RedisConfig;
  LogLevel : string;
  HealthCheckRetries : Z;
  HealthCheckTimeout : Z;
  IncludePreRelease : bool
}.

(* ===================================================================== *)
(** * The node: commands, files, observable events *)
(* ===================================================================== *)

(** What a finished [sh -c command] leaves: its standard output, its
    combined output, the error of [Wait] if any (non-zero exit, killed at the
    time-out, not started), the time it ran. *)
Record Completed := {
  stdout : string;
  combined : string;
  failure : option string;
  took : Z
}.

Inductive file :=
| Regular (content : string)
| Inaccessible.

(** [unwritable]: the paths at which a file cannot be created. *)
Record Host (machine : Type) := {
  fs : gmap string file;
  unwritable : gset string;
  node : machine
}.
Arguments fs {machine} _.
Arguments unwritable {machine} _.
Arguments node {machine} _.

(** The parts of the platform the sources only call: the shell (a command,
    the variables added to its environment, its time-out, 0 for none), the
    JSON codec on [MemberState], and two functions of Go's library. *)
Record MemberState := { CurrentVersion : string }.

Class Platform := {
  machine : Type;
  sh : string → list (string * string) → Z → Host machine → Completed * Host machine;
  json_Marshal : MemberState → string;
  json_Unmarshal : string → option MemberState;
  strings_TrimSpace : string → string;
  filepath_Join : string → string → string
}.

Inductive level := Debug | Info | Warn | Error_.

(** What an observer of the node sees, most recent first in a trace. *)
Inductive event :=
| Slog (lvl : level) (msg : string) (attrs : list (string * string))
| Exec_ (command : string) (env : list (string * string)) (timeout : Z)
| Sleep (d : Z)
| ApiRequest (endpoint : string) (arg : string)
| AssetDownload (id : Z)
| HttpGet (url : string).

(** The channels a [select] of the program waits on. *)
Inductive channel :=
| rolloutTicker
| gitTicker
| healthCheckTick
| canaryReleaseTick.

(** [lib.GitHuber] *)
Class GitHuber `{Platform} (G : Type) := {
  DownloadReleaseAsset :
    string → G → Host machine → result (string * string) * G * Host machine * list event
}.

Section Effects.
Context {P : Platform} {G : Type}.

(** [clock] is the node's monotonic clock; [sched] lists, in order, the
    channel that each [select] still to come receives from; [rand] lists
    the numbers that the random source of the process is still to give (an
    empty list: zeros). *)
Record World := {
  redis : Redis.t;
  host : Host machine;
  github : G;
  trace : list event;
  clock : Z;
  sched : list channel;
  rand : list Z
}.

Definition Go (A : Type) : Type := World → result A * World.

Definition ret {A} (a : A) : Go A := fun w => (Ok a, w).
Definition fail {A} (e : error) : Go A := fun w => (Err e, w).
Definition stop {A} (h : halt) : Go A := fun w => (Halt h, w).

Definition bind {A B} (m : Go A) (k : A → Go B) : Go B :=
  fun w =>
    match m w with
    | (Ok a, w') => k a w'
    | (Err e, w') => (Err e, w')
    | (Halt h, w') => (Halt h, w')
    end.

(** [if err := m; err != nil { ... }]: the error is handed to the caller
    as a value. *)
Definition try {A} (m : Go A) : Go (A + error) :=
  fun w =>
    match m w with
    | (Ok a, w') => (Ok (inl a), w')
    | (Err e, w') => (Ok (inr e), w')
    | (Halt h, w') => (Halt h, w')
    end.

Definition emit (e : event) : Go unit :=
  fun w =>
    (Ok tt, {| redis := redis w; host := host w; github := github w;
               trace := e :: trace w; clock := clock w; sched := sched w;
               rand := rand w |}).

Definition slog (lvl : level) (msg : string) (attrs : list (string * string)) : Go unit :=
  emit (Slog lvl msg attrs).

Definition set_redis (db : Redis.t) (w : World) : World :=
  {| redis := db; host := host w; github := github w;
     trace := trace w; clock := clock w; sched := sched w; rand := rand w |}.

Definition set_sched (l : list channel) (w : World) : World :=
  {| redis := redis w; host := host w; github := github w;
     trace := trace w; clock := clock w; sched := l; rand := rand w |}.

Definition set_rand (l : list Z) (w : World) : World :=
  {| redis := redis w; host := host w; github := github w;
     trace := trace w; clock := clock w; sched := sched w; rand := l |}.

(** [rand.Int63n n]: a number from 0 to [n - 1]; a panic when [n] is not
    positive. *)
Definition rand_Int63n (n : Z) : Go Z :=
  fun w =>
    if n <=? 0 then (Halt (Panicked "invalid argument to Int63n"), w)
    else
      match rand w with
      | [] => (Ok 0, w)
      | r :: rest => (Ok (r mod n), set_rand rest w)
      end.

(** [time.NewTicker], which panics on an interval that is not positive. *)
Definition time_NewTicker (d : Z) : Go unit :=
  if d <=? 0 then stop (Panicked "non-positive interval for NewTicker")
  else ret tt.

Definition tick (d : Z) : Go unit :=
  fun w =>
    (Ok tt, {| redis := redis w; host := host w; github := github w;
               trace := trace w; clock := clock w + d; sched := sched w;
               rand := rand w |}).

(** A command of the store client, its reply as it is. *)
Definition store {A} (cmd : Redis.t → Redis.reply A * Redis.t) (w : World)
  : Redis.reply A * World :=
  let '(r, db) := cmd (redis w) in (r, set_redis db w).

(** [.Result()] / [.Err()] of a command. *)
Definition store_Result {A} (cmd : Redis.t → Redis.reply A * Redis.t) : Go A :=
  fun w =>
    match store cmd w with
    | (Redis.Reply a, w') => (Ok a, w')
    | (Redis.Nil, w') => (Err (ErrorString "redis: nil"), w')
    | (Redis.Failure msg, w') => (Err (ErrorString msg), w')
    end.

(** [exec.Command("sh", "-c", command)] run to its end. *)
Definition run_sh (command : string) (env : list (string * string)) (timeout : Z)
  : Go Completed :=
  fun w =>
    let '(c, h) := sh command env timeout (host w) in
    (Ok c, {| redis := redis w; host := h; github := github w;
              trace := Exec_ command env timeout :: trace w;
              clock := clock w + took c; sched := sched w; rand := rand w |}).

End Effects.
Arguments World {P} G.
Arguments Go {P} G A.

Notation "'let*' x ':=' m 'in' k" := (bind m (fun x => k))
  (at level 10, x pattern, m at level 100, k at level 200).

(* ===================================================================== *)
(** * The coordination state ([lib.State]) *)
(* ===================================================================== *)

Record State := {
  me : string;
  canaryReleaseTagKey : string;
  stableReleaseTagKey : string;
  avoidReleaseTagKey : string;
  membersTagKey : string;
  rolloutKey : string;
  config : Config
}.

(** [NewState], after the connection is made and [os.Hostname] has
    answered [hostname]. *)
Definition NewState (config : Config) (hostname : string) : State :=
  let prefix :=
    if String.eqb (Redis_KeyPrefix (Redis_ config)) "" then Repo config
    else Redis_KeyPrefix (Redis_ config) in
  {| me := hostname +:+ ":" +:+ prefix;
     config := config;
     canaryReleaseTagKey := prefix +:+ "_canary_release_tag";
     stableReleaseTagKey := prefix +:+ "_stable_release_tag";
     avoidReleaseTagKey := prefix +:+ "_avoid_release_tag";
     membersTagKey := prefix +:+ "_members_tag";
     rolloutKey := prefix +:+ "_rollout" |}.

(** [strings.TrimRight s cutset], on bytes. *)
Fixpoint in_cutset (c : Ascii.ascii) (cutset : string) : bool :=
  match cutset with
  | EmptyString => false
  | String d rest => Ascii.eqb c d || in_cutset c rest
  end.

Fixpoint strings_TrimRight (s cutset : string) : string :=
  match s with
  | EmptyString => EmptyString
  | String c rest =>
      match strings_TrimRight rest cutset with
      | EmptyString => if in_cutset c cutset then EmptyString else String c EmptyString
      | kept => String c kept
      end
  end.

Section Lib.
Context {P : Platform} {G : Type}.

Definition UnlockCanaryRelease (s : State) : Go G unit :=
  let* _ := store_Result (Redis.Del (canaryReleaseTagKey s)) in ret tt.

Definition getLock (s : State) (key tag : string) (window : Z) : Go G bool :=
  let* ok := store_Result (Redis.SetNX key tag) in
  if ok : bool then
    let* _ := store_Result (Redis.Expire key window) in
    ret true
  else ret false.

Definition TryCanaryReleaseLock (s : State) (tag : string) : Go G bool :=
  getLock s (canaryReleaseTagKey s) tag (dur_mul (CanaryRolloutWindow (config s)) 2).

Definition TryRolloutLock (s : State) (tag : string) : Go G bool :=
  getLock s (rolloutKey s) tag (RolloutWindow (config s)).

Definition getRelease (s : State) (key : string) : Go G string :=
  fun w =>
    match store (Redis.Get key) w with
    | (Redis.Nil, w') => (Ok "", w')
    | (Redis.Failure msg, w') => (Err (ErrorString msg), w')
    | (Redis.Reply v, w') => (Ok v, w')
    end.

Definition CurrentStableTag (s : State) : Go G string :=
  getRelease s (stableReleaseTagKey s).

Definition IsAvoidReleaseTag (s : State) (tag : string) : Go G unit := ret tt.

Definition saveRelease (s : State) (key tag : string) : Go G unit :=
  store_Result (Redis.Set_ key tag).

Definition saveReleases (s : State) (key : string) (tags : list string) : Go G unit :=
  let* _ := store_Result (Redis.SAdd key tags) in ret tt.

Definition SaveStableReleaseTag (s : State) (tag : string) : Go G unit :=
  saveRelease s (stableReleaseTagKey s) tag.

Definition SaveAvoidReleaseTag (s : State) (tag : string) : Go G unit :=
  saveReleases s (avoidReleaseTagKey s) [tag].

Definition getReleases (s : State) (key : string) : Go G (list string) :=
  store_Result (Redis.SMembers key).

(** [exec.Command("sh", "-c", VersionCommand).Output()], trimmed. *)
Definition GetLastInstalledTag (s : State) : Go G string :=
  let* c := run_sh (VersionCommand (config s)) [] 0 in
  match failure c with
  | Some msg => fail (ErrorString msg)
  | None => ret (strings_TrimRight (strings_TrimSpace (stdout c)) newline)
  end.

Definition tag_in (tag : string) (tags : list string) : bool :=
  existsb (String.eqb tag) tags.

Definition CanInstallTag (s : State) (tag : string) : Go G unit :=
  if String.eqb tag "" then fail (ErrorString "tag is empty")
  else
    let* lastInstalledTag := GetLastInstalledTag s in
    if String.eqb lastInstalledTag "" then ret tt
    else if String.eqb lastInstalledTag tag then fail (Sentinel ErrAlreadyInstalled)
    else
      let* tags := getReleases s (avoidReleaseTagKey s) in
      if tag_in tag tags then fail (Sentinel ErrAvoidReleaseTag)
      else ret tt.

Definition RollbackTag (s : State) (beforeInstall : string) : Go G string :=
  let* rollbackTag :=
    (if String.eqb beforeInstall "" then CurrentStableTag s
     else ret beforeInstall) in
  if String.eqb rollbackTag "" then fail (ErrorString "can't decided rollback tag")
  else ret rollbackTag.

(** The pipeline is sent only when the version command has answered. *)
Definition SaveMemberState (s : State) : Go G unit :=
  let* currentVersion := GetLastInstalledTag s in
  let b := json_Marshal {| CurrentVersion := currentVersion |} in
  store_Result
    (Redis.Exec
       [Redis.drop_reply (Redis.srv_sadd (membersTagKey s) [me s]);
        Redis.drop_reply
          (Redis.srv_setex (me s) b
             (Redis.formatSec (dur_mul (RolloutWindow (config s)) 2)))]).

(** The loop of [GetRolloutProgress] over the members, with its two
    accumulators. *)
Fixpoint scan_members (tag : string) (members deletedMembers : list string)
  (installed : Z) : Go G (list string * Z) :=
  match members with
  | [] => ret (deletedMembers, installed)
  | m :: rest =>
      fun w =>
        match store (Redis.Get m) w with
        | (Redis.Nil, w') =>
            scan_members tag rest (deletedMembers ++ [m]) installed w'
        | (Redis.Failure msg, w') => (Err (ErrorString msg), w')
        | (Redis.Reply b, w') =>
            match json_Unmarshal b with
            | None => (Err (ErrorString "invalid character"), w')
            | Some ms =>
                scan_members tag rest deletedMembers
                  (if String.eqb (CurrentVersion ms) tag then installed + 1
                   else installed) w'
            end
        end
  end.

(** [SMembers(...).Val()] drops the error of the command: a failed read is
    an empty list of members. *)
Definition GetRolloutProgress (s : State) (tag : string) : Go G (Z * Z) :=
  fun w =>
    let '(r, w1) := store (Redis.SMembers (membersTagKey s)) w in
    let members := match r with Redis.Reply l => l | _ => [] end in
    let all := Z.of_nat (length members) in
    (let* (deletedMembers, installed) := scan_members tag members [] 0 in
     let* _ :=
       (match deletedMembers with
        | [] => ret tt
        | _ =>
            let* _ := store_Result (Redis.SRem (membersTagKey s) deletedMembers) in
            ret tt
        end) in
     ret (installed, all)) w1.

End Lib.

(* ===================================================================== *)
(** * The release source ([lib.GitHub]) *)
(* ===================================================================== *)

Record ReleaseAsset := {
  asset_ID : Z;
  asset_Name : string;
  asset_URL : string
}.

(** A release as the API returns it.  [PublishedAt] is a pointer in
    go-github, nil for a release that has no publication time (a draft that
    was never published); the instant is in seconds. *)
Record RepositoryRelease := {
  TagName : string;
  PublishedAt : option Z;
  Draft : bool;
  Prerelease : bool;
  Assets : list ReleaseAsset
}.

(** What [io.Copy] reads: a whole body, or a body that breaks after a
    part of it. *)
Inductive body :=
| Body (content : string)
| BrokenBody (partial : string).

(** The answers of the remote API ([inl] is the error of the call).  An
    asset is served as a body or as the location to fetch it from.  The
    releases come in pages; every page but the last names a next one. *)
Record Remote := {
  latest_release : string + RepositoryRelease;
  release_pages : list (string + list RepositoryRelease);
  release_by_tag : string → string + RepositoryRelease;
  asset_download : Z → string + (body + string);
  http_Do : string → string + body
}.

Record GitHub := {
  client : Remote;
  gh_config : Config;
  owner : string;
  repo : string;
  regPackageNamePattern : string → bool;
  lastTag : string;
  lastAssetFile : string
}.

Definition LatestTag : string := "latest".

Fixpoint list_releases (pages : list (string + list RepositoryRelease))
  (allReleases : list RepositoryRelease) : string + list RepositoryRelease :=
  match pages with
  | [] => inr allReleases
  | inl err :: _ => inl err
  | inr releases :: rest => list_releases rest (allReleases ++ releases)
  end.

(** [x.PublishedAt.Before(y.PublishedAt.Time)]; [None] is the
    dereference of a nil pointer. *)
Definition published_before (x y : RepositoryRelease) : option bool :=
  match PublishedAt x, PublishedAt y with
  | Some a, Some b => Some (a <? b)
  | _, _ => None
  end.

(** The inner loop of the sort at position [i]: [x] is [allReleases[i]],
    [rest] the elements after it. *)
Fixpoint sort_inner (x : RepositoryRelease) (rest : list RepositoryRelease)
  : option (RepositoryRelease * list RepositoryRelease) :=
  match rest with
  | [] => Some (x, [])
  | y :: rest' =>
      match published_before x y with
      | None => None
      | Some true =>
          match sort_inner y rest' with
          | Some (x', out) => Some (x', x :: out)
          | None => None
          end
      | Some false =>
          match sort_inner x rest' with
          | Some (x', out) => Some (x', y :: out)
          | None => None
          end
      end
  end.

Fixpoint sort_outer (n : nat) (l : list RepositoryRelease)
  : option (list RepositoryRelease) :=
  match n, l with
  | S n', x :: rest =>
      match sort_inner x rest with
      | Some (x', rest') =>
          match sort_outer n' rest' with
          | Some sorted => Some (x' :: sorted)
          | None => None
          end
      | None => None
      end
  | _, _ => Some l
  end.

Definition sort_by_published_desc (l : list RepositoryRelease)
  : option (list RepositoryRelease) :=
  sort_outer (length l) l.

Fixpoint first_prerelease (l : list RepositoryRelease) : option RepositoryRelease :=
  match l with
  | [] => None
  | r :: rest =>
      if Draft r then first_prerelease rest
      else if Prerelease r then Some r
      else first_prerelease rest
  end.

Definition searchReleaseWithPreRelease (g : GitHub) : result RepositoryRelease :=
  match list_releases (release_pages (client g)) [] with
  | inl err => Err (ErrorString err)
  | inr allReleases =>
      match sort_by_published_desc allReleases with
      | None => Halt (Panicked "nil pointer dereference")
      | Some sorted =>
          match first_prerelease sorted with
          | Some r => Ok r
          | None => Err (Sentinel ErrAssetsNotFound)
          end
      end
  end.

Definition cannot_download (tag err : string) : error :=
  WithMessage (Sentinel ErrAssetsCannotDownload)
    ("repositories.GetRelease returned tag:" +:+ tag +:+ " error: " +:+ err).

Definition with_cache (tag file : string) (g : GitHub) : GitHub :=
  {| client := client g; gh_config := gh_config g; owner := owner g;
     repo := repo g; regPackageNamePattern := regPackageNamePattern g;
     lastTag := tag; lastAssetFile := file |}.

Section Release.
Context {P : Platform}.

Definition write_file (path : string) (f : file) (h : Host machine) : Host machine :=
  {| fs := <[path := f]> (fs h); unwritable := unwritable h; node := node h |}.

(** The release that the first part of [DownloadReleaseAsset] settles on;
    [Ok None] is the nil pointer. *)
Definition select_release (g : GitHub) (tag : string)
  : result (option RepositoryRelease) * list event :=
  if String.eqb tag LatestTag then
    let evs := [ApiRequest "GetLatestRelease" ""] in
    let r := match latest_release (client g) with
             | inl _ => None
             | inr r => Some r
             end in
    match latest_release (client g), IncludePreRelease (gh_config g) with
    | inl err, false => (Err (cannot_download tag err), evs)
    | _, false => (Ok r, evs)
    | _, true =>
        let evs := ApiRequest "ListReleases" "" :: evs in
        match searchReleaseWithPreRelease g with
        | Err (Sentinel ErrAssetsNotFound) => (Ok r, evs)
        | Err err =>
            (Err (ErrorString ("repositories.ListReleases returned error: "
                               +:+ error_text err)), evs)
        | Halt h => (Halt h, evs)
        | Ok inPrerelease =>
            match r with
            | None => (Ok (Some inPrerelease), evs)
            | Some r' =>
                match published_before r' inPrerelease with
                | None => (Halt (Panicked "nil pointer dereference"), evs)
                | Some true => (Ok (Some inPrerelease), evs)
                | Some false => (Ok r, evs)
                end
            end
        end
    end
  else
    let evs := [ApiRequest "GetReleaseByTag" tag] in
    match release_by_tag (client g) tag with
    | inl err => (Err (cannot_download tag err), evs)
    | inr r => (Ok (Some r), evs)
    end.

(** The body of the loop over the assets, for the first asset whose name
    matches the pattern. *)
Definition fetch_asset (g : GitHub) (release : RepositoryRelease) (asset : ReleaseAsset)
  (h : Host machine)
  : result (string * string) * GitHub * Host machine * list event :=
  let filePath := filepath_Join (SaveAssetsPath (gh_config g)) (asset_Name asset) in
  match fs h !! filePath with
  | Some (Regular _) => (Ok (TagName release, filePath), g, h, [])
  | Some Inaccessible => (Err (ErrorString ("stat " +:+ filePath +:+ ": permission denied")), g, h, [])
  | None =>
      let evs := [AssetDownload (asset_ID asset)] in
      match asset_download (client g) (asset_ID asset) with
      | inl err =>
          (Err (ErrorString ("repositories.DownloadReleaseAsset returned error: " +:+ err)),
           g, h, evs)
      | inr served =>
          let fetched :=
            match served with
            | inl b => (Ok b, evs)
            | inr loc =>
                if String.eqb loc "" then (Halt (Panicked "nil io.Reader"), evs)
                else match http_Do (client g) loc with
                     | inl err => (Err (ErrorString err), HttpGet loc :: evs)
                     | inr b => (Ok b, HttpGet loc :: evs)
                     end
            end in
          match fetched with
          | (Err e, evs') => (Err e, g, h, evs')
          | (Halt p, evs') =>
              if bool_decide (filePath ∈ unwritable h)
              then (Err (ErrorString ("open " +:+ filePath +:+ ": permission denied")), g, h, evs')
              else (Halt p, g, write_file filePath (Regular "") h, evs')
          | (Ok b, evs') =>
              if bool_decide (filePath ∈ unwritable h)
              then (Err (ErrorString ("open " +:+ filePath +:+ ": permission denied")), g, h, evs')
              else
                match b with
                | BrokenBody partial =>
                    (Err (ErrorString "unexpected EOF"), g,
                     write_file filePath (Regular partial) h, evs')
                | Body content =>
                    (Ok (TagName release, filePath),
                     with_cache (TagName release) filePath g,
                     write_file filePath (Regular content) h, evs')
                end
          end
      end
  end.

Fixpoint first_matching (g : GitHub) (assets : list ReleaseAsset) : option ReleaseAsset :=
  match assets with
  | [] => None
  | asset :: rest =>
      if regPackageNamePattern g (asset_Name asset) then Some asset
      else first_matching g rest
  end.

(** [DownloadReleaseAsset]: what it returns, the cache and the host it
    leaves, and the requests and transfers it has made, most recent first.
    Its two [slog.Debug] lines ("tag info", "assets info") are not among
    these events. *)
Definition GitHub_DownloadReleaseAsset (tag : string) (g : GitHub) (h : Host machine)
  : result (string * string) * GitHub * Host machine * list event :=
  if negb (String.eqb tag "") && String.eqb tag (lastTag g)
     && negb (String.eqb (lastAssetFile g) "")
  then (Ok (tag, lastAssetFile g), g, h, [])
  else
    match select_release g tag with
    | (Err e, evs) => (Err e, g, h, evs)
    | (Halt p, evs) => (Halt p, g, h, evs)
    | (Ok None, evs) => (Halt (Panicked "nil pointer dereference"), g, h, evs)
    | (Ok (Some release), evs) =>
        match first_matching g (Assets release) with
        | None => (Err (Sentinel ErrAssetsNotFound), g, h, evs)
        | Some asset =>
            let '(r, g', h', evs') := fetch_asset g release asset h in
            (r, g', h', evs' ++ evs)
        end
    end.

#[export] Instance GitHub_GitHuber : GitHuber GitHub :=
  {| DownloadReleaseAsset := GitHub_DownloadReleaseAsset |}.

End Release.

(* ===================================================================== *)
(** * The control loops ([cmd/root.go]) *)
(* ===================================================================== *)

(** The Go handlers return only an error.  The model also names the
    [return nil] through which a call left. *)
Inductive rollout_outcome :=
| NoStableTag
| RolloutLockNotAcquired
| RolledOut (installed all : Z).

Inductive canary_outcome :=
| NoNewRelease
| CanaryLockNotAcquired
| Released (tag : string).

(** One turn of the loop of [runServer]: go round again, or return. *)
Inductive served :=
| Continue
| Return_ (err : option error).

Section Cmd.
Context {P : Platform} {G : Type} {GH : GitHuber G}.

(** A call through the [lib.GitHuber] interface. *)
Definition github_DownloadReleaseAsset (tag : string) : Go G (string * string) :=
  fun w =>
    let '(r, g, h, evs) := DownloadReleaseAsset tag (github w) (host w) in
    (r, {| redis := redis w; host := h; github := g;
           trace := evs ++ trace w; clock := clock w; sched := sched w;
           rand := rand w |}).

Definition executeCommand (command tag file : string) (timeout : Z)
  : Go G (string * option error) :=
  let* c := run_sh command [("RELEASE_TAG", tag); ("ASSET_FILE", file)]
              (if 0 <? timeout then timeout else 0) in
  match failure c with
  | Some msg => ret (combined c, Some (ErrorString msg))
  | None =>
      let* _ := slog Debug "command result" [("command", command); ("out", combined c)] in
      ret (combined c, None)
  end.

Definition minute : Z := 60 * 1000000000.

Definition deploy (cmd targetTag : string) (state : State) : Go G (string * string) :=
  let* d := try (github_DownloadReleaseAsset targetTag) in
  match d with
  | inr err => fail (ErrorString ("can't get release asset:" +:+ " " +:+ error_text err))
  | inl (tag, downloadFile) =>
      let* v := try (GetLastInstalledTag state) in
      match v with
      | inr err => fail (ErrorString ("can't get current version:" +:+ error_text err))
      | inl currentVersion =>
          let* _ := slog Info "deploy version info"
                      [("current_version", currentVersion); ("new_version", tag)] in
          let* (out, err) := executeCommand cmd tag downloadFile (5 * minute) in
          match err with
          | Some e =>
              fail (ErrorString ("failed to execute command: " +:+ error_text e
                                 +:+ ", " +:+ out))
          | None => ret (tag, downloadFile)
          end
      end
  end.

Definition handleRollout (config : Config) (state : State) : Go G rollout_outcome :=
  let* _ := SaveMemberState state in
  let* tag := CurrentStableTag state in
  if String.eqb tag "" then ret NoStableTag
  else
    let* _ := CanInstallTag state tag in
    let* got := TryRolloutLock state tag in
    if got : bool then
      let* _ := slog Info "lock success and start rollout" [("tag", tag)] in
      let* d := try (deploy (DeployCommand config) tag state) in
      match d with
      | inr err => fail (WithMessage err "deploy command failed")
      | inl _ =>
          let* m := try (SaveMemberState state) in
          let* _ := (match m with
                     | inr err => slog Error_ ("failed to save state: " +:+ error_text err) []
                     | inl _ => ret tt
                     end) in
          let* (installed, all) := GetRolloutProgress state tag in
          let* _ := slog Info "rollout success"
                      [("tag", tag);
                       ("progress", pretty installed +:+ "/" +:+ pretty all)] in
          ret (RolledOut installed all)
      end
    else ret RolloutLockNotAcquired.

(** [handleRollback] never returns nil. *)
Definition handleRollback {A} (rollbackTag : string) (config : Config) (state : State)
  : Go G A :=
  if String.eqb (RollbackCommand config) "" then fail (Sentinel ErrNoRollback)
  else
    let* _ := slog Info "start rollback" [("tag", rollbackTag)] in
    let* d := try (deploy (RollbackCommand config) rollbackTag state) in
    match d with
    | inr err => fail (WithMessage err "rollback command failed")
    | inl _ =>
        let* _ := slog Info "rollback success" [("tag", rollbackTag)] in
        fail (Sentinel ErrRollback)
    end.

(** ** The health-check engine *)

(** [retry.Do] of retry-go (v3.0.0 in go.mod), a library the repository
    only calls, with the three options the call site sets ([Context],
    [Attempts], [Delay]) and the library's defaults for the others: call
    [retryableFunc] until it returns nil, at most [attempts] times; after
    the failed attempt [n] (counted from 0) that is not the last, wait for
    the time that the delay policy gives or until the context is done,
    whichever comes first, and return the context's error in the second
    case; when every attempt has failed, return the log of the errors.

    The call site sets no [DelayType], so the policy is the default,
    [CombineDelay(BackOffDelay, RandomDelay)]: the configured delay shifted
    left by [n], that is doubled from one attempt to the next, plus a random
    part below [maxJitter], 100 ms by default. *)
Definition maxJitter : Z := 100 * millisecond.

(** [BackOffDelay]: [delay << n]; the library takes a delay that is not
    positive as 1 and keeps [n] at most [62 - floor(log2 delay)], so that
    the shift stays within int64. *)
Definition BackOffDelay (n : nat) (delay : Z) : Z :=
  let delay := if delay <=? 0 then 1 else delay in
  Z.shiftl delay (Z.min (Z.of_nat n) (62 - Z.log2 delay)).

(** [CombineDelay(BackOffDelay, RandomDelay)]: the sum, kept within
    int64. *)
Definition delayType (n : nat) (delay : Z) : Go G Z :=
  let* jitter := rand_Int63n maxJitter in
  ret (Z.min (BackOffDelay n delay + jitter) (2 ^ 63 - 1)).

(** [left] attempts are still to be made, [n] have been made; [deadline]
    is the instant at which the context is done; [st] is the variable that
    the function captures and assigns.  A wait that would end at the
    deadline itself is taken to be cut by it. *)
Fixpoint retry_attempts {S} (left n : nat) (retryableFunc : S → Go G (S * option error))
  (deadline delay : Z) (st : S) (errorLog : list string) : Go G (S * option error) :=
  match left with
  | O => ret (st, Some (RetryError errorLog))
  | Datatypes.S left' =>
      let* (st', err) := retryableFunc st in
      match err with
      | None => ret (st', None)
      | Some e =>
          let errorLog' := errorLog ++ [error_text e] in
          match left' with
          | O => ret (st', Some (RetryError errorLog'))
          | _ =>
              let* delayTime := delayType n delay in
              fun w =>
                if deadline <=? clock w + delayTime then
                  (let* _ := emit (Sleep (Z.max 0 (deadline - clock w))) in
                   let* _ := tick (Z.max 0 (deadline - clock w)) in
                   ret (st', Some (Sentinel DeadlineExceeded))) w
                else
                  (let* _ := emit (Sleep delayTime) in
                   let* _ := tick delayTime in
                   retry_attempts left' (Datatypes.S n) retryableFunc deadline delay
                     st' errorLog') w
          end
      end
  end.

Definition retry_Do {S} (retryableFunc : S → Go G (S * option error))
  (deadline : Z) (attempts : Z) (delay : Z) (st : S) : Go G (S * option error) :=
  fun w =>
    if deadline <=? clock w then (Ok (st, Some (Sentinel DeadlineExceeded)), w)
    else retry_attempts (Z.to_nat attempts) 0 retryableFunc deadline delay st [] w.

(** The time-out of the context of a burst:
    [HealthCheckTimeout*Duration(HealthCheckRetries)
     + HealthCheckInterval*Duration(HealthCheckRetries)]. *)
Definition burst_timeout (config : Config) : Z :=
  dur_add
    (dur_mul (HealthCheckTimeout config) (wrap64 (HealthCheckRetries config)))
    (dur_mul (HealthCheckInterval config) (wrap64 (HealthCheckRetries config))).

(** The function given to [retry.Do]; it assigns the output to [ret]. *)
Definition health_attempt (config : Config) (tag file : string) (_ : string)
  : Go G (string * option error) :=
  let* (out, err) := executeCommand (HealthCheckCommand config) tag file
                       (HealthCheckTimeout config) in
  match err with
  | Some e =>
      ret (out, Some (ErrorString ("health check command failed: " +:+ error_text e
                                   +:+ ", " +:+ out)))
  | None => ret (out, None)
  end.

(** The closure [f] of [runHealthCheck]. *)
Definition health_burst (config : Config) (tag file : string)
  : Go G (string * option error) :=
  fun w =>
    retry_Do (health_attempt config tag file)
      (clock w + burst_timeout config)
      (HealthCheckRetries config) (HealthCheckInterval config) "" w.

(** The [for { select { ... } }] of [runHealthCheck], along the schedule. *)
Fixpoint health_watch (f : Go G (string * option error)) (ticks : list channel)
  : Go G (string * option error) :=
  match ticks with
  | healthCheckTick :: rest =>
      fun w =>
        match f (set_sched rest w) with
        | (Ok (out, Some err), w') => (Ok (out, Some err), w')
        | (Ok (_, None), w') => health_watch f rest w'
        | (Err e, w') => (Err e, w')
        | (Halt h, w') => (Halt h, w')
        end
  | canaryReleaseTick :: rest => fun w => (Ok ("", None), set_sched rest w)
  | _ => stop Blocked
  end.

(** The two tickers are made first, from the configuration (in one-shot
    mode too, before they are replaced). *)
Definition runHealthCheck (config : Config) (tag file : string)
  : Go G (string * option error) :=
  let* _ := time_NewTicker (HealthCheckInterval config) in
  let* _ := time_NewTicker (CanaryRolloutWindow config) in
  let f := health_burst config tag file in
  let* (out, err) := f in
  match err with
  | Some e => ret (out, Some e)
  | None => fun w => health_watch f (sched w) w
  end.

(** ** The canary cycle *)

(** Lines 164-174: the health check has failed. *)
Definition canary_failed {A} (config : Config) (state : State)
  (tag lastInstalledTag out : string) (err : error) : Go G A :=
  let* _ := slog Error_ "health check command failed"
              [("err", error_text err); ("out", out)] in
  let* a := try (SaveAvoidReleaseTag state tag) in
  match a with
  | inr e => fail (ErrorString ("can't save avoid tag:" +:+ error_text e))
  | inl _ =>
      let* rollbackTag := RollbackTag state lastInstalledTag in
      handleRollback rollbackTag config state
  end.

(** Lines 176-189: the health check has succeeded. *)
Definition canary_verified (config : Config) (state : State) (tag : string)
  : Go G canary_outcome :=
  let* _ := slog Info "health check success" [("tag", tag)] in
  let* v := try (SaveStableReleaseTag state tag) in
  match v with
  | inr e => fail (ErrorString ("can't save stable tag:" +:+ error_text e))
  | inl _ =>
      let* m := try (SaveMemberState state) in
      let* _ := (match m with
                 | inr err => slog Error_ ("failed to save state: " +:+ error_text err) []
                 | inl _ => ret tt
                 end) in
      let* u := try (UnlockCanaryRelease state) in
      match u with
      | inr _ => fail (ErrorString "can't unlock canary release tag")
      | inl _ =>
          let* _ := slog Info "canary release success" [("tag", tag)] in
          ret (Released tag)
      end
  end.

Definition handleCanaryRelease (config : Config) (state : State) : Go G canary_outcome :=
  let* _ := SaveMemberState state in
  let* lastInstalledTag := GetLastInstalledTag state in
  let* stableTab := CurrentStableTag state in
  let* l := try (github_DownloadReleaseAsset LatestTag) in
  match l with
  | inr err => fail (ErrorString ("can't get release asset:" +:+ " " +:+ error_text err))
  | inl (tag, _) =>
      if String.eqb tag stableTab then ret NoNewRelease
      else
        let* _ := CanInstallTag state tag in
        let* got := TryCanaryReleaseLock state tag in
        if got : bool then
          let* _ := slog Info "lock success and start canary release" [("tag", tag)] in
          let* d := try (deploy (DeployCommand config) tag state) in
          match d with
          | inr err => fail (WithMessage err "deploy command failed")
          | inl (tag, filename) =>
              let* _ := slog Info "deploy command success and start health check"
                          [("tag", tag); ("cmd", HealthCheckCommand config)] in
              let* (out, herr) := runHealthCheck config tag filename in
              match herr with
              | Some err => canary_failed config state tag lastInstalledTag out err
              | None => canary_verified config state tag
              end
          end
        else ret CanaryLockNotAcquired
  end.

(** ** The loop of [runServer] *)

(** What the loop does with the error of [handleRollout]. *)
Definition rollout_error (err : error) : Go G served :=
  if errors_Is err ErrAlreadyInstalled then
    let* _ := slog Debug "can't rollout" [("err", error_text err)] in ret Continue
  else if errors_Is err ErrAssetsCannotDownload then
    let* _ := slog Warn "can't get assets files" [] in ret Continue
  else ret (Return_ (Some err)).

(** [case <-rolloutTicker.C], up to the test of [once]. *)
Definition rollout_case (config : Config) (state : State) : Go G served :=
  let* r := try (handleRollout config state) in
  match r with
  | inl _ => ret Continue
  | inr err => rollout_error err
  end.

(** What the loop does with the error of [handleCanaryRelease]. *)
Definition canary_error (err : error) : Go G served :=
  if errors_Is err ErrAssetsNotFound || errors_Is err ErrAlreadyInstalled
     || errors_Is err ErrAvoidReleaseTag then
    let* _ := slog Debug "can't rollout" [("err", error_text err)] in ret Continue
  else if errors_Is err ErrAssetsCannotDownload then
    let* _ := slog Warn "can't get assets files" [] in ret Continue
  else if errors_Is err ErrRollback then
    let* _ := slog Warn "rollback success" [] in ret Continue
  else if errors_Is err ErrNoRollback then
    let* _ := slog Info "no rollback because no rollback command" [] in ret Continue
  else ret (Return_ (Some err)).

(** [case <-gitTicker.C], up to the test of [once]. *)
Definition canary_case (config : Config) (state : State) : Go G served :=
  let* r := try (handleCanaryRelease config state) in
  match r with
  | inl _ => ret Continue
  | inr err => canary_error err
  end.

(** The [for { select { ... } }] of [runServer]; [once] is the flag of that
    name, [stopped] says that [rolloutTicker.Stop()] was called.  Every turn
    takes at least one entry of the schedule, so [fuel] above its length is
    never used up. *)
Fixpoint serve (fuel : nat) (once stopped : bool) (config : Config) (state : State)
  : Go G (option error) :=
  match fuel with
  | O => stop Blocked
  | Datatypes.S fuel' =>
      fun w =>
        match sched w with
        | rolloutTicker :: rest =>
            if stopped then (Halt Blocked, w)
            else
              (let* c := rollout_case config state in
               match c with
               | Return_ e => ret e
               | Continue => serve fuel' once (once || stopped) config state
               end) (set_sched rest w)
        | gitTicker :: rest =>
            (let* c := canary_case config state in
             match c with
             | Return_ e => ret e
             | Continue =>
                 if once then ret None
                 else serve fuel' once stopped config state
             end) (set_sched rest w)
        | _ => (Halt Blocked, w)
        end
  end.

Definition runServer (once : bool) (config : Config) (state : State)
  : Go G (option error) :=
  fun w => serve (Datatypes.S (length (sched w))) once false config state w.

End Cmd.

(* ===================================================================== *)
(** * A small platform to run the model on

    A node whose version command prints the installed version, whose deploy
    and rollback commands install [RELEASE_TAG], and whose health check
    answers from a script ([true]: healthy), one entry per invocation. *)
(* ===================================================================== *)

Module Demo.

Record toy := { installed : string; health : list bool }.

Fixpoint getenv (name : string) (env : list (string * string)) : string :=
  match env with
  | [] => ""
  | (k, v) :: rest => if String.eqb k name then v else getenv name rest
  end.

Definition finished (out : string) : Completed :=
  {| stdout := out; combined := out; failure := None; took := 1 |}.

Definition exited (out : string) : Completed :=
  {| stdout := out; combined := out; failure := Some "exit status 1"; took := 1 |}.

Definition toy_sh (command : string) (env : list (string * string)) (timeout : Z)
  (h : Host toy) : Completed * Host toy :=
  if String.eqb command "version" then
    (finished (installed (node h) +:+ newline), h)
  else if String.eqb command "deploy" || String.eqb command "rollback" then
    (finished "installed",
     {| fs := fs h; unwritable := unwritable h;
        node := {| installed := getenv "RELEASE_TAG" env; health := health (node h) |} |})
  else if String.eqb command "health" then
    match health (node h) with
    | [] => (finished "healthy", h)
    | ok :: rest =>
        (if ok : bool then finished "healthy" else exited "unhealthy",
         {| fs := fs h; unwritable := unwritable h;
            node := {| installed := installed (node h); health := rest |} |})
    end
  else (exited "command not found", h).

Fixpoint strip_prefix (prefix s : string) : option string :=
  match prefix, s with
  | EmptyString, _ => Some s
  | String a p', String b s' => if Ascii.eqb a b then strip_prefix p' s' else None
  | _, _ => None
  end.

(** The white space of ASCII, which is all that the commands of the toy
    node print: tab, line feed, vertical tab, form feed, carriage return,
    space. *)
Definition white_space : string :=
  String (Ascii.ascii_of_nat 9) (String (Ascii.ascii_of_nat 10)
    (String (Ascii.ascii_of_nat 11) (String (Ascii.ascii_of_nat 12)
      (String (Ascii.ascii_of_nat 13) " ")))).

Fixpoint trim_left (s : string) : string :=
  match s with
  | String c rest => if in_cutset c white_space then trim_left rest else s
  | EmptyString => EmptyString
  end.

#[export] Instance platform : Platform := {|
  machine := toy;
  sh := toy_sh;
  json_Marshal := fun ms => "CurrentVersion=" +:+ CurrentVersion ms;
  json_Unmarshal := fun b =>
    match strip_prefix "CurrentVersion=" b with
    | Some v => Some {| CurrentVersion := v |}
    | None => None
    end;
  strings_TrimSpace := fun s => strings_TrimRight (trim_left s) white_space;
  filepath_Join := fun dir name => dir +:+ "/" +:+ name
|}.

Definition cfg : Config := {|
  GitHubToken := "";
  Repo := "acme/app";
  SaveAssetsPath := "/usr/local/src";
  GitHubAPIEndpoint := "https://api.github.com";
  DeployCommand := "deploy";
  RollbackCommand := "rollback";
  HealthCheckCommand := "health";
  VersionCommand := "version";
  HealthCheckInterval := second;
  CanaryRolloutWindow := 300 * second;
  RolloutWindow := 60 * second;
  RepositryPollingInterval := 300 * second;
  PackageNamePattern := "app.tar.gz";
  SlackWebhookURL := "";
  SlackChannel := "";
  Redis_ := {| Redis_Host := "127.0.0.1"; Redis_Port := 6379; Redis_Password := "";
               Redis_DB := 1; Redis_KeyPrefix := "" |};
  LogLevel := "info";
  HealthCheckRetries := 3;
  HealthCheckTimeout := second;
  IncludePreRelease := false
|}.

Definition cfg_no_rollback : Config := {|
  GitHubToken := GitHubToken cfg; Repo := Repo cfg;
  SaveAssetsPath := SaveAssetsPath cfg; GitHubAPIEndpoint := GitHubAPIEndpoint cfg;
  DeployCommand := DeployCommand cfg; RollbackCommand := "";
  HealthCheckCommand := HealthCheckCommand cfg; VersionCommand := VersionCommand cfg;
  HealthCheckInterval := HealthCheckInterval cfg;
  CanaryRolloutWindow := CanaryRolloutWindow cfg; RolloutWindow := RolloutWindow cfg;
  RepositryPollingInterval := RepositryPollingInterval cfg;
  PackageNamePattern := PackageNamePattern cfg;
  SlackWebhookURL := ""; SlackChannel := ""; Redis_ := Redis_ cfg;
  LogLevel := LogLevel cfg; HealthCheckRetries := HealthCheckRetries cfg;
  HealthCheckTimeout := HealthCheckTimeout cfg;
  IncludePreRelease := IncludePreRelease cfg
|}.

Definition state : State := NewState cfg "node1".

Definition tarball (id : Z) : ReleaseAsset :=
  {| asset_ID := id; asset_Name := "app.tar.gz"; asset_URL := "https://example.invalid/app" |}.

Definition checksums (id : Z) : ReleaseAsset :=
  {| asset_ID := id; asset_Name := "SHA256SUMS"; asset_URL := "https://example.invalid/sums" |}.

Definition release (tag : string) (at_ : Z) (assets : list ReleaseAsset) : RepositoryRelease :=
  {| TagName := tag; PublishedAt := Some at_; Draft := false; Prerelease := false;
     Assets := assets |}.

(** A release source whose latest release is [latest]; [by_tag] lists the
    releases that can be asked for by tag. *)
Definition remote (latest : RepositoryRelease) (by_tag : list RepositoryRelease) : Remote :=
  {| latest_release := inr latest;
     release_pages := [inr (latest :: by_tag)];
     release_by_tag := fun tag =>
       match List.find (fun r => String.eqb (TagName r) tag) (latest :: by_tag) with
       | Some r => inr r
       | None => inl "404 Not Found"
       end;
     asset_download := fun id => inr (inl (Body "binary"));
     http_Do := fun url => inl "no route to host" |}.

Definition github_of (r : Remote) : GitHub :=
  {| client := r; gh_config := cfg; owner := "acme"; repo := "app";
     regPackageNamePattern := String.eqb "app.tar.gz";
     lastTag := ""; lastAssetFile := "" |}.

Definition db_of (keys : list (string * Redis.entry)) (faults : list bool) : Redis.t :=
  {| Redis.keyspace := list_to_map keys; Redis.now := 1000; Redis.faults := faults |}.

Definition world (db : Redis.t) (g : GitHub) (installed : string) (health : list bool)
  (sched : list channel) : World GitHub :=
  {| redis := db;
     host := {| fs := ∅; unwritable := ∅;
                node := {| installed := installed; health := health |} |};
     github := g; trace := []; clock := 0; sched := sched; rand := [] |}.

End Demo.

(* ===================================================================== *)
(** * What the statements below observe *)
(* ===================================================================== *)

(** Whether the next round trip to the store fails, and the client once it
    has been made. *)
Definition next_fault (db : Redis.t) : bool :=
  match Redis.faults db with
  | true :: _ => true
  | _ => false
  end.

Definition after_roundtrip (db : Redis.t) : Redis.t :=
  Redis.with_faults (tail (Redis.faults db)) db.

(** The entry of a lock: the tag, and the instant at which it expires. *)
Definition lock_entry (tag : string) (deadline : option Z) : Redis.entry :=
  Redis.Entry (Redis.VString tag) deadline.

(** The key did not exist before and exists after. *)
Definition lock_created (key : string) (db db' : Redis.t) : Prop :=
  Redis.find key db = None ∧ is_Some (Redis.find key db').

(** The two stores hold the same entries, except maybe at [keys], at the
    same instant. *)
Definition same_elsewhere (keys : list string) (db db' : Redis.t) : Prop :=
  Redis.now db' = Redis.now db
  ∧ ∀ k, k ∉ keys → Redis.keyspace db' !! k = Redis.keyspace db !! k.

(** The set a key holds (empty when the key does not exist), the string a
    key holds (empty when the key does not exist); [None] when the key
    holds a value of the other kind. *)
Definition set_at (key : string) (db : Redis.t) : option (gset string) :=
  match Redis.find key db with
  | None => Some ∅
  | Some (Redis.Entry (Redis.VSet s) _) => Some s
  | Some (Redis.Entry (Redis.VString _) _) => None
  end.

Definition string_at (key : string) (db : Redis.t) : option string :=
  match Redis.find key db with
  | None => Some ""
  | Some (Redis.Entry (Redis.VString v) _) => Some v
  | Some (Redis.Entry (Redis.VSet _) _) => None
  end.

(** The list [tags] has the members of [A]. *)
Definition tag_in_set (tags : list string) (A : gset string) : Prop :=
  ∀ tag, tag_in tag tags = bool_decide (tag ∈ A).

Fixpoint count_char (c : Ascii.ascii) (s : string) : nat :=
  match s with
  | EmptyString => 0%nat
  | String d rest => ((if Ascii.eqb d c then 1 else 0) + count_char c rest)%nat
  end.

Section Observations.
Context {P : Platform} {G : Type}.

(** What a call that tries to take the lock [key] for [tag] with time to
    live [ttl] does to the store and returns: the instant and the other keys
    are left alone; a lock that exists is left as it is; a call that returns
    true has set the key to [tag], expiring after the whole seconds of
    [ttl] (one second for a positive [ttl] below it) from now; the call
    returns true exactly when the lock was free and both round trips went
    through, false exactly when the first went through and the lock was
    held; it created the lock exactly when the lock was free and the first
    round trip went through, so that a call that returns a boolean returns
    true exactly when it created the lock; a call that created the lock and
    returns an error has left it set, for ever; the call returns. *)
Definition acquires (key tag : string) (ttl : Z) (call : Go G bool) (w : World G) : Prop :=
  let db := redis w in
  let r := (call w).1 in
  let db' := redis (call w).2 in
  Redis.now db' = Redis.now db
  ∧ (∀ k, k ≠ key → Redis.find k db' = Redis.find k db)
  ∧ (is_Some (Redis.find key db) → Redis.find key db' = Redis.find key db)
  ∧ (r = Ok true →
     Redis.find key db'
     = Some (lock_entry tag
               (Some (Redis.now db + Redis.formatSec ttl * second))))
  ∧ (r = Ok true
     ↔ Redis.find key db = None ∧ next_fault db = false
       ∧ next_fault (after_roundtrip db) = false)
  ∧ (r = Ok false ↔ is_Some (Redis.find key db) ∧ next_fault db = false)
  ∧ (lock_created key db db'
     ↔ Redis.find key db = None ∧ next_fault db = false)
  ∧ (∀ b, r = Ok b → (b = true ↔ lock_created key db db'))
  ∧ (∀ e, r = Err e → lock_created key db db' →
     ∀ d, Redis.find key (Redis.advance d db') = Some (lock_entry tag None))
  ∧ (∀ h, r ≠ Halt h).

(** The record of the member [m]: absent or expired ([departed]); there
    and reporting the version [tag] ([reports]); absent, or a string that
    [json.Unmarshal] accepts ([readable]). *)
Definition departed (db : Redis.t) (m : string) : bool :=
  match Redis.find m db with
  | None => true
  | Some _ => false
  end.

Definition reports (tag : string) (db : Redis.t) (m : string) : bool :=
  match Redis.find m db with
  | Some (Redis.Entry (Redis.VString b) _) =>
      match json_Unmarshal b with
      | Some ms => String.eqb (CurrentVersion ms) tag
      | None => false
      end
  | _ => false
  end.

Definition readable (db : Redis.t) (m : string) : Prop :=
  match Redis.find m db with
  | None => True
  | Some (Redis.Entry (Redis.VString b) _) => is_Some (json_Unmarshal b)
  | Some (Redis.Entry (Redis.VSet _) _) => False
  end.

(** The variables that [executeCommand] adds to the environment. *)
Definition release_env (tag file : string) : list (string * string) :=
  [("RELEASE_TAG", tag); ("ASSET_FILE", file)].

(** The next [n] runs of a command on a host that nothing else touches:
    what each run leaves, and the host after it. *)
Fixpoint runs (n : nat) (command : string) (env : list (string * string))
  (timeout : Z) (h : Host machine) : list (Completed * Host machine) :=
  match n with
  | O => []
  | S n' =>
      let r := sh command env timeout h in
      r :: runs n' command env timeout r.2
  end.

(** The runs up to the first one that succeeds, included. *)
Fixpoint until_success (rs : list (Completed * Host machine))
  : list (Completed * Host machine) :=
  match rs with
  | [] => []
  | r :: rest =>
      match failure r.1 with
      | None => [r]
      | Some _ => r :: until_success rest
      end
  end.

(** The runs of the health check of a burst that starts on the host [h]. *)
Definition health_runs (config : Config) (tag file : string) (h : Host machine)
  : list (Completed * Host machine) :=
  until_success
    (runs (Z.to_nat (HealthCheckRetries config)) (HealthCheckCommand config)
       (release_env tag file) (HealthCheckTimeout config) h).

(** The message of the error of a failed attempt. *)
Definition attempt_message (c : Completed) : string :=
  "health check command failed: " +:+ default "" (failure c) +:+ ", " +:+ combined c.

(** What a burst returns after the attempts [made]: the output of the last
    one, and nil if it succeeded, the log of the errors if not. *)
Definition burst_result (made : list (Completed * Host machine))
  : string * option error :=
  match last made with
  | None => ("", Some (RetryError []))
  | Some (c, _) =>
      (combined c,
       match failure c with
       | None => None
       | Some _ => Some (RetryError (map (λ r, attempt_message r.1) made))
       end)
  end.

(** The number of times [command] was run, and the waits, in a trace. *)
Definition invocations (command : string) (tr : list event) : nat :=
  length (List.filter
            (λ e, match e with
                  | Exec_ c _ _ => String.eqb c command
                  | _ => false
                  end) tr).

(** The number of downloads of an asset in a trace, and the traces without
    any transfer of an asset. *)
Definition downloads (tr : list event) : nat :=
  length (List.filter
            (λ e, match e with AssetDownload _ => true | _ => false end) tr).

Definition no_transfer (tr : list event) : Prop :=
  Forall (λ e, match e with
               | AssetDownload _ | HttpGet _ => False
               | _ => True
               end) tr.

Fixpoint sleeps (tr : list event) : list Z :=
  match tr with
  | [] => []
  | Sleep d :: rest => d :: sleeps rest
  | _ :: rest => sleeps rest
  end.

(** [watched f n w w']: from [w], [n] ticks of the health-check ticker
    are received one after the other, the burst [f] that each of them runs
    returns a nil error, and the last one leaves [w']. *)
Inductive watched (f : Go G (string * option error))
  : nat → World G → World G → Prop :=
| watched_O w : watched f 0 w w
| watched_S n w rest out w1 w' :
    sched w = healthCheckTick :: rest →
    f (set_sched rest w) = (Ok (out, None), w1) →
    watched f n w1 w' →
    watched f (S n) w w'.

(** The call leaves the store as it is outside [keys], whatever it
    returns. *)
Definition frames {A} (keys : list string) (m : Go G A) : Prop :=
  ∀ w, same_elsewhere keys (redis w) (redis (m w).2).

(** Every error that the call returns satisfies [Q]. *)
Definition raises {A} (Q : error → Prop) (m : Go G A) : Prop :=
  ∀ w e w', m w = (Err e, w') → Q e.

(** The call only adds events to the trace. *)
Definition grows {A} (m : Go G A) : Prop :=
  ∀ w, ∃ evs, trace (m w).2 = evs ++ trace w.

End Observations.

(** [errors.Is] recognises neither of the two errors of the release source
    in the chain of [e]. *)
Definition hides_asset_errors (e : error) : Prop :=
  errors_Is e ErrAssetsNotFound = false
  ∧ errors_Is e ErrAssetsCannotDownload = false.

Section LoopVerdicts.
Context {P : Platform} {G : Type}.

(** What the canary turn of the loop of [runServer] does with an error of
    the handler: return it, which ends the process ([canary_fatal]); or log
    one line and go round again ([canary_skipped]). *)
Definition canary_fatal (e : error) : Prop :=
  ∀ w : World G, canary_error e w = (Ok (Return_ (Some e)), w).

Definition canary_skipped (lvl : level) (msg : string) (attrs : list (string * string))
  (e : error) : Prop :=
  ∀ w : World G, canary_error e w = (Ok Continue, (slog lvl msg attrs w).2).

(** The same for the rollout turn. *)
Definition rollout_fatal (e : error) : Prop :=
  ∀ w : World G, rollout_error e w = (Ok (Return_ (Some e)), w).

Definition rollout_skipped (lvl : level) (msg : string) (attrs : list (string * string))
  (e : error) : Prop :=
  ∀ w : World G, rollout_error e w = (Ok Continue, (slog lvl msg attrs w).2).

End LoopVerdicts.

From Stdlib Require Import Sorted.

(* ===================================================================== *)
(** * Start-up ([lib.NewGitHub], [lib.NewState], the head of [runServer]) *)
(* ===================================================================== *)

(** [strings.Split s sep] for a separator of one byte: the pieces of [s]
    between the occurrences of [sep], one more than there are
    occurrences. *)
Fixpoint strings_Split (s : string) (sep : Ascii.ascii) : list string :=
  match s with
  | EmptyString => [EmptyString]
  | String c rest =>
      if Ascii.eqb c sep then EmptyString :: strings_Split rest sep
      else
        match strings_Split rest sep with
        | piece :: pieces => String c piece :: pieces
        | [] => [String c EmptyString]
        end
  end.

(** [os.Getenv]: the empty string for a variable that is not set. *)
Definition os_Getenv (environ : gmap string string) (name : string) : string :=
  default "" (environ !! name).

Section NewGitHub.

(** Two parts of libraries that [NewGitHub] only calls: [regexp.Compile]
    ([None] for a pattern that does not compile, on which
    [regexp.MustCompile] panics), and the client that
    [factory.NewGithubClient] makes from the environment, whose error the
    source drops. *)
Variable regexp_Compile : string → option (string → bool).
Variable factory_NewGithubClient : gmap string string → Remote.

(** [NewGitHub], with the environment of the process before and after. *)
Definition NewGitHub (config : Config) (environ : gmap string string)
  : result GitHub * gmap string string :=
  let token := GitHubToken config in
  let environ' :=
    if String.eqb (os_Getenv environ "GITHUB_TOKEN") ""
    then <["GITHUB_TOKEN" := token]> environ
    else environ in
  let client := factory_NewGithubClient environ' in
  let ownerRepo := strings_Split (Repo config) "/" in
  (match ownerRepo with
   | [owner; repo] =>
       match regexp_Compile (PackageNamePattern config) with
       | None =>
           Halt (Panicked ("regexp: Compile(" +:+ PackageNamePattern config +:+ ")"))
       | Some re =>
           Ok {| client := client; gh_config := config; owner := owner;
                 repo := repo; regPackageNamePattern := re;
                 lastTag := ""; lastAssetFile := "" |}
       end
   | _ => Err (ErrorString ("invalid repo: " +:+ Repo config))
   end, environ').

End NewGitHub.

Section Startup.
Context {P : Platform}.

(** PING *)
Definition Ping : Redis.t → Redis.reply string * Redis.t :=
  Redis.roundtrip (λ db, (Redis.Reply "PONG", db)).

(** [lib.NewState] as a whole; [os_Hostname] is the answer of
    [os.Hostname], [inl] its error. *)
Definition lib_NewState {G} (config : Config) (os_Hostname : string + string)
  : Go G State :=
  let* p := try (store_Result Ping) in
  match p with
  | inr err =>
      fail (ErrorString ("failed to create redis client: " +:+ error_text err))
  | inl _ =>
      match os_Hostname with
      | inl err => fail (ErrorString ("failed to get hostname: " +:+ err))
      | inr hostname => ret (NewState config hostname)
      end
  end.

Definition set_github (g : GitHub) (w : World GitHub) : World GitHub :=
  {| redis := redis w; host := host w; github := g;
     trace := trace w; clock := clock w; sched := sched w; rand := rand w |}.

(** [runServer] as a whole: the release source, the two tickers and the
    state are made, then the loop runs.  In one-shot mode the two tickers
    are first made from the configuration all the same. *)
Definition cmd_runServer (regexp_Compile : string → option (string → bool))
  (factory_NewGithubClient : gmap string string → Remote)
  (once : bool) (config : Config)
  (environ : gmap string string) (os_Hostname : string + string)
  : Go GitHub (option error) :=
  fun w =>
    match (NewGitHub regexp_Compile factory_NewGithubClient config environ).1 with
    | Err err => (Ok (Some err), w)
    | Halt h => (Halt h, w)
    | Ok github =>
        (let* _ := time_NewTicker (RepositryPollingInterval config) in
         let* _ := time_NewTicker (RolloutWindow config) in
         let* s := try (lib_NewState config os_Hostname) in
         match s with
         | inr err => ret (Some err)
         | inl state => runServer once config state
         end) (set_github github w)
    end.

End Startup.

(* ===================================================================== *)
(** * What the further statements observe *)
(* ===================================================================== *)

(** Both releases have a publication time, and [a] is not older than
    [b]: newest first. *)
Definition newer_first (a b : RepositoryRelease) : Prop :=
  match PublishedAt a, PublishedAt b with
  | Some ta, Some tb => tb ≤ ta
  | _, _ => False
  end.

(** The release has a publication time. *)
Definition dated (r : RepositoryRelease) : Prop := is_Some (PublishedAt r).

(** The sort has two releases to compare, and one of the releases has no
    publication time. *)
Definition compares_undated (l : list RepositoryRelease) : Prop :=
  (2 ≤ length l)%nat ∧ ∃ r, r ∈ l ∧ PublishedAt r = None.

(** A release that [searchReleaseWithPreRelease] may return. *)
Definition published_prerelease (r : RepositoryRelease) : Prop :=
  Draft r = false ∧ Prerelease r = true.

(** The test at the head of [DownloadReleaseAsset]: the answer is in the
    cache. *)
Definition cache_hit (g : GitHub) (tag : string) : bool :=
  negb (String.eqb tag "") && String.eqb tag (lastTag g)
  && negb (String.eqb (lastAssetFile g) "").

(** The command does not appear in the trace. *)
Definition never_run (command : string) (tr : list event) : Prop :=
  Forall (λ e, match e with
               | Exec_ c _ _ => c ≠ command
               | _ => True
               end) tr.

(* ===================================================================== *)
(** * More releases and nodes to run the model on *)
(* ===================================================================== *)

Module Sample.

Definition prerelease (tag : string) (at_ : Z) (assets : list ReleaseAsset)
  : RepositoryRelease :=
  {| TagName := tag; PublishedAt := Some at_; Draft := false; Prerelease := true;
     Assets := assets |}.

Definition draft (tag : string) (at_ : Z) (assets : list ReleaseAsset)
  : RepositoryRelease :=
  {| TagName := tag; PublishedAt := Some at_; Draft := true; Prerelease := true;
     Assets := assets |}.

(** A draft that was never published. *)
Definition unpublished (tag : string) : RepositoryRelease :=
  {| TagName := tag; PublishedAt := None; Draft := true; Prerelease := false;
     Assets := [] |}.

(** A release source that serves the releases in [pages], and every asset
    as [served] says. *)
Definition paged (latest : string + RepositoryRelease)
  (pages : list (list RepositoryRelease)) (served : Z → string + (body + string))
  : Remote :=
  {| latest_release := latest;
     release_pages := inr <$> pages;
     release_by_tag := fun tag =>
       match List.find (fun r => String.eqb (TagName r) tag) (concat pages) with
       | Some r => inr r
       | None => inl "404 Not Found"
       end;
     asset_download := served;
     http_Do := fun url => inl "no route to host" |}.

Definition whole : Z → string + (body + string) :=
  fun id => inr (inl (Body "binary")).

Definition cut : Z → string + (body + string) :=
  fun id => inr (inl (BrokenBody "bin")).

Definition cfg_prerelease : Config := {|
  GitHubToken := GitHubToken Demo.cfg; Repo := Repo Demo.cfg;
  SaveAssetsPath := SaveAssetsPath Demo.cfg;
  GitHubAPIEndpoint := GitHubAPIEndpoint Demo.cfg;
  DeployCommand := DeployCommand Demo.cfg;
  RollbackCommand := RollbackCommand Demo.cfg;
  HealthCheckCommand := HealthCheckCommand Demo.cfg;
  VersionCommand := VersionCommand Demo.cfg;
  HealthCheckInterval := HealthCheckInterval Demo.cfg;
  CanaryRolloutWindow := CanaryRolloutWindow Demo.cfg;
  RolloutWindow := RolloutWindow Demo.cfg;
  RepositryPollingInterval := RepositryPollingInterval Demo.cfg;
  PackageNamePattern := PackageNamePattern Demo.cfg;
  SlackWebhookURL := SlackWebhookURL Demo.cfg;
  SlackChannel := SlackChannel Demo.cfg; Redis_ := Redis_ Demo.cfg;
  LogLevel := LogLevel Demo.cfg; HealthCheckRetries := HealthCheckRetries Demo.cfg;
  HealthCheckTimeout := HealthCheckTimeout Demo.cfg;
  IncludePreRelease := true
|}.

Definition github_of (config : Config) (r : Remote) : GitHub :=
  {| client := r; gh_config := config; owner := "acme"; repo := "app";
     regPackageNamePattern := String.eqb "app.tar.gz";
     lastTag := ""; lastAssetFile := "" |}.

Definition bare (installed : string) : Host Demo.toy :=
  {| fs := ∅; unwritable := ∅;
     node := {| Demo.installed := installed; Demo.health := [] |} |}.

(** [Demo.cfg] with another rollout window. *)
Definition cfg_window (d : Z) : Config := {|
  GitHubToken := GitHubToken Demo.cfg; Repo := Repo Demo.cfg;
  SaveAssetsPath := SaveAssetsPath Demo.cfg;
  GitHubAPIEndpoint := GitHubAPIEndpoint Demo.cfg;
  DeployCommand := DeployCommand Demo.cfg;
  RollbackCommand := RollbackCommand Demo.cfg;
  HealthCheckCommand := HealthCheckCommand Demo.cfg;
  VersionCommand := VersionCommand Demo.cfg;
  HealthCheckInterval := HealthCheckInterval Demo.cfg;
  CanaryRolloutWindow := CanaryRolloutWindow Demo.cfg;
  RolloutWindow := d;
  RepositryPollingInterval := RepositryPollingInterval Demo.cfg;
  PackageNamePattern := PackageNamePattern Demo.cfg;
  SlackWebhookURL := SlackWebhookURL Demo.cfg;
  SlackChannel := SlackChannel Demo.cfg; Redis_ := Redis_ Demo.cfg;
  LogLevel := LogLevel Demo.cfg; HealthCheckRetries := HealthCheckRetries Demo.cfg;
  HealthCheckTimeout := HealthCheckTimeout Demo.cfg;
  IncludePreRelease := IncludePreRelease Demo.cfg
|}.

(** [Demo.cfg] with other settings of the health check. *)
Definition cfg_health (retries interval timeout : Z) : Config := {|
  GitHubToken := GitHubToken Demo.cfg; Repo := Repo Demo.cfg;
  SaveAssetsPath := SaveAssetsPath Demo.cfg;
  GitHubAPIEndpoint := GitHubAPIEndpoint Demo.cfg;
  DeployCommand := DeployCommand Demo.cfg;
  RollbackCommand := RollbackCommand Demo.cfg;
  HealthCheckCommand := HealthCheckCommand Demo.cfg;
  VersionCommand := VersionCommand Demo.cfg;
  HealthCheckInterval := interval;
  CanaryRolloutWindow := CanaryRolloutWindow Demo.cfg;
  RolloutWindow := RolloutWindow Demo.cfg;
  RepositryPollingInterval := RepositryPollingInterval Demo.cfg;
  PackageNamePattern := PackageNamePattern Demo.cfg;
  SlackWebhookURL := SlackWebhookURL Demo.cfg;
  SlackChannel := SlackChannel Demo.cfg; Redis_ := Redis_ Demo.cfg;
  LogLevel := LogLevel Demo.cfg; HealthCheckRetries := retries;
  HealthCheckTimeout := timeout;
  IncludePreRelease := IncludePreRelease Demo.cfg
|}.

End Sample.

(** Whatever the call returns, the store it leaves is related by [R] to the
    store it found. *)
Definition steps {P : Platform} {G A : Type}
  (R : Redis.t → Redis.t → Prop) (m : Go G A) : Prop :=
  ∀ w, R (redis w) (redis (m w).2).

(** A set that is kept at [key] without a time to live is still kept
    there without a time to live, and has lost no member. *)
Definition grows_at (key : string) (db db' : Redis.t) : Prop :=
  ∀ A, Redis.keyspace db !! key = Some (Redis.Entry (Redis.VSet A) None) →
       ∃ A', Redis.keyspace db' !! key = Some (Redis.Entry (Redis.VSet A') None)
             ∧ A ⊆ A'.

(** The names that a node uses in the store. *)
Definition names (s : State) : list string :=
  [me s; canaryReleaseTagKey s; stableReleaseTagKey s; avoidReleaseTagKey s;
   membersTagKey s; rolloutKey s].

(** The call does not run [command], whatever it returns. *)
Definition silent {P : Platform} {G A : Type} (command : string) (m : Go G A) : Prop :=
  ∀ w, invocations command (trace (m w).2) = invocations command (trace w).


(* ===================================================================== *)
(** * Lemmas on the model *)
(* ===================================================================== *)

(** ** Arithmetic and strings *)

Lemma wrap64_small z : - 2 ^ 63 ≤ z < 2 ^ 63 → wrap64 z = z.
Proof.
  intros H. unfold wrap64.
  rewrite Z.mod_small by lia. lia.
Qed.

Lemma count_char_app c a b :
  count_char c (a +:+ b) = (count_char c a + count_char c b)%nat.
Proof.
  induction a as [|d a IH]; [done|].
  change (String d a +:+ b) with (String d (a +:+ b)).
  cbn [count_char]. rewrite IH. lia.
Qed.

Lemma eqb_false_ne (a b : string) : String.eqb a b = false → a ≠ b.
Proof. apply String.eqb_neq. Qed.

(** ** The keys of a state made by [NewState] *)

Section Keys.
Variables (cfg : Config) (hostname : string).
Let s := NewState cfg hostname.

Lemma me_not_suffixed (suffix : string) prefix :
  count_char ":"%char suffix = 0%nat →
  hostname +:+ ":" +:+ prefix ≠ prefix +:+ suffix.
Proof.
  intros Hs E. apply (f_equal (count_char ":"%char)) in E.
  rewrite !count_char_app, Hs in E. cbn in E. lia.
Qed.

Lemma NewState_me_stable : me s ≠ stableReleaseTagKey s.
Proof. by apply me_not_suffixed. Qed.

Lemma NewState_me_canary : me s ≠ canaryReleaseTagKey s.
Proof. by apply me_not_suffixed. Qed.

Lemma NewState_me_avoid : me s ≠ avoidReleaseTagKey s.
Proof. by apply me_not_suffixed. Qed.

Lemma NewState_me_members : me s ≠ membersTagKey s.
Proof. by apply me_not_suffixed. Qed.

Lemma NewState_members_stable : membersTagKey s ≠ stableReleaseTagKey s.
Proof. intros E. apply String.app_inj in E. discriminate. Qed.

Lemma NewState_members_canary : membersTagKey s ≠ canaryReleaseTagKey s.
Proof. intros E. apply String.app_inj in E. discriminate. Qed.

Lemma NewState_members_avoid : membersTagKey s ≠ avoidReleaseTagKey s.
Proof. intros E. apply String.app_inj in E. discriminate. Qed.

Lemma NewState_canary_stable : canaryReleaseTagKey s ≠ stableReleaseTagKey s.
Proof. intros E. apply String.app_inj in E. discriminate. Qed.

Lemma NewState_avoid_stable : avoidReleaseTagKey s ≠ stableReleaseTagKey s.
Proof. intros E. apply String.app_inj in E. discriminate. Qed.

End Keys.

(** ** The store *)

Lemma with_faults_same db : Redis.with_faults (Redis.faults db) db = db.
Proof. by destruct db. Qed.

Lemma roundtrip_cases {A} (cmd : Redis.t → Redis.reply A * Redis.t) db :
  (next_fault db = true
   ∧ Redis.roundtrip cmd db = (Redis.Failure Redis.unreachable, after_roundtrip db))
  ∨ (next_fault db = false
     ∧ Redis.roundtrip cmd db = cmd (after_roundtrip db)).
Proof.
  unfold Redis.roundtrip, next_fault, after_roundtrip.
  destruct (Redis.faults db) as [|[] fs] eqn:E; simpl; auto.
  right. split; [done|]. by rewrite <- E, with_faults_same.
Qed.

Lemma find_same_elsewhere keys db db' k :
  same_elsewhere keys db db' → k ∉ keys → Redis.find k db' = Redis.find k db.
Proof. intros [Hn Hk] Hnot. unfold Redis.find. by rewrite Hn, Hk. Qed.

Lemma same_elsewhere_refl keys db : same_elsewhere keys db db.
Proof. by split. Qed.

Lemma same_elsewhere_trans keys db1 db2 db3 :
  same_elsewhere keys db1 db2 → same_elsewhere keys db2 db3 →
  same_elsewhere keys db1 db3.
Proof.
  intros [N1 K1] [N2 K2]. split; [congruence|].
  intros k Hk. rewrite K2, K1; auto.
Qed.

Lemma same_elsewhere_mono keys keys' db db' :
  keys ⊆ keys' → same_elsewhere keys db db' → same_elsewhere keys' db db'.
Proof.
  intros Hsub [N K]. split; [done|]. intros k Hk. apply K. set_solver.
Qed.

Lemma same_elsewhere_after keys db : same_elsewhere keys db (after_roundtrip db).
Proof. by split. Qed.

Lemma same_elsewhere_insert key e db keys :
  key ∈ keys → same_elsewhere keys db (Redis.with_keyspace <[key := e]> db).
Proof.
  intros Hin. split; [done|]. intros k Hk. cbn.
  apply lookup_insert_ne. intros ->. done.
Qed.

Lemma same_elsewhere_delete key db keys :
  key ∈ keys → same_elsewhere keys db (Redis.with_keyspace (delete key) db).
Proof.
  intros Hin. split; [done|]. intros k Hk. cbn.
  apply lookup_delete_ne. intros ->. done.
Qed.

Lemma roundtrip_same_elsewhere {A} keys (c : Redis.t → Redis.reply A * Redis.t) :
  (∀ db, same_elsewhere keys db (c db).2) →
  ∀ db, same_elsewhere keys db (Redis.roundtrip c db).2.
Proof.
  intros Hc db.
  destruct (roundtrip_cases c db) as [[_ E]|[_ E]]; rewrite E.
  - apply same_elsewhere_after.
  - eapply same_elsewhere_trans; [apply same_elsewhere_after|apply Hc].
Qed.

Lemma srv_setnx_elsewhere key val db :
  same_elsewhere [key] db (Redis.srv_setnx key val db).2.
Proof.
  unfold Redis.srv_setnx. destruct (Redis.find key db); cbn.
  - apply same_elsewhere_refl.
  - apply same_elsewhere_insert. set_solver.
Qed.

Lemma srv_expire_elsewhere key ttl db :
  same_elsewhere [key] db (Redis.srv_expire key ttl db).2.
Proof.
  unfold Redis.srv_expire. destruct (Redis.find key db); cbn.
  - apply same_elsewhere_insert. set_solver.
  - apply same_elsewhere_refl.
Qed.

Lemma srv_del_elsewhere key db :
  same_elsewhere [key] db (Redis.srv_del key db).2.
Proof. apply same_elsewhere_delete. set_solver. Qed.

Lemma srv_set_elsewhere key val db :
  same_elsewhere [key] db (Redis.srv_set key val db).2.
Proof. apply same_elsewhere_insert. set_solver. Qed.

Lemma srv_setex_elsewhere key val ttl db :
  same_elsewhere [key] db (Redis.srv_setex key val ttl db).2.
Proof.
  unfold Redis.srv_setex. destruct (ttl <=? 0); cbn.
  - apply same_elsewhere_refl.
  - apply same_elsewhere_insert. set_solver.
Qed.

Lemma srv_get_same key db : (Redis.srv_get key db).2 = db.
Proof.
  unfold Redis.srv_get. by destruct (Redis.find key db) as [[[] ?]|].
Qed.

Lemma srv_smembers_same key db : (Redis.srv_smembers key db).2 = db.
Proof.
  unfold Redis.srv_smembers. by destruct (Redis.find key db) as [[[] ?]|].
Qed.

Lemma srv_sadd_elsewhere key members db :
  same_elsewhere [key] db (Redis.srv_sadd key members db).2.
Proof.
  unfold Redis.srv_sadd. destruct members; [apply same_elsewhere_refl|].
  destruct (Redis.find key db) as [[[] ?]|]; cbn;
    first [apply same_elsewhere_refl | apply same_elsewhere_insert; set_solver].
Qed.

Lemma srv_srem_elsewhere key members db :
  same_elsewhere [key] db (Redis.srv_srem key members db).2.
Proof.
  unfold Redis.srv_srem. destruct members; [apply same_elsewhere_refl|].
  destruct (Redis.find key db) as [[[] ?]|]; cbn; try apply same_elsewhere_refl.
  case_decide.
  - apply same_elsewhere_delete. set_solver.
  - apply same_elsewhere_insert. set_solver.
Qed.

Lemma drop_reply_elsewhere {A} keys (c : Redis.t → Redis.reply A * Redis.t) db :
  same_elsewhere keys db (c db).2 →
  same_elsewhere keys db (Redis.drop_reply c db).2.
Proof. unfold Redis.drop_reply. by destruct (c db) as [[] ?]. Qed.

Lemma run_queue_elsewhere keys (q : list Redis.queued) :
  Forall (λ c : Redis.queued, ∀ db, same_elsewhere keys db (c db).2) q →
  ∀ db, same_elsewhere keys db (Redis.run_queue q db).2.
Proof.
  induction 1 as [|c q Hc _ IH]; intros db; cbn [Redis.run_queue].
  - apply same_elsewhere_refl.
  - specialize (Hc db). destruct (c db) as [e db1].
    specialize (IH db1). destruct (Redis.run_queue q db1) as [e' db2].
    cbn in *. eapply same_elsewhere_trans; eauto.
Qed.

Lemma Exec_elsewhere keys (q : list Redis.queued) :
  Forall (λ c : Redis.queued, ∀ db, same_elsewhere keys db (c db).2) q →
  ∀ db, same_elsewhere keys db (Redis.Exec q db).2.
Proof.
  intros Hq. unfold Redis.Exec. apply roundtrip_same_elsewhere. intros db.
  pose proof (run_queue_elsewhere keys q Hq db) as H.
  by destruct (Redis.run_queue q db) as [[] ?].
Qed.

(** ** The monad *)

Section Monad.
Context {P : Platform} {G : Type}.

Lemma bind_Ok_inv {A B} (m : Go G A) (k : A → Go G B) w b w' :
  bind m k w = (Ok b, w') → ∃ a w1, m w = (Ok a, w1) ∧ k a w1 = (Ok b, w').
Proof.
  unfold bind. destruct (m w) as [[a|e|h] w1]; intros H; try discriminate.
  eauto.
Qed.

Lemma try_Ok_inv {A} (m : Go G A) w x w' :
  try m w = (Ok x, w') →
  (∃ a, m w = (Ok a, w') ∧ x = inl a) ∨ (∃ e, m w = (Err e, w') ∧ x = inr e).
Proof.
  unfold try. destruct (m w) as [[a|e|h] w1]; intros H; simplify_eq; eauto.
Qed.

Lemma frames_ret {A} keys (a : A) : frames (G:=G) keys (ret a).
Proof. intros w. apply same_elsewhere_refl. Qed.

Lemma frames_fail {A} keys e : frames (G:=G) (A:=A) keys (fail e).
Proof. intros w. apply same_elsewhere_refl. Qed.

Lemma frames_stop {A} keys h : frames (G:=G) (A:=A) keys (stop h).
Proof. intros w. apply same_elsewhere_refl. Qed.

Lemma frames_emit keys e : frames (G:=G) keys (emit e).
Proof. intros w. apply same_elsewhere_refl. Qed.

Lemma frames_slog keys l m a : frames (G:=G) keys (slog l m a).
Proof. apply frames_emit. Qed.

Lemma frames_tick keys d : frames (G:=G) keys (tick d).
Proof. intros w. apply same_elsewhere_refl. Qed.

Lemma frames_rand_Int63n keys n : frames (G:=G) keys (rand_Int63n n).
Proof.
  intros w. unfold rand_Int63n.
  destruct (n <=? 0), (rand w); apply same_elsewhere_refl.
Qed.

Lemma frames_time_NewTicker keys d : frames (G:=G) keys (time_NewTicker d).
Proof.
  unfold time_NewTicker. destruct (d <=? 0); [apply frames_stop|apply frames_ret].
Qed.

Lemma frames_run_sh keys c env t : frames (G:=G) keys (run_sh c env t).
Proof.
  intros w. unfold run_sh. destruct (sh c env t (host w)).
  apply same_elsewhere_refl.
Qed.

Lemma frames_bind {A B} keys (m : Go G A) (k : A → Go G B) :
  frames keys m → (∀ a, frames keys (k a)) → frames keys (bind m k).
Proof.
  intros Hm Hk w. unfold bind. specialize (Hm w).
  destruct (m w) as [[a|e|h] w1]; cbn in *; try done.
  eapply same_elsewhere_trans; [exact Hm|apply Hk].
Qed.

Lemma frames_try {A} keys (m : Go G A) : frames keys m → frames keys (try m).
Proof.
  intros Hm w. unfold try. specialize (Hm w).
  by destruct (m w) as [[a|e|h] w1].
Qed.

Lemma frames_mono {A} keys keys' (m : Go G A) :
  keys ⊆ keys' → frames keys m → frames keys' m.
Proof. intros Hs Hm w. eapply same_elsewhere_mono; eauto. Qed.

Lemma frames_store_Result {A} keys (c : Redis.t → Redis.reply A * Redis.t) :
  (∀ db, same_elsewhere keys db (c db).2) → frames (G:=G) keys (store_Result c).
Proof.
  intros Hc w. unfold store_Result, store. specialize (Hc (redis w)).
  by destruct (c (redis w)) as [[] ?].
Qed.

Lemma store_roundtrip {A} (c : Redis.t → Redis.reply A * Redis.t) (w : World G) :
  store (Redis.roundtrip c) w
  = if next_fault (redis w)
    then (Redis.Failure Redis.unreachable, set_redis (after_roundtrip (redis w)) w)
    else let '(r, db) := c (after_roundtrip (redis w)) in (r, set_redis db w).
Proof.
  unfold store.
  destruct (roundtrip_cases c (redis w)) as [[F E]|[F E]]; rewrite E, F; done.
Qed.

End Monad.

Create HintDb frames.
#[export] Hint Resolve frames_ret frames_fail frames_stop frames_emit frames_slog
  frames_tick frames_rand_Int63n frames_time_NewTicker frames_run_sh
  frames_try : frames.

(** Split a sequence of calls into its calls. *)
Ltac frames_step :=
  lazymatch goal with
  | |- frames _ (bind _ _) => apply frames_bind; [|intros ?]
  | |- frames _ (match ?x with _ => _ end) => destruct x
  | |- frames _ (let '(_, _) := ?x in _) => destruct x
  | |- frames _ (if ?b then _ else _) => destruct b
  | |- frames _ (try _) => apply frames_try
  | |- _ => solve [eauto with frames]
  end.
Ltac frames_go := repeat frames_step.

Section StateFrames.
Context {P : Platform} {G : Type}.

Lemma frames_GetLastInstalledTag keys s : frames (G:=G) keys (GetLastInstalledTag s).
Proof. unfold GetLastInstalledTag. frames_go. Qed.

Lemma frames_getLock s key tag window : frames (G:=G) [key] (getLock s key tag window).
Proof.
  unfold getLock. frames_go.
  - apply frames_store_Result, roundtrip_same_elsewhere. intros db.
    apply srv_setnx_elsewhere.
  - apply frames_store_Result, roundtrip_same_elsewhere. intros db.
    apply srv_expire_elsewhere.
Qed.

Lemma frames_getRelease keys s key : frames (G:=G) keys (getRelease s key).
Proof.
  intros w. unfold getRelease, Redis.Get. rewrite store_roundtrip.
  destruct (next_fault (redis w)); [apply same_elsewhere_after|].
  pose proof (srv_get_same key (after_roundtrip (redis w))) as E.
  destruct (Redis.srv_get key (after_roundtrip (redis w))) as [[] db];
    cbn in *; subst; apply same_elsewhere_after.
Qed.

Lemma frames_getReleases keys s key : frames (G:=G) keys (getReleases s key).
Proof.
  unfold getReleases. apply frames_store_Result, roundtrip_same_elsewhere.
  intros db. rewrite srv_smembers_same. apply same_elsewhere_refl.
Qed.

Lemma frames_SaveMemberState s :
  frames (G:=G) [membersTagKey s; me s] (SaveMemberState s).
Proof.
  unfold SaveMemberState. frames_go.
  { apply frames_GetLastInstalledTag. }
  apply frames_store_Result, Exec_elsewhere.
  constructor; [|constructor; [|constructor]];
    intros db; apply drop_reply_elsewhere.
  - eapply same_elsewhere_mono; [|apply srv_sadd_elsewhere].
    intros k Hk. apply list_elem_of_singleton in Hk as ->. apply list_elem_of_here.
  - eapply same_elsewhere_mono; [|apply srv_setex_elsewhere].
    intros k Hk. apply list_elem_of_singleton in Hk as ->.
    apply list_elem_of_further, list_elem_of_here.
Qed.

Lemma frames_UnlockCanaryRelease s :
  frames (G:=G) [canaryReleaseTagKey s] (UnlockCanaryRelease s).
Proof.
  unfold UnlockCanaryRelease. frames_go.
  apply frames_store_Result, roundtrip_same_elsewhere. intros db.
  apply srv_del_elsewhere.
Qed.

Lemma frames_SaveStableReleaseTag s tag :
  frames (G:=G) [stableReleaseTagKey s] (SaveStableReleaseTag s tag).
Proof.
  unfold SaveStableReleaseTag, saveRelease.
  apply frames_store_Result, roundtrip_same_elsewhere. intros db.
  apply srv_set_elsewhere.
Qed.

Lemma frames_SaveAvoidReleaseTag s tag :
  frames (G:=G) [avoidReleaseTagKey s] (SaveAvoidReleaseTag s tag).
Proof.
  unfold SaveAvoidReleaseTag, saveReleases. frames_go.
  apply frames_store_Result, roundtrip_same_elsewhere. intros db.
  apply srv_sadd_elsewhere.
Qed.

Lemma frames_CurrentStableTag keys s : frames (G:=G) keys (CurrentStableTag s).
Proof. apply frames_getRelease. Qed.

Lemma frames_RollbackTag keys s before : frames (G:=G) keys (RollbackTag s before).
Proof.
  unfold RollbackTag. frames_go. apply frames_CurrentStableTag.
Qed.

Lemma frames_CanInstallTag keys s tag : frames (G:=G) keys (CanInstallTag s tag).
Proof.
  unfold CanInstallTag. frames_go.
  - apply frames_GetLastInstalledTag.
  - apply frames_getReleases.
Qed.

End StateFrames.

#[export] Hint Resolve frames_GetLastInstalledTag frames_getRelease frames_getReleases
  frames_CurrentStableTag frames_RollbackTag frames_CanInstallTag : frames.

(** ** [getLock], case by case *)

Section LockCases.
Context {P : Platform} {G : Type}.

Lemma getLock_eq (s : State) key tag window (w : World G) :
  let db := redis w in
  getLock s key tag window w
  = if next_fault db
    then (Err (ErrorString Redis.unreachable), set_redis (after_roundtrip db) w)
    else match Redis.find key db with
         | Some _ => (Ok false, set_redis (after_roundtrip db) w)
         | None =>
             let db1 := Redis.with_keyspace <[key := lock_entry tag None]>
                          (after_roundtrip db) in
             if next_fault db1
             then (Err (ErrorString Redis.unreachable),
                   set_redis (after_roundtrip db1) w)
             else (Ok true,
                   set_redis
                     (Redis.with_keyspace
                        <[key := lock_entry tag
                                   (Some (Redis.now db
                                          + Redis.formatSec window * second))]>
                        (after_roundtrip db1)) w)
         end.
Proof.
  intros db. subst db.
  unfold getLock, bind, store_Result, Redis.SetNX, Redis.Expire.
  rewrite store_roundtrip.
  destruct (next_fault (redis w)); [done|].
  unfold Redis.srv_setnx.
  change (Redis.find key (after_roundtrip (redis w))) with (Redis.find key (redis w)).
  destruct (Redis.find key (redis w)); [done|].
  rewrite store_roundtrip. cbn [redis set_redis].
  unfold lock_entry.
  match goal with |- context [next_fault ?d] => destruct (next_fault d) end; [done|].
  unfold Redis.srv_expire.
  unfold Redis.find at 1. cbn. rewrite lookup_insert_eq. cbn.
  done.
Qed.

End LockCases.

(** ** Traces only grow *)

Section Grows.
Context {P : Platform} {G : Type} {GH : GitHuber G}.

Lemma grows_ret {A} (a : A) : grows (G:=G) (ret a).
Proof. intros w. by exists []. Qed.

Lemma grows_fail {A} e : grows (G:=G) (A:=A) (fail e).
Proof. intros w. by exists []. Qed.

Lemma grows_stop {A} h : grows (G:=G) (A:=A) (stop h).
Proof. intros w. by exists []. Qed.

Lemma grows_emit e : grows (G:=G) (emit e).
Proof. intros w. by exists [e]. Qed.

Lemma grows_slog l m a : grows (G:=G) (slog l m a).
Proof. apply grows_emit. Qed.

Lemma grows_tick d : grows (G:=G) (tick d).
Proof. intros w. by exists []. Qed.

Lemma grows_rand_Int63n n : grows (G:=G) (rand_Int63n n).
Proof.
  intros w. unfold rand_Int63n. exists [].
  by destruct (n <=? 0), (rand w).
Qed.

Lemma grows_time_NewTicker d : grows (G:=G) (time_NewTicker d).
Proof.
  unfold time_NewTicker. destruct (d <=? 0); [apply grows_stop|apply grows_ret].
Qed.

Lemma grows_run_sh c env t : grows (G:=G) (run_sh c env t).
Proof.
  intros w. unfold run_sh. destruct (sh c env t (host w)).
  by exists [Exec_ c env t].
Qed.

Lemma grows_bind {A B} (m : Go G A) (k : A → Go G B) :
  grows m → (∀ a, grows (k a)) → grows (bind m k).
Proof.
  intros Hm Hk w. unfold bind. destruct (Hm w) as [evs1 E1].
  destruct (m w) as [[a|e|h] w1]; cbn in *; eauto.
  destruct (Hk a w1) as [evs2 E2]. exists (evs2 ++ evs1).
  by rewrite E2, E1, app_assoc.
Qed.

Lemma grows_try {A} (m : Go G A) : grows m → grows (try m).
Proof.
  intros Hm w. unfold try. destruct (Hm w) as [evs E].
  destruct (m w) as [[a|e|h] w1]; eauto.
Qed.

Lemma grows_store_Result {A} (c : Redis.t → Redis.reply A * Redis.t) :
  grows (G:=G) (store_Result c).
Proof.
  intros w. unfold store_Result, store. exists [].
  by destruct (c (redis w)) as [[] ?].
Qed.

Lemma grows_getRelease s key : grows (G:=G) (getRelease s key).
Proof.
  intros w. unfold getRelease, store. exists [].
  by destruct (Redis.Get key (redis w)) as [[] ?].
Qed.

Lemma grows_github_DownloadReleaseAsset tag :
  grows (G:=G) (github_DownloadReleaseAsset tag).
Proof.
  intros w. unfold github_DownloadReleaseAsset.
  destruct (DownloadReleaseAsset tag (github w) (host w)) as [[[r g] h] evs].
  by exists evs.
Qed.

End Grows.

Create HintDb grows.
#[export] Hint Resolve grows_ret grows_fail grows_stop grows_emit grows_slog
  grows_tick grows_rand_Int63n grows_time_NewTicker grows_run_sh
  grows_store_Result grows_getRelease grows_github_DownloadReleaseAsset : grows.

Ltac grows_step :=
  lazymatch goal with
  | |- grows (bind _ _) => apply grows_bind; [|intros ?]
  | |- grows (match ?x with _ => _ end) => destruct x
  | |- grows (let '(_, _) := ?x in _) => destruct x
  | |- grows (if ?b then _ else _) => destruct b
  | |- grows (try _) => apply grows_try
  | |- _ => solve [eauto with grows]
  end.
Ltac grows_go := repeat grows_step.

Section GrowsProgram.
Context {P : Platform} {G : Type} {GH : GitHuber G}.

Lemma grows_GetLastInstalledTag s : grows (G:=G) (GetLastInstalledTag s).
Proof. unfold GetLastInstalledTag. grows_go. Qed.

Lemma grows_SaveMemberState s : grows (G:=G) (SaveMemberState s).
Proof. unfold SaveMemberState. grows_go. apply grows_GetLastInstalledTag. Qed.

Lemma grows_SaveStableReleaseTag s tag : grows (G:=G) (SaveStableReleaseTag s tag).
Proof. apply grows_store_Result. Qed.

Lemma grows_SaveAvoidReleaseTag s tag : grows (G:=G) (SaveAvoidReleaseTag s tag).
Proof. unfold SaveAvoidReleaseTag, saveReleases. grows_go. Qed.

Lemma grows_UnlockCanaryRelease s : grows (G:=G) (UnlockCanaryRelease s).
Proof. unfold UnlockCanaryRelease. grows_go. Qed.

Lemma grows_RollbackTag s before : grows (G:=G) (RollbackTag s before).
Proof. unfold RollbackTag, CurrentStableTag. grows_go. Qed.

Lemma grows_executeCommand c tag file t : grows (G:=G) (executeCommand c tag file t).
Proof. unfold executeCommand. grows_go. Qed.

Lemma grows_deploy c tag s : grows (G:=G) (deploy c tag s).
Proof.
  unfold deploy. grows_go.
  - apply grows_GetLastInstalledTag.
  - apply grows_executeCommand.
Qed.

Lemma grows_health_attempt config tag file st :
  grows (G:=G) (health_attempt config tag file st).
Proof. unfold health_attempt. grows_go. apply grows_executeCommand. Qed.

Lemma grows_delayType n delay : grows (G:=G) (delayType n delay).
Proof. unfold delayType. grows_go. Qed.

Lemma grows_retry_attempts {S} left n (f : S → Go G (S * option error))
  deadline delay st errorLog :
  (∀ st, grows (f st)) →
  grows (retry_attempts left n f deadline delay st errorLog).
Proof.
  intros Hf. revert n st errorLog.
  induction left as [|left' IH]; intros n st errorLog; [apply grows_ret|].
  cbn [retry_attempts]. apply grows_bind; [apply Hf|].
  intros [st' [e|]]; [|apply grows_ret].
  destruct left' as [|left'']; [apply grows_ret|].
  apply grows_bind; [apply grows_delayType|]. intros delayTime.
  intros w. cbn beta. destruct (deadline <=? clock w + delayTime);
    match goal with
    | |- ∃ evs, trace (?m w).2 = _ =>
        assert (grows m) as Hm; [grows_go; apply IH|apply Hm]
    end.
Qed.

Lemma grows_health_burst config tag file :
  grows (G:=G) (health_burst config tag file).
Proof.
  intros w. unfold health_burst, retry_Do.
  destruct (_ <=? clock w); [by exists []|].
  apply grows_retry_attempts. intros st. apply grows_health_attempt.
Qed.

Lemma grows_health_watch (f : Go G (string * option error)) ticks :
  grows f → grows (health_watch f ticks).
Proof.
  intros Hf. induction ticks as [|t ticks IH]; [apply grows_stop|].
  destruct t; cbn [health_watch]; try apply grows_stop.
  - intros w. destruct (Hf (set_sched ticks w)) as [evs E].
    destruct (f (set_sched ticks w)) as [[[out [e|]]|e|h] w1]; cbn in *; eauto.
    destruct (IH w1) as [evs' E']. exists (evs' ++ evs).
    rewrite E', E. apply app_assoc.
  - intros w. by exists [].
Qed.

Lemma grows_runHealthCheck config tag file :
  grows (G:=G) (runHealthCheck config tag file).
Proof.
  unfold runHealthCheck.
  apply grows_bind; [apply grows_time_NewTicker|]. intros _.
  apply grows_bind; [apply grows_time_NewTicker|]. intros _.
  apply grows_bind; [apply grows_health_burst|].
  intros [out [e|]]; [apply grows_ret|].
  intros w. apply grows_health_watch, grows_health_burst.
Qed.

Lemma grows_In {A} (m : Go G A) e w :
  grows m → e ∈ trace w → e ∈ trace (m w).2.
Proof.
  intros Hm Hin. destruct (Hm w) as [evs ->]. apply elem_of_app. by right.
Qed.

End GrowsProgram.

#[export] Hint Resolve grows_GetLastInstalledTag grows_SaveMemberState
  grows_SaveStableReleaseTag grows_SaveAvoidReleaseTag grows_UnlockCanaryRelease
  grows_RollbackTag grows_executeCommand grows_deploy grows_runHealthCheck : grows.

(** ** Steps of the handlers *)

Section Steps.
Context {P : Platform} {G : Type} {GH : GitHuber G}.

Lemma SaveMemberState_keeps_stable cfg hostname (w : World G) :
  let s := NewState cfg hostname in
  Redis.find (stableReleaseTagKey s) (redis (SaveMemberState s w).2)
  = Redis.find (stableReleaseTagKey s) (redis w).
Proof.
  intros s. eapply find_same_elsewhere; [apply frames_SaveMemberState|].
  intros Hin. apply list_elem_of_In in Hin. cbn in Hin.
  destruct Hin as [E|[E|[]]].
  - by apply (NewState_members_stable cfg hostname).
  - by apply (NewState_me_stable cfg hostname).
Qed.

Lemma bind_emit {B} e (k : unit → Go G B) (w : World G) :
  bind (emit e) k w
  = k tt {| redis := redis w; host := host w; github := github w;
            trace := e :: trace w; clock := clock w; sched := sched w;
            rand := rand w |}.
Proof. reflexivity. Qed.

Lemma bind_slog {B} l m a (k : unit → Go G B) (w : World G) :
  bind (slog l m a) k w
  = k tt {| redis := redis w; host := host w; github := github w;
            trace := Slog l m a :: trace w; clock := clock w; sched := sched w;
            rand := rand w |}.
Proof. reflexivity. Qed.

Lemma SaveStableReleaseTag_Ok s tag (w w' : World G) :
  SaveStableReleaseTag s tag w = (Ok tt, w') →
  w' = set_redis
         (Redis.with_keyspace <[stableReleaseTagKey s := lock_entry tag None]>
            (after_roundtrip (redis w))) w.
Proof.
  unfold SaveStableReleaseTag, saveRelease, store_Result, Redis.Set_.
  rewrite store_roundtrip. destruct (next_fault (redis w)); [done|].
  cbn. by intros [= <-].
Qed.

Lemma UnlockCanaryRelease_Ok s (w w' : World G) :
  UnlockCanaryRelease s w = (Ok tt, w') →
  w' = set_redis
         (Redis.with_keyspace (delete (canaryReleaseTagKey s))
            (after_roundtrip (redis w))) w.
Proof.
  unfold UnlockCanaryRelease, bind, store_Result, Redis.Del.
  rewrite store_roundtrip. destruct (next_fault (redis w)); [done|].
  cbn. by intros [= <-].
Qed.

(** [deploy] returns the tag and the file that it gave to the command. *)
Lemma deploy_Ok cmd target s (w w' : World G) tag file :
  deploy cmd target s w = (Ok (tag, file), w') →
  Exec_ cmd (release_env tag file) (5 * minute) ∈ trace w'.
Proof.
  unfold deploy. intros H.
  apply bind_Ok_inv in H as (d & w1 & Hd & H).
  destruct d as [[tag1 file1]|err]; [|done].
  apply bind_Ok_inv in H as (v & w2 & Hv & H).
  destruct v as [cur|err]; [|done].
  rewrite bind_slog in H.
  apply bind_Ok_inv in H as ([out err] & w3 & He & H).
  destruct err as [e|]; [done|]. injection H as -> -> ->.
  unfold executeCommand in He.
  apply bind_Ok_inv in He as (c & w4 & Hc & He).
  unfold run_sh in Hc. destruct (sh _ _ _ _) as [c' h'] in Hc.
  injection Hc as -> <-.
  destruct (failure c); [done|].
  rewrite bind_slog in He. injection He as _ <-. cbn.
  apply list_elem_of_In. right. by left.
Qed.

Lemma deploy_error cmd target s (w w' : World G) e :
  deploy cmd target s w = (Err e, w') → ∃ msg, e = ErrorString msg.
Proof.
  unfold deploy, bind, try. intros H.
  destruct (github_DownloadReleaseAsset target w) as [[[tag file]|err|hl] w1];
    [|by injection H as <-; eauto|done].
  destruct (GetLastInstalledTag s w1) as [[cur|err|hl] w2];
    [|by injection H as <-; eauto|done].
  unfold slog, emit in H.
  destruct (executeCommand _ _ _ _ _) as [[[out [err|]]|err|hl] w3] eqn:Ex in H;
    try done; try (by injection H as <-; eauto).
  exfalso. revert Ex. unfold executeCommand, bind, run_sh. cbn.
  destruct (sh _ _ _ _) as [c h']. by destruct (failure c).
Qed.

Lemma frames_github_DownloadReleaseAsset keys tag :
  frames (G:=G) keys (github_DownloadReleaseAsset tag).
Proof.
  intros w. unfold github_DownloadReleaseAsset.
  destruct (DownloadReleaseAsset tag (github w) (host w)) as [[[r g] h] evs].
  apply same_elsewhere_refl.
Qed.

Lemma frames_executeCommand keys c tag file t :
  frames (G:=G) keys (executeCommand c tag file t).
Proof. unfold executeCommand. frames_go. Qed.

Lemma frames_deploy keys c tag s : frames (G:=G) keys (deploy c tag s).
Proof.
  unfold deploy. frames_go.
  - apply frames_github_DownloadReleaseAsset.
  - apply frames_executeCommand.
Qed.

Lemma frames_handleRollback {A} keys target config s :
  frames (G:=G) (A:=A) keys (handleRollback target config s).
Proof. unfold handleRollback. frames_go. apply frames_deploy. Qed.

End Steps.


(* ===================================================================== *)
(** * Locks *)
(* ===================================================================== *)

Lemma formatSec_positive d : 0 < d → 1 ≤ Redis.formatSec d.
Proof.
  intros Hd. unfold Redis.formatSec.
  destruct (0 <? d) eqn:E0; [|apply Z.ltb_ge in E0; lia].
  destruct (d <? second) eqn:E1; cbn [andb]; [lia|].
  apply Z.ltb_ge in E1. apply Z.quot_le_lower_bound; unfold second in *; lia.
Qed.

Lemma formatSec_whole n : 0 ≤ n → Redis.formatSec (n * second) = n.
Proof.
  intros Hn. unfold Redis.formatSec.
  destruct (Z.eq_dec n 0) as [->|Hne]; [done|].
  assert (E : (n * second <? second) = false)
    by (apply Z.ltb_ge; unfold second; lia).
  rewrite E, andb_false_r. apply Z.quot_mul. done.
Qed.

Section Locks.
Context {P : Platform} {G : Type}.

Local Ltac lock_case :=
  split_and!; try done; try (intros; split; intros; destruct_and?; done);
  try (split; [intros [E [x Hx]]; congruence|intros [? ?]; done]);
  try (intros ? _ [E [x Hx]]; congruence).

Lemma getLock_acquires (s : State) key tag window (w : World G) :
  0 < window → acquires key tag window (getLock s key tag window) w.
Proof.
  intros Hpos. pose proof (formatSec_positive window Hpos) as Hsec.
  unfold acquires. rewrite getLock_eq. cbv zeta.
  destruct (next_fault (redis w)) eqn:F1.
  { cbn. unfold lock_created. cbn.
    change (Redis.find key (after_roundtrip (redis w)))
      with (Redis.find key (redis w)).
    lock_case. }
  destruct (Redis.find key (redis w)) as [e|] eqn:Hfind.
  { cbn. unfold lock_created.
    change (Redis.find key (after_roundtrip (redis w)))
      with (Redis.find key (redis w)).
    rewrite Hfind. lock_case. all: try (split; intros; destruct_and?; eauto; done).
    intros b [= <-]. split; [done|]. by intros [? _]. }
  match goal with |- context [next_fault ?d] => destruct (next_fault d) eqn:F2 end.
  - assert (F2' : next_fault (after_roundtrip (redis w)) = true) by exact F2.
    cbn [fst snd redis set_redis]. unfold lock_created.
    rewrite Hfind. unfold Redis.find, Redis.advance.
    cbn [Redis.keyspace Redis.now Redis.with_keyspace Redis.with_faults after_roundtrip].
    rewrite lookup_insert_eq. cbn [Redis.alive lock_entry Redis.e_deadline].
    lock_case. all: try (split; intros; destruct_and?; eauto; done).
    all: try (split; intros; destruct_and?; congruence).
    intros k Hk. by rewrite lookup_insert_ne.
  - assert (F2' : next_fault (after_roundtrip (redis w)) = false) by exact F2.
    cbn [fst snd redis set_redis]. unfold lock_created.
    rewrite Hfind. unfold Redis.find, Redis.advance.
    cbn [Redis.keyspace Redis.now Redis.with_keyspace Redis.with_faults after_roundtrip].
    rewrite lookup_insert_eq.
    assert (Hlive : Redis.alive (Redis.now (redis w))
                      (lock_entry tag
                         (Some (Redis.now (redis w)
                                + Redis.formatSec window * second))) = true)
      by (cbn; apply Z.ltb_lt; unfold second; lia).
    rewrite Hlive.
    lock_case. all: try (split; intros; destruct_and?; eauto; done).
    all: try (split; intros; destruct_and?; congruence).
    + intros k Hk. by rewrite !lookup_insert_ne.
    + intros b [= <-]. split; [|done]. intros _. split; [done|]. by eexists.
Qed.

(** C5, amended. The canary lock is taken by [getLock] on the canary key
    with a time to live of twice the canary rollout window, the rollout lock
    by [getLock] on the rollout key with a time to live of the rollout
    window, and [getLock] with any positive time to live behaves as
    [acquires] says: the key is set to the tag only if it is absent; a call
    that returns true has set its expiry to the whole seconds of the time to
    live, one second when it is less; the call returns true exactly when the
    key was absent and both round trips went through, and it has created the
    lock exactly when the key was absent and the first went through; when the
    second round trip, which sets the expiry, fails, the call returns the
    error and the lock stays set, without expiry. *)
Theorem lock_acquisition (s : State) (tag : string) (w : World G) :
  0 < CanaryRolloutWindow (config s) < 2 ^ 62 →
  0 < RolloutWindow (config s) →
  acquires (canaryReleaseTagKey s) tag (2 * CanaryRolloutWindow (config s))
    (TryCanaryReleaseLock s tag) w
  ∧ acquires (rolloutKey s) tag (1 * RolloutWindow (config s))
      (TryRolloutLock s tag) w
  ∧ ∀ key ttl, 0 < ttl → acquires key tag ttl (getLock s key tag ttl) w.
Proof.
  intros Hc Hr. split; [|split].
  - unfold TryCanaryReleaseLock, dur_mul.
    rewrite wrap64_small by lia.
    replace (CanaryRolloutWindow (config s) * 2)
      with (2 * CanaryRolloutWindow (config s)) by lia.
    apply getLock_acquires. lia.
  - unfold TryRolloutLock. rewrite Z.mul_1_l. by apply getLock_acquires.
  - intros key ttl Httl. by apply getLock_acquires.
Qed.

End Locks.

Lemma lock_acquisition_witness :
  let w := Demo.world (Demo.db_of [] [])
             (Demo.github_of (Demo.remote (Demo.release "v2" 20 []) []))
             "v1" [] [] in
  let r := TryCanaryReleaseLock Demo.state "v2" w in
  (0 < CanaryRolloutWindow (config Demo.state) < 2 ^ 62
   ∧ 0 < RolloutWindow (config Demo.state))
  ∧ r.1 = Ok true
  ∧ Redis.find (canaryReleaseTagKey Demo.state) (redis r.2)
    = Some (lock_entry "v2" (Some (Redis.now (redis w) + 600 * second)))
  ∧ lock_created (canaryReleaseTagKey Demo.state) (redis w) (redis r.2)
  ∧ acquires (rolloutKey Demo.state) "v2" (1 * RolloutWindow (config Demo.state))
      (TryRolloutLock Demo.state "v2") w
  ∧ ∀ key ttl, 0 < ttl → acquires key "v2" ttl (getLock Demo.state key "v2" ttl) w.
Proof.
  intros w r.
  assert (H1 : 0 < CanaryRolloutWindow (config Demo.state) < 2 ^ 62)
    by (vm_compute; split; reflexivity).
  assert (H2 : 0 < RolloutWindow (config Demo.state)) by reflexivity.
  split; [exact (conj H1 H2)|].
  destruct (lock_acquisition Demo.state "v2" w H1 H2) as (Hc & Hr & Hg).
  destruct Hc as (_ & _ & _ & Hset & Htrue & _ & Hcreated & _).
  assert (Hfree : Redis.find (canaryReleaseTagKey Demo.state) (redis w) = None
                  ∧ next_fault (redis w) = false
                  ∧ next_fault (after_roundtrip (redis w)) = false)
    by (repeat split; reflexivity).
  assert (Hok : r.1 = Ok true) by (apply Htrue, Hfree).
  split; [exact Hok|]. split; [exact (Hset Hok)|].
  split; [apply Hcreated; split; apply Hfree|].
  split; [exact Hr|exact Hg].
Defined.

(** C5, as stated, fails.  A lock taken for a second and a half expires
    after one second: a call that comes 1.2 seconds later takes it.  And a
    call whose second round trip fails has created the lock, yet it does not
    return true: it returns the error, and the lock has no expiry. *)
Lemma getLock_expiry_in_whole_seconds :
  let g := Demo.github_of (Demo.remote (Demo.release "v2" 20 []) []) in
  let w := Demo.world (Demo.db_of [] []) g "v1" [] [] in
  let ttl := 1500 * millisecond in
  let r := getLock Demo.state "lock" "v2" ttl w in
  let later := set_redis (Redis.advance (1200 * millisecond) (redis r.2)) r.2 in
  let cut := Demo.world (Demo.db_of [] [false; true]) g "v1" [] [] in
  let r' := getLock Demo.state "lock" "v2" ttl cut in
  (r.1 = Ok true
   ∧ Redis.find "lock" (redis r.2)
     = Some (lock_entry "v2" (Some (Redis.now (redis w) + 1 * second)))
   ∧ 1 * second < ttl
   ∧ (getLock Demo.state "lock" "v3" ttl later).1 = Ok true)
  ∧ (lock_created "lock" (redis cut) (redis r'.2)
     ∧ r'.1 = Err (ErrorString Redis.unreachable)
     ∧ Redis.find "lock" (redis r'.2) = Some (lock_entry "v2" None)).
Proof.
  vm_compute. repeat split; try reflexivity. by eexists.
Qed.


(* ===================================================================== *)
(** * Rollout progress *)
(* ===================================================================== *)

Section Progress.
Context {P : Platform} {G : Type}.

Lemma set_redis_same (w : World G) : set_redis (redis w) w = w.
Proof. by destruct w. Qed.

Lemma store_quiet {A} (c : Redis.t → Redis.reply A * Redis.t) (w : World G) :
  Redis.faults (redis w) = [] →
  store (Redis.roundtrip c) w = let '(r, db) := c (redis w) in (r, set_redis db w).
Proof. intros F. unfold store, Redis.roundtrip. by rewrite F. Qed.

Lemma scan_members_counts tag members deleted installed (w : World G) :
  Redis.faults (redis w) = [] →
  Forall (readable (redis w)) members →
  scan_members tag members deleted installed w
  = (Ok (deleted ++ List.filter (departed (redis w)) members,
         installed
         + Z.of_nat (length (List.filter (reports tag (redis w)) members))),
     w).
Proof.
  intros F. revert deleted installed.
  induction members as [|m rest IH]; intros deleted installed Hr.
  { cbn. by rewrite app_nil_r, Z.add_0_r. }
  apply Forall_cons in Hr as [Hm Hrest].
  cbn [scan_members List.filter]. unfold Redis.Get. rewrite store_quiet by done.
  unfold Redis.srv_get, departed, reports, readable in *.
  destruct (Redis.find m (redis w)) as [[[b|members] d]|] eqn:E;
    rewrite set_redis_same; [|done|].
  - destruct Hm as [ms Hms]. rewrite Hms.
    rewrite IH by done. f_equal. f_equal. f_equal.
    destruct (String.eqb (CurrentVersion ms) tag); cbn [length]; lia.
  - rewrite IH by done. by rewrite <- app_assoc.
Qed.

(** What [GetRolloutProgress] returns when the store answers and every
    record is readable: the first count is the number of members whose
    record is there and reports [tag]; the members without a record leave
    the registry; the second count is the size of the registry before they
    left. *)
Lemma GetRolloutProgress_counts (s : State) tag (w : World G) (S : gset string) :
  Redis.faults (redis w) = [] →
  set_at (membersTagKey s) (redis w) = Some S →
  (∀ m, m ∈ S → readable (redis w) m) →
  ∃ w',
    GetRolloutProgress s tag w
    = (Ok (Z.of_nat (length (List.filter (reports tag (redis w)) (elements S))),
           Z.of_nat (size S)), w')
    ∧ set_at (membersTagKey s) (redis w')
      = Some (S ∖ list_to_set (List.filter (departed (redis w)) (elements S)))
    ∧ ∀ k, k ≠ membersTagKey s → Redis.find k (redis w') = Redis.find k (redis w).
Proof.
  intros F HS Hr. unfold GetRolloutProgress, Redis.SMembers.
  rewrite store_quiet by done. unfold Redis.srv_smembers.
  assert (Hmem :
    match Redis.find (membersTagKey s) (redis w) with
    | Some {| Redis.e_value := Redis.VString _ |} => False
    | Some {| Redis.e_value := Redis.VSet s0 |} => s0 = S
    | None => S = ∅
    end).
  { unfold set_at in HS.
    destruct (Redis.find (membersTagKey s) (redis w)) as [[[] ?]|]; congruence. }
  assert (Hall : Forall (readable (redis w)) (elements S)).
  { apply Forall_forall. intros m Hm. apply Hr. by apply elem_of_elements. }
  set (gone := List.filter (departed (redis w)) (elements S)).
  destruct (Redis.find (membersTagKey s) (redis w)) as [[[b|members] d]|] eqn:E;
    [done| |]; subst; rewrite set_redis_same; unfold bind.
  - rewrite scan_members_counts by done. cbn [app]. fold gone.
    destruct gone as [|g gone'] eqn:Eg.
    + cbn. eexists. split; [reflexivity|]. split; [|done].
      rewrite HS. f_equal. cbn. by rewrite difference_empty_L.
    + rewrite <- Eg. unfold store_Result, Redis.SRem. rewrite store_quiet by done.
      unfold Redis.srv_srem. rewrite E, Eg, <- Eg.
      eexists. split; [reflexivity|].
      case_decide as Hrest; cbn [redis set_redis snd].
      * split.
        -- unfold set_at, Redis.find. cbn. rewrite lookup_delete_eq. by rewrite Hrest.
        -- intros k Hk. unfold Redis.find. cbn. by rewrite lookup_delete_ne.
      * split.
        -- unfold set_at, Redis.find in *. cbn. rewrite lookup_insert_eq.
           destruct (Redis.keyspace (redis w) !! membersTagKey s) as [e|];
             [|done].
           destruct (Redis.alive (Redis.now (redis w)) e) eqn:Ea; [|done].
           simplify_eq. unfold Redis.alive in *. cbn in *. by rewrite Ea.
        -- intros k Hk. unfold Redis.find. cbn. by rewrite lookup_insert_ne.
  - rewrite elements_empty in *. cbn.
    eexists. split; [reflexivity|]. split; [|done].
    rewrite HS; f_equal; set_solver.
Qed.

End Progress.

(** C1. A registry of two members, the record of the second expired:
    [GetRolloutProgress] prunes the second member and does not count it as
    installed, but counts it in the total; the next call returns a total of
    one. *)
Theorem GetRolloutProgress_total_counts_expired :
  let db :=
    Demo.db_of
      [("acme/app_members_tag",
        Redis.Entry (Redis.VSet {["node1:acme/app"; "node2:acme/app"]}) None);
       ("node1:acme/app",
        Redis.Entry (Redis.VString "CurrentVersion=v1") (Some 2000));
       ("node2:acme/app",
        Redis.Entry (Redis.VString "CurrentVersion=v1") (Some 500))] [] in
  let w := Demo.world db (Demo.github_of (Demo.remote (Demo.release "v1" 20 []) []))
             "v1" [] [] in
  let w' := (GetRolloutProgress Demo.state "v1" w).2 in
  Redis.now db = 1000
  ∧ departed db "node1:acme/app" = false
  ∧ departed db "node2:acme/app" = true
  ∧ (GetRolloutProgress Demo.state "v1" w).1 = Ok (1, 2)
  ∧ set_at (membersTagKey Demo.state) (redis w') = Some {["node1:acme/app"]}
  ∧ (GetRolloutProgress Demo.state "v1" w').1 = Ok (1, 1).
Proof. vm_compute. repeat split. Qed.


(* ===================================================================== *)
(** * The install gate *)
(* ===================================================================== *)

Section Gate.
Context {P : Platform} {G : Type}.

Lemma tag_in_elements tag (A : gset string) :
  tag_in tag (elements A) = bool_decide (tag ∈ A).
Proof.
  unfold tag_in. apply eq_true_iff_eq. rewrite bool_decide_eq_true.
  rewrite existsb_exists. split.
  - intros (x & Hx & Heq). apply String.eqb_eq in Heq as ->.
    apply elem_of_elements. by apply list_elem_of_In.
  - intros Hin. exists tag. split; [|apply String.eqb_refl].
    by apply list_elem_of_In, elem_of_elements.
Qed.

(** The members that [getReleases] reads when the store answers. *)
Lemma getReleases_set s key (A : gset string) (w : World G) :
  next_fault (redis w) = false →
  set_at key (redis w) = Some A →
  ∃ tags, getReleases s key w = (Ok tags, set_redis (after_roundtrip (redis w)) w)
          ∧ tag_in_set tags A.
Proof.
  intros F HA. unfold getReleases, store_Result, Redis.SMembers.
  rewrite store_roundtrip, F. unfold Redis.srv_smembers, set_at in *.
  change (Redis.find key (after_roundtrip (redis w))) with (Redis.find key (redis w)).
  destruct (Redis.find key (redis w)) as [[[b|members] d]|]; simplify_eq.
  - eexists. split; [reflexivity|]. intros tag. apply tag_in_elements.
  - eexists. split; [reflexivity|]. intros tag. cbn.
    symmetry. apply bool_decide_eq_false. set_solver.
Qed.

(** [CanInstallTag] as a chain of tests on the tag, the installed version
    and the avoid set. *)
Lemma CanInstallTag_cases (s : State) tag (w w1 : World G) inst (A : gset string) :
  GetLastInstalledTag s w = (Ok inst, w1) →
  next_fault (redis w1) = false →
  set_at (avoidReleaseTagKey s) (redis w1) = Some A →
  (CanInstallTag s tag w).1
  = if String.eqb tag "" then Err (ErrorString "tag is empty")
    else if String.eqb inst "" then Ok tt
    else if String.eqb inst tag then Err (Sentinel ErrAlreadyInstalled)
    else if bool_decide (tag ∈ A) then Err (Sentinel ErrAvoidReleaseTag)
    else Ok tt.
Proof.
  intros Hv F HA. unfold CanInstallTag.
  destruct (String.eqb tag ""); [done|].
  unfold bind at 1. rewrite Hv.
  destruct (String.eqb inst ""); [done|].
  destruct (String.eqb inst tag); [done|].
  destruct (getReleases_set s _ A w1 F HA) as (tags & E & Htags).
  unfold bind. rewrite E, Htags.
  by destruct (bool_decide (tag ∈ A)).
Qed.

(** C2, amended. When the version command answers [inst] and the store
    answers with the avoid set [A]: [CanInstallTag] is the error "tag is
    empty" for the empty tag; for a tag that is not empty it is the signal
    "already installed" exactly when the tag is the installed version, the
    signal "avoid" exactly when something is installed, the tag differs from
    it and is in [A], and nil exactly when nothing is installed, or the tag
    differs from the installed version and is not in [A]. *)
Theorem CanInstallTag_gate (s : State) tag (w w1 : World G) inst (A : gset string) :
  GetLastInstalledTag s w = (Ok inst, w1) →
  next_fault (redis w1) = false →
  set_at (avoidReleaseTagKey s) (redis w1) = Some A →
  let r := (CanInstallTag s tag w).1 in
  (tag = "" → r = Err (ErrorString "tag is empty"))
  ∧ (tag ≠ "" →
     (r = Err (Sentinel ErrAlreadyInstalled) ↔ inst = tag)
     ∧ (r = Err (Sentinel ErrAvoidReleaseTag) ↔ inst ≠ "" ∧ inst ≠ tag ∧ tag ∈ A)
     ∧ (r = Ok tt ↔ inst = "" ∨ (inst ≠ tag ∧ tag ∉ A))).
Proof.
  intros Hv F HA r. subst r.
  rewrite (CanInstallTag_cases s tag w w1 inst A Hv F HA).
  destruct (String.eqb_spec tag "") as [->|Ht]; [by split|].
  split; [done|]. intros _.
  destruct (String.eqb_spec inst "") as [->|Hi]; [intuition congruence|].
  destruct (String.eqb_spec inst tag) as [->|Hne]; [intuition congruence|].
  case_bool_decide as Hin; intuition congruence.
Qed.

End Gate.

Lemma CanInstallTag_gate_witness :
  let w := Demo.world
             (Demo.db_of [("acme/app_avoid_release_tag",
                           Redis.Entry (Redis.VSet {["v2"]}) None)] [])
             (Demo.github_of (Demo.remote (Demo.release "v2" 20 []) []))
             "v1" [] [] in
  let r := (CanInstallTag Demo.state "v2" w).1 in
  ("v2" = "" → r = Err (ErrorString "tag is empty"))
  ∧ ("v2" ≠ "" →
     (r = Err (Sentinel ErrAlreadyInstalled) ↔ "v1" = "v2")
     ∧ (r = Err (Sentinel ErrAvoidReleaseTag)
        ↔ "v1" ≠ "" ∧ "v1" ≠ "v2" ∧ "v2" ∈ ({["v2"]} : gset string))
     ∧ (r = Ok tt ↔ "v1" = "" ∨ ("v1" ≠ "v2" ∧ "v2" ∉ ({["v2"]} : gset string)))).
Proof.
  intro w.
  apply (CanInstallTag_gate Demo.state "v2" w
           (GetLastInstalledTag Demo.state w).2 "v1" {["v2"]});
    vm_compute; reflexivity.
Defined.

(** C2, as stated, fails where nothing is installed: the tag is in the avoid
    set and differs from the installed version, which is empty, and
    [CanInstallTag] returns nil, not the signal "avoid". *)
Lemma CanInstallTag_skips_avoid_set_when_nothing_installed :
  let w := Demo.world
             (Demo.db_of [("acme/app_avoid_release_tag",
                           Redis.Entry (Redis.VSet {["v2"]}) None)] [])
             (Demo.github_of (Demo.remote (Demo.release "v2" 20 []) []))
             "" [] [] in
  (GetLastInstalledTag Demo.state w).1 = Ok ""
  ∧ set_at (avoidReleaseTagKey Demo.state) (redis w) = Some {["v2"]}
  ∧ "v2" ∈ ({["v2"]} : gset string)
  ∧ "v2" ≠ ""
  ∧ (CanInstallTag Demo.state "v2" w).1 = Ok tt
  ∧ (CanInstallTag Demo.state "v2" w).1 ≠ Err (Sentinel ErrAvoidReleaseTag).
Proof.
  vm_compute. repeat split; done.
Qed.


(* ===================================================================== *)
(** * A store without a stable tag *)
(* ===================================================================== *)

Section NoStableTag.
Context {P : Platform} {G : Type} {GH : GitHuber G}.

Lemma getRelease_absent s key (w : World G) :
  next_fault (redis w) = false →
  Redis.find key (redis w) = None →
  getRelease s key w = (Ok "", set_redis (after_roundtrip (redis w)) w).
Proof.
  intros F E. unfold getRelease, Redis.Get. rewrite store_roundtrip, F.
  unfold Redis.srv_get.
  change (Redis.find key (after_roundtrip (redis w))) with (Redis.find key (redis w)).
  by rewrite E.
Qed.

(** C10. For a state made by [NewState] and a store in which the stable-tag
    key is absent: [CurrentStableTag], when the store answers, returns the
    empty string and a nil error; and a rollout tick whose report of the
    member succeeded returns nil right after that read, without a lock, a
    deploy or a log, and the loop goes on. *)
Theorem absent_stable_tag_is_no_op (config cfg : Config) hostname (w : World G) :
  let s := NewState cfg hostname in
  Redis.find (stableReleaseTagKey s) (redis w) = None →
  (next_fault (redis w) = false →
   CurrentStableTag s w = (Ok "", set_redis (after_roundtrip (redis w)) w))
  ∧ (∀ w1, SaveMemberState s w = (Ok tt, w1) →
     next_fault (redis w1) = false →
     handleRollout config s w
     = (Ok NoStableTag, set_redis (after_roundtrip (redis w1)) w1)
     ∧ rollout_case config s w
       = (Ok Continue, set_redis (after_roundtrip (redis w1)) w1)).
Proof.
  intros s Habs. split.
  - intros F. by apply getRelease_absent.
  - intros w1 Hsave F.
    assert (Habs1 : Redis.find (stableReleaseTagKey s) (redis w1) = None).
    { pose proof (SaveMemberState_keeps_stable cfg hostname w) as H.
      cbv zeta in H. fold s in H. rewrite Hsave in H. cbn [snd] in H.
      by rewrite H. }
    assert (Hr : handleRollout config s w
                 = (Ok NoStableTag, set_redis (after_roundtrip (redis w1)) w1)).
    { unfold handleRollout, bind. rewrite Hsave.
      unfold CurrentStableTag. by rewrite getRelease_absent. }
    split; [done|].
    unfold rollout_case, bind, try. by rewrite Hr.
Qed.

End NoStableTag.

Lemma absent_stable_tag_is_no_op_witness :
  let w := Demo.world (Demo.db_of [] [])
             (Demo.github_of (Demo.remote (Demo.release "v2" 20 []) []))
             "v1" [] [] in
  let s := NewState Demo.cfg "node1" in
  Redis.find (stableReleaseTagKey s) (redis w) = None
  ∧ (next_fault (redis w) = false →
     CurrentStableTag s w = (Ok "", set_redis (after_roundtrip (redis w)) w))
  ∧ (∀ w1, SaveMemberState s w = (Ok tt, w1) →
     next_fault (redis w1) = false →
     handleRollout Demo.cfg s w
     = (Ok NoStableTag, set_redis (after_roundtrip (redis w1)) w1)
     ∧ rollout_case Demo.cfg s w
       = (Ok Continue, set_redis (after_roundtrip (redis w1)) w1)).
Proof.
  intros w s.
  assert (H : Redis.find (stableReleaseTagKey s) (redis w) = None) by reflexivity.
  split; [exact H|].
  exact (absent_stable_tag_is_no_op Demo.cfg Demo.cfg "node1" w H).
Defined.

(** The same tick, run: the member is reported, the stable tag is read as
    empty, the tick returns nil and the store holds no lock. *)
Example rollout_tick_without_stable_tag :
  let w := Demo.world (Demo.db_of [] [])
             (Demo.github_of (Demo.remote (Demo.release "v2" 20 []) []))
             "v1" [] [] in
  (CurrentStableTag Demo.state w).1 = Ok ""
  ∧ (handleRollout Demo.cfg Demo.state w).1 = Ok NoStableTag
  ∧ (rollout_case Demo.cfg Demo.state w).1 = Ok Continue
  ∧ Redis.find (rolloutKey Demo.state)
      (redis (handleRollout Demo.cfg Demo.state w).2) = None
  ∧ trace (handleRollout Demo.cfg Demo.state w).2 = [Exec_ "version" [] 0].
Proof. vm_compute. repeat split. Qed.


(* ===================================================================== *)
(** * The health-check burst *)
(* ===================================================================== *)

(** The shift of [BackOffDelay] is a multiplication as long as it stays
    small. *)
Lemma BackOffDelay_doubles (n : nat) (delay : Z) :
  0 < delay → delay * 2 ^ Z.of_nat n < 2 ^ 62 →
  BackOffDelay n delay = delay * 2 ^ Z.of_nat n.
Proof.
  intros Hd Hs. unfold BackOffDelay.
  assert (E : (delay <=? 0) = false) by (apply Z.leb_gt; lia).
  rewrite E.
  assert (Hlog : Z.log2 delay < 62 - Z.of_nat n).
  { apply Z.log2_lt_pow2; [done|].
    assert (Hp : 2 ^ 62 = 2 ^ (62 - Z.of_nat n) * 2 ^ Z.of_nat n).
    { rewrite <- Z.pow_add_r; [f_equal; lia| |lia].
      destruct (Z.le_gt_cases 0 (62 - Z.of_nat n)) as [|Hneg]; [done|].
      exfalso. assert (2 ^ 62 ≤ 2 ^ Z.of_nat n) by (apply Z.pow_le_mono_r; lia).
      nia. }
    assert (0 < 2 ^ Z.of_nat n) by (apply Z.pow_pos_nonneg; lia).
    nia. }
  rewrite Z.min_l by lia. apply Z.shiftl_mul_pow2. lia.
Qed.

Lemma invocations_Sleep c d tr : invocations c (Sleep d :: tr) = invocations c tr.
Proof. reflexivity. Qed.

Section Burst.
Context {P : Platform} {G : Type} {GH : GitHuber G}.
Variables (config : Config) (tag file : string).

Local Notation "'T'" := (HealthCheckTimeout config).
Local Notation "'D'" := (HealthCheckInterval config).
Local Notation "'R'" := (HealthCheckRetries config).
Local Notation "'cmd'" := (HealthCheckCommand config).

Lemma burst_timeout_formula :
  0 < T → 0 ≤ D → 1 ≤ R → R * (T + D) < 2 ^ 63 →
  burst_timeout config = T * R + D * R.
Proof.
  intros HT HD HR Hb. unfold burst_timeout, dur_add, dur_mul.
  assert (0 < 2 ^ 63) by lia.
  rewrite (wrap64_small R) by nia.
  rewrite (wrap64_small (T * R)) by nia.
  rewrite (wrap64_small (D * R)) by nia.
  apply wrap64_small. nia.
Qed.

(** One attempt: the command runs once on the host, under the time-out. *)
Lemma health_attempt_eq (st : string) (w : World G) :
  0 < T →
  let r := sh cmd (release_env tag file) T (host w) in
  ∃ w', health_attempt config tag file st w
        = (Ok (combined r.1,
               match failure r.1 with
               | None => None
               | Some _ => Some (ErrorString (attempt_message r.1))
               end), w')
        ∧ redis w' = redis w ∧ github w' = github w ∧ sched w' = sched w
        ∧ host w' = r.2
        ∧ clock w' = clock w + took r.1
        ∧ invocations cmd (trace w') = Datatypes.S (invocations cmd (trace w))
        ∧ sleeps (trace w') = sleeps (trace w).
Proof.
  intros HT r. subst r.
  unfold health_attempt, executeCommand, bind, run_sh.
  assert (E : (if 0 <? T then T else 0) = T) by (apply Z.ltb_lt in HT; by rewrite HT).
  rewrite E. unfold release_env.
  destruct (sh cmd [("RELEASE_TAG", tag); ("ASSET_FILE", file)] T (host w))
    as [c h1] eqn:Esh.
  cbn [fst snd]. unfold attempt_message, invocations.
  destruct (failure c) as [msg|] eqn:Ef; cbn;
    rewrite ?String.eqb_refl; cbn; eexists; (split; [reflexivity|]); cbn;
    rewrite ?String.eqb_refl; cbn; repeat split; try done.
Qed.

(** The wait after the failed attempt [n]: the delay doubled [n] times,
    plus a random part below 100 ms. *)
Lemma delayType_eq (n : nat) (w : World G) :
  0 < D → D * 2 ^ Z.of_nat n < 2 ^ 62 →
  ∃ jitter w',
    delayType n D w = (Ok (D * 2 ^ Z.of_nat n + jitter), w')
    ∧ 0 ≤ jitter < 100 * millisecond
    ∧ redis w' = redis w ∧ host w' = host w ∧ sched w' = sched w
    ∧ clock w' = clock w ∧ trace w' = trace w.
Proof.
  intros HD Hs. unfold delayType, bind, rand_Int63n, ret.
  change (maxJitter <=? 0) with false. cbv iota.
  rewrite BackOffDelay_doubles by done.
  assert (Hj : ∀ j, 0 ≤ j < maxJitter →
               Z.min (D * 2 ^ Z.of_nat n + j) (2 ^ 63 - 1)
               = D * 2 ^ Z.of_nat n + j).
  { intros j Hj. apply Z.min_l. unfold maxJitter, millisecond in Hj. lia. }
  destruct (rand w) as [|r rest].
  - exists 0, w. rewrite Hj by (unfold maxJitter, millisecond; lia).
    unfold millisecond. repeat split; try done; lia.
  - assert (Hm : 0 ≤ r mod maxJitter < maxJitter)
      by (apply Z.mod_pos_bound; reflexivity).
    eexists (r mod maxJitter), _. rewrite Hj by done.
    split; [reflexivity|]. unfold maxJitter in *. repeat split; try done; lia.
Qed.

Lemma runs_length n c env t (h : Host machine) : length (runs n c env t h) = n.
Proof. revert h. induction n as [|n IH]; intros h; cbn; [done|]. by rewrite IH. Qed.

(** The attempts of [retry.Do] when the command fails every time: either
    the deadline cuts a wait, before all the attempts are made; or all are
    made, and then the doubled waits have fitted before the deadline. *)
Lemma retry_attempts_failing (left n : nat) (deadline : Z) st errorLog (w : World G) :
  0 < T → 0 < D → D * 2 ^ Z.of_nat (n + left) < 2 ^ 62 →
  (∀ h, 0 ≤ took (sh cmd (release_env tag file) T h).1) →
  Forall (λ r, failure r.1 ≠ None) (runs left cmd (release_env tag file) T (host w)) →
  (1 ≤ left)%nat →
  ∃ out e w',
    retry_attempts left n (health_attempt config tag file) deadline D st errorLog w
    = (Ok (out, Some e), w')
    ∧ redis w' = redis w ∧ sched w' = sched w
    ∧ ((e = Sentinel DeadlineExceeded
        ∧ (invocations cmd (trace w) + 1 ≤ invocations cmd (trace w'))%nat
        ∧ (invocations cmd (trace w') < invocations cmd (trace w) + left)%nat
        ∧ deadline ≤ clock w')
       ∨ ((∃ l, e = RetryError (errorLog ++ l) ∧ length l = left)
          ∧ invocations cmd (trace w') = (invocations cmd (trace w) + left)%nat
          ∧ (left = 1%nat
             ∨ clock w + D * (2 ^ Z.of_nat (n + left - 1) - 2 ^ Z.of_nat n)
               < deadline))).
Proof.
  intros HT HD. revert n st errorLog w.
  induction left as [|left' IH]; intros n st errorLog w Hs Hsh Hfail Hleft; [lia|].
  cbn [runs] in Hfail. apply Forall_cons in Hfail as [Hf1 Hfail].
  cbn [retry_attempts].
  destruct (health_attempt_eq st w HT) as (w1 & E1 & Hr1 & Hg1 & Hs1 & Hh1 & Hc1 & Hi1 & Hz1).
  pose proof (Hsh (host w)) as Htook.
  destruct (sh cmd (release_env tag file) T (host w)) as [c h1] eqn:Esh.
  cbn [fst snd] in *.
  unfold bind at 1. rewrite E1.
  destruct (failure c) as [msg|] eqn:Ef; [|done].
  destruct left' as [|left''].
  { eexists _, _, w1. split; [reflexivity|]. split; [done|]. split; [done|].
    right. split; [eexists; split; [reflexivity|done]|].
    split; [rewrite Hi1; lia|by left]. }
  assert (Hpow : 0 < 2 ^ Z.of_nat n) by (apply Z.pow_pos_nonneg; lia).
  assert (Hs0 : D * 2 ^ Z.of_nat n < 2 ^ 62).
  { assert (2 ^ Z.of_nat n ≤ 2 ^ Z.of_nat (n + Datatypes.S (Datatypes.S left'')))
      by (apply Z.pow_le_mono_r; lia).
    nia. }
  destruct (delayType_eq n w1 HD Hs0)
    as (j & w2 & E2 & Hj & Hr2 & Hh2 & Hs2 & Hc2 & Ht2).
  unfold bind at 1. rewrite E2.
  destruct (deadline <=? clock w2 + (D * 2 ^ Z.of_nat n + j)) eqn:Ecut.
  - apply Z.leb_le in Ecut.
    eexists _, _, _. split; [reflexivity|].
    cbn [redis sched trace clock emit tick bind ret fst snd].
    split; [congruence|]. split; [congruence|]. left.
    rewrite invocations_Sleep, Ht2, Hi1.
    split; [done|]. split; [lia|]. split; [lia|lia].
  - apply Z.leb_gt in Ecut.
    unfold bind at 1, emit at 1. unfold bind at 1, tick at 1.
    match goal with |- context [retry_attempts _ _ _ _ _ ?s ?l ?w3] =>
      destruct (IH (Datatypes.S n) s l w3) as (out & e & w' & E & Hr & Hsc & Hcase)
    end.
    { replace (Datatypes.S n + Datatypes.S left'')%nat
        with (n + Datatypes.S (Datatypes.S left''))%nat by lia. done. }
    { done. }
    { cbn [host]. rewrite Hh2, Hh1. done. }
    { lia. }
    cbn [redis sched trace clock] in *.
    exists out, e, w'. split; [exact E|]. split; [congruence|]. split; [congruence|].
    rewrite invocations_Sleep, Ht2, Hi1 in Hcase.
    destruct Hcase as [(-> & Hi & Hlt & Hdl)|((l & -> & Hl) & Hi & Hfit)].
    + left. split; [done|]. split; [lia|]. split; [lia|done].
    + right. split.
      { exists (error_text (ErrorString (attempt_message c)) :: l).
        split; [by rewrite <- app_assoc|]. cbn. by rewrite Hl. }
      split; [lia|]. right.
      replace (n + Datatypes.S (Datatypes.S left'') - 1)%nat
        with (Datatypes.S n + left'')%nat by lia.
      assert (Hstep : 2 ^ Z.of_nat (Datatypes.S n) = 2 * 2 ^ Z.of_nat n).
      { rewrite Nat2Z.inj_succ, Z.pow_succ_r; lia. }
      destruct Hfit as [Hone|Hfit].
      * injection Hone as ->. replace (Datatypes.S n + 0)%nat with (Datatypes.S n) by lia.
        rewrite Hstep. lia.
      * replace (Datatypes.S n + Datatypes.S left'' - 1)%nat
          with (Datatypes.S n + left'')%nat in Hfit by lia.
        rewrite Hstep in Hfit. lia.
Qed.

(** C8. The configured delay is doubled at every attempt, and the
    deadline of the burst does not allow for it.  With a positive time-out
    and delay, at least two attempts, no overflow, and a health-check command
    that fails at every attempt: the time-out of the context of the burst is
    timeout x retries + delay x retries; and when the doubled delays before
    the last attempt, delay x (2^(retries - 1) - 1), do not fit in it, the
    burst stops at the deadline with "context deadline exceeded", after at
    least one and fewer than [HealthCheckRetries] attempts. *)
Theorem health_burst_cut_short (w : World G) :
  0 < T → 0 < D → 2 ≤ R → R * (T + D) < 2 ^ 63 →
  D * 2 ^ R < 2 ^ 62 →
  (∀ h, 0 ≤ took (sh cmd (release_env tag file) T h).1) →
  Forall (λ r, failure r.1 ≠ None)
    (runs (Z.to_nat R) cmd (release_env tag file) T (host w)) →
  R * (T + D) ≤ D * (2 ^ (R - 1) - 1) →
  burst_timeout config = T * R + D * R
  ∧ ∃ out w',
      health_burst config tag file w
      = (Ok (out, Some (Sentinel DeadlineExceeded)), w')
      ∧ (invocations cmd (trace w) + 1 ≤ invocations cmd (trace w'))%nat
      ∧ (invocations cmd (trace w') < invocations cmd (trace w) + Z.to_nat R)%nat
      ∧ clock w + burst_timeout config ≤ clock w'.
Proof.
  intros HT HD HR Hb Hs Hsh Hfail Hcut.
  pose proof (burst_timeout_formula HT (Z.lt_le_incl _ _ HD) ltac:(lia) Hb) as Hformula.
  split; [done|].
  unfold health_burst, retry_Do.
  assert (Hd : (clock w + burst_timeout config <=? clock w) = false)
    by (apply Z.leb_gt; rewrite Hformula; nia).
  rewrite Hd.
  destruct (retry_attempts_failing (Z.to_nat R) 0 (clock w + burst_timeout config)
              "" [] w HT HD)
    as (out & e & w' & E & _ & _ & Hcase).
  { rewrite Nat.add_0_l, Z2Nat.id by lia. done. }
  { done. }
  { done. }
  { lia. }
  exists out, w'.
  destruct Hcase as [(-> & Hi & Hlt & Hdl)|(_ & _ & [Hone|Hfit])].
  - done.
  - lia.
  - exfalso. rewrite Nat.add_0_l in Hfit.
    replace (Z.of_nat (Z.to_nat R - 1)) with (R - 1) in Hfit by lia.
    change (2 ^ Z.of_nat 0) with 1 in Hfit. lia.
Qed.

End Burst.

Lemma health_burst_cut_short_witness :
  let config := Sample.cfg_health 5 (300 * millisecond) (300 * millisecond) in
  let w := Demo.world (Demo.db_of [] [])
             (Demo.github_of (Demo.remote (Demo.release "v2" 20 []) []))
             "v2" [false; false; false; false; false] [] in
  burst_timeout config = 3 * second
  ∧ ∃ out w',
      health_burst config "v2" "app.tar.gz" w
      = (Ok (out, Some (Sentinel DeadlineExceeded)), w')
      ∧ (1 ≤ invocations "health" (trace w'))%nat
      ∧ (invocations "health" (trace w') < 5)%nat
      ∧ 3 * second ≤ clock w'.
Proof.
  intros config w.
  assert (H1 : 0 < HealthCheckTimeout config) by reflexivity.
  assert (H2 : 0 < HealthCheckInterval config) by reflexivity.
  assert (H3 : 2 ≤ HealthCheckRetries config) by (vm_compute; discriminate).
  assert (H4 : HealthCheckRetries config
               * (HealthCheckTimeout config + HealthCheckInterval config) < 2 ^ 63)
    by reflexivity.
  assert (H5 : HealthCheckInterval config * 2 ^ HealthCheckRetries config < 2 ^ 62)
    by reflexivity.
  assert (H6 : ∀ h : Host Demo.toy,
             0 ≤ took (@sh Demo.platform (HealthCheckCommand config)
                         (release_env "v2" "app.tar.gz")
                         (HealthCheckTimeout config) h).1).
  { intros h. cbn. unfold Demo.toy_sh. cbn.
    destruct (Demo.health (node h)) as [|[] ?]; cbn; lia. }
  assert (H7 : Forall (λ r : Completed * Host Demo.toy, failure r.1 ≠ None)
                 (runs (Z.to_nat (HealthCheckRetries config))
                    (HealthCheckCommand config) (release_env "v2" "app.tar.gz")
                    (HealthCheckTimeout config) (host w)))
    by (vm_compute; repeat constructor; discriminate).
  assert (H8 : HealthCheckRetries config
               * (HealthCheckTimeout config + HealthCheckInterval config)
               ≤ HealthCheckInterval config
                 * (2 ^ (HealthCheckRetries config - 1) - 1))
    by (vm_compute; discriminate).
  exact (health_burst_cut_short config "v2" "app.tar.gz" w H1 H2 H3 H4 H5 H6 H7 H8).
Defined.

(** The burst at the failing input: five attempts, a delay and a time-out
    of 300 ms, a command that fails at once.  The waits are 300, 600 and
    1200 ms; the fourth, of 2400 ms, is cut by the deadline of 3 s after
    900 ms: four attempts, and the error of the context. *)
Example burst_of_five_is_cut_at_four :
  let config := Sample.cfg_health 5 (300 * millisecond) (300 * millisecond) in
  let w := Demo.world (Demo.db_of [] [])
             (Demo.github_of (Demo.remote (Demo.release "v2" 20 []) []))
             "v2" [false; false; false; false; false] [] in
  let r := health_burst config "v2" "app.tar.gz" w in
  r.1 = Ok ("unhealthy", Some (Sentinel DeadlineExceeded))
  ∧ invocations "health" (trace r.2) = 4%nat
  ∧ sleeps (trace r.2)
    = [900 * millisecond - 4; 1200 * millisecond; 600 * millisecond;
       300 * millisecond]
  ∧ Demo.health (node (host r.2)) = [false].
Proof. vm_compute. repeat split. Qed.

(** The two runs of the specification, on a node whose health check takes
    one unit of time: three attempts, a delay and a time-out of one second.
    The waits are of one second, then two, plus the random part.  A command
    that fails twice and then succeeds: success, after exactly three
    invocations.  A command that always fails: failure after exactly three
    invocations, with the output of the last attempt. *)
Example burst_fails_twice_then_succeeds :
  let w := set_rand [7; 100 * millisecond + 9]
             (Demo.world (Demo.db_of [] [])
                (Demo.github_of (Demo.remote (Demo.release "v2" 20 []) []))
                "v2" [false; false; true] []) in
  let r := health_burst Demo.cfg "v2" "app.tar.gz" w in
  r.1 = Ok ("healthy", None)
  ∧ invocations "health" (trace r.2) = 3%nat
  ∧ sleeps (trace r.2) = [2 * second + 9; second + 7].
Proof. vm_compute. repeat split. Qed.

Example burst_always_fails :
  let w := Demo.world (Demo.db_of [] [])
             (Demo.github_of (Demo.remote (Demo.release "v2" 20 []) []))
             "v2" [false; false; false; false] [] in
  let r := health_burst Demo.cfg "v2" "app.tar.gz" w in
  r.1 = Ok ("unhealthy",
            Some (RetryError
                    ["health check command failed: exit status 1, unhealthy";
                     "health check command failed: exit status 1, unhealthy";
                     "health check command failed: exit status 1, unhealthy"]))
  ∧ invocations "health" (trace r.2) = 3%nat
  ∧ sleeps (trace r.2) = [2 * second; second]
  ∧ Demo.health (node (host r.2)) = [false].
Proof. vm_compute. repeat split. Qed.


(* ===================================================================== *)
(** * The watch after the first burst *)
(* ===================================================================== *)

Section Watch.
Context {P : Platform} {G : Type} {GH : GitHuber G}.
Variables (config : Config) (tag file : string).

Lemma health_attempt_returns st (w : World G) :
  ∃ r w', health_attempt config tag file st w = (Ok r, w') ∧ sched w' = sched w
          ∧ invocations (HealthCheckCommand config) (trace w')
            = Datatypes.S (invocations (HealthCheckCommand config) (trace w)).
Proof.
  unfold health_attempt, executeCommand, bind, run_sh.
  destruct (sh _ _ _ (host w)) as [c h1].
  destruct (failure c); cbn; eexists _, _; (split; [reflexivity|]);
    unfold invocations; cbn; rewrite String.eqb_refl; done.
Qed.

Lemma invocations_grows {A} (m : Go G A) c (w : World G) :
  grows m → (invocations c (trace w) ≤ invocations c (trace (m w).2))%nat.
Proof.
  intros Hm. destruct (Hm w) as [evs ->]. unfold invocations.
  rewrite List.filter_app, length_app. lia.
Qed.

Lemma delayType_returns n delay (w : World G) :
  ∃ d w', delayType n delay w = (Ok d, w') ∧ sched w' = sched w.
Proof.
  unfold delayType, bind, rand_Int63n, ret.
  change (maxJitter <=? 0) with false. cbv iota.
  destruct (rand w); eauto.
Qed.

(** The attempts always return; an error is the error of the context, or
    the log of as many failed attempts as there were to make. *)
Lemma retry_attempts_returns left n deadline delay st errorLog (w : World G) :
  ∃ r w', retry_attempts left n (health_attempt config tag file) deadline delay
            st errorLog w = (Ok r, w')
          ∧ sched w' = sched w
          ∧ ∀ e, r.2 = Some e →
                 e = Sentinel DeadlineExceeded
                 ∨ ∃ l, e = RetryError l
                        ∧ length l = (length errorLog + left)%nat.
Proof.
  revert n st errorLog w. induction left as [|left' IH]; intros n st errorLog w.
  { cbn. eexists _, _. split; [reflexivity|]. split; [done|].
    intros e [= <-]. right. eexists. split; [done|]. lia. }
  cbn [retry_attempts]. unfold bind at 1.
  destruct (health_attempt_returns st w) as ([out err] & w1 & -> & Hs1 & _).
  destruct err as [e|].
  2:{ cbn. eexists _, _. split; [reflexivity|]. split; [done|]. done. }
  destruct left' as [|left''].
  { cbn. eexists _, _. split; [reflexivity|]. split; [done|].
    intros e' [= <-]. right. eexists. split; [done|].
    rewrite length_app. cbn. lia. }
  unfold bind at 1.
  destruct (delayType_returns n delay w1) as (d & w2 & -> & Hs2).
  destruct (deadline <=? clock w2 + d).
  { cbn. eexists _, _. split; [reflexivity|]. cbn [sched snd].
    split; [congruence|]. intros e' [= <-]. by left. }
  unfold bind at 1, emit at 1. unfold bind at 1, tick at 1.
  match goal with |- context [retry_attempts _ _ _ _ _ ?s ?l ?w3] =>
    destruct (IH (Datatypes.S n) s l w3) as (r & w' & -> & Hs & He) end.
  cbn in Hs. exists r, w'. split; [done|]. split; [congruence|].
  intros e' He'. destruct (He e' He') as [->|(l & -> & Hl)]; [by left|].
  right. exists l. split; [done|]. rewrite length_app in Hl. cbn in Hl. lia.
Qed.

(** A burst always returns, and leaves the schedule alone; it fails with
    the error of its context, or with the log of [HealthCheckRetries]
    failed attempts. *)
Lemma health_burst_returns (w : World G) :
  ∃ r w', health_burst config tag file w = (Ok r, w') ∧ sched w' = sched w
          ∧ ∀ e, r.2 = Some e →
                 e = Sentinel DeadlineExceeded
                 ∨ ∃ l, e = RetryError l
                        ∧ length l = Z.to_nat (HealthCheckRetries config).
Proof.
  unfold health_burst, retry_Do.
  destruct (_ <=? clock w).
  { eexists _, _. split; [reflexivity|]. split; [done|].
    intros e [= <-]. by left. }
  apply retry_attempts_returns.
Qed.

(** A burst whose context is not done when it starts, and that has at
    least one attempt, runs the command at least once. *)
Lemma health_burst_invokes (w : World G) :
  1 ≤ HealthCheckRetries config → 0 < burst_timeout config →
  (invocations (HealthCheckCommand config) (trace w) + 1
   ≤ invocations (HealthCheckCommand config)
       (trace (health_burst config tag file w).2))%nat.
Proof.
  intros HR Hb. unfold health_burst, retry_Do.
  assert (Hd : (clock w + burst_timeout config <=? clock w) = false)
    by (apply Z.leb_gt; lia).
  rewrite Hd.
  destruct (Z.to_nat (HealthCheckRetries config)) as [|left'] eqn:El; [lia|].
  cbn [retry_attempts]. unfold bind at 1.
  destruct (health_attempt_returns "" w) as ([out err] & w1 & -> & _ & Hi).
  match goal with |- context [trace (?k w1).2] =>
    assert (Hk : grows k); [|pose proof (invocations_grows k (HealthCheckCommand config) w1 Hk)]
  end.
  { destruct err as [e|]; [|apply grows_ret].
    destruct left' as [|left'']; [apply grows_ret|].
    apply grows_bind; [apply grows_delayType|]. intros d.
    intros w0. cbn beta.
    destruct (_ <=? clock w0 + _);
      match goal with
      | |- ∃ evs, trace (?m w0).2 = _ =>
          assert (grows m) as Hm;
          [grows_go; apply grows_retry_attempts; intros ?; apply grows_health_attempt
          |apply Hm]
      end. }
  lia.
Qed.

Local Notation "'burst'" := (health_burst config tag file).

(** The loop, along ticks whose bursts succeed. *)
Lemma health_watch_watched n (w w' : World G) :
  watched burst n w w' → health_watch burst (sched w) w = health_watch burst (sched w') w'.
Proof.
  induction 1 as [w|n w rest out w1 w' Hs Hf _ IH]; [done|].
  rewrite Hs. cbn [health_watch]. rewrite Hf.
  destruct (health_burst_returns (set_sched rest w)) as (r & w1' & E & Hs1 & _).
  rewrite Hf in E. injection E as _ <-. cbn in Hs1. by rewrite <- Hs1.
Qed.

Lemma watched_invocations n (w w' : World G) :
  watched burst n w w' →
  1 ≤ HealthCheckRetries config → 0 < burst_timeout config →
  (invocations (HealthCheckCommand config) (trace w) + n
   ≤ invocations (HealthCheckCommand config) (trace w'))%nat.
Proof.
  intros Hw HR Hb.
  induction Hw as [w|n w rest out w1 w' Hs Hf _ IH]; [lia|].
  pose proof (health_burst_invokes (set_sched rest w) HR Hb) as Hi.
  rewrite Hf in Hi. cbn [snd trace set_sched] in Hi. lia.
Qed.

(** The ticks of the schedule, as far as their bursts succeed. *)
Lemma watched_ticks (k : nat) rest (w : World G) :
  sched w = replicate k healthCheckTick ++ canaryReleaseTick :: rest →
  (∃ w2, watched burst k w w2 ∧ sched w2 = canaryReleaseTick :: rest)
  ∨ (∃ n w2 l r w3, (n < k)%nat ∧ watched burst n w w2
                    ∧ sched w2 = healthCheckTick :: l
                    ∧ burst (set_sched l w2) = (Ok r, w3) ∧ is_Some r.2).
Proof.
  revert w. induction k as [|k IH]; intros w Hs.
  { left. exists w. split; [constructor|done]. }
  cbn [replicate app] in Hs.
  set (l := replicate k healthCheckTick ++ canaryReleaseTick :: rest) in *.
  destruct (health_burst_returns (set_sched l w)) as ([out err] & w1 & E & Hs1 & _).
  cbn in Hs1. destruct err as [e|].
  { right. exists 0%nat, w, l, (out, Some e), w1.
    split; [lia|]. split; [constructor|]. split; [done|]. split; [done|].
    by eexists. }
  destruct (IH w1 Hs1) as [(w2 & Hw & Hs2)|(n & w2 & l' & r & w3 & Hn & Hw & Hs2 & Hf & He)].
  - left. exists w2. split; [|done]. by econstructor.
  - right. exists (Datatypes.S n), w2, l', r, w3.
    split; [lia|]. split; [by econstructor|]. done.
Qed.

(** Without a ticker there is no health check: an interval or a window
    that is not positive stops the process before the command is run. *)
Lemma runHealthCheck_without_ticker (w : World G) :
  HealthCheckInterval config ≤ 0 ∨ CanaryRolloutWindow config ≤ 0 →
  runHealthCheck config tag file w
  = (Halt (Panicked "non-positive interval for NewTicker"), w).
Proof.
  intros H. unfold runHealthCheck, bind, time_NewTicker, stop, ret.
  destruct (HealthCheckInterval config <=? 0) eqn:E1; [done|].
  destruct (CanaryRolloutWindow config <=? 0) eqn:E2; [done|].
  apply Z.leb_gt in E1, E2. lia.
Qed.

Lemma runHealthCheck_eq (w : World G) :
  0 < HealthCheckInterval config → 0 < CanaryRolloutWindow config →
  runHealthCheck config tag file w
  = match burst w with
    | (Ok (out, Some e), w1) => (Ok (out, Some e), w1)
    | (Ok (_, None), w1) => health_watch burst (sched w1) w1
    | (Err e, w1) => (Err e, w1)
    | (Halt h, w1) => (Halt h, w1)
    end.
Proof.
  intros H1 H2. unfold runHealthCheck, time_NewTicker.
  apply Z.leb_gt in H1, H2. rewrite H1, H2.
  unfold bind, ret. by destruct (burst w) as [[[out [e|]]|e|h] w1].
Qed.

(** C3, amended. With an interval and a window that are positive, when the
    schedule has [k] ticks of the health-check ticker before a tick of the
    canary-window ticker, [runHealthCheck] returns, and:
    - a nil error comes with an empty output, exactly when the first burst
      and the burst run on each of the [k] ticks have all succeeded and the
      window tick has been received; by then the command has been run at
      least [k + 1] times, when a burst has an attempt and a positive time
      budget;
    - an error is the result of the first burst that fails, the one at the
      start or the one run on a tick after the bursts before it succeeded;
      it is returned as it is, and the world is the one that this burst
      left: nothing more is run.  The error is the error of the context of
      the burst, or the log of [HealthCheckRetries] failed attempts: on a
      tick the check is retried as it is at the start;
    - as soon as a burst fails, at the start or on a tick, the verification
      fails with its output and its error. *)
Theorem runHealthCheck_watch (k : nat) rest (w : World G) :
  0 < HealthCheckInterval config → 0 < CanaryRolloutWindow config →
  sched w = replicate k healthCheckTick ++ canaryReleaseTick :: rest →
  (∃ r w',
     runHealthCheck config tag file w = (Ok r, w')
     ∧ match r.2 with
       | None =>
           r.1 = ""
           ∧ (∃ out w1 w2,
                burst w = (Ok (out, None), w1) ∧ watched burst k w1 w2
                ∧ sched w2 = canaryReleaseTick :: rest
                ∧ w' = set_sched rest w2)
           ∧ (1 ≤ HealthCheckRetries config → 0 < burst_timeout config →
              (invocations (HealthCheckCommand config) (trace w) + k + 1
               ≤ invocations (HealthCheckCommand config) (trace w'))%nat)
       | Some e =>
           (burst w = (Ok r, w')
            ∨ ∃ n out w1 w2 l,
                (n < k)%nat ∧ burst w = (Ok (out, None), w1) ∧ watched burst n w1 w2
                ∧ sched w2 = healthCheckTick :: l
                ∧ burst (set_sched l w2) = (Ok r, w'))
           ∧ (e = Sentinel DeadlineExceeded
              ∨ ∃ l, e = RetryError l
                     ∧ length l = Z.to_nat (HealthCheckRetries config))
       end)
  ∧ (∀ out e w1,
       burst w = (Ok (out, Some e), w1) →
       runHealthCheck config tag file w = (Ok (out, Some e), w1))
  ∧ (∀ n out w1 w2 l out' e w3,
       burst w = (Ok (out, None), w1) → watched burst n w1 w2 →
       sched w2 = healthCheckTick :: l →
       burst (set_sched l w2) = (Ok (out', Some e), w3) →
       runHealthCheck config tag file w = (Ok (out', Some e), w3)).
Proof.
  intros H1 H2 Hsched.
  assert (Hfirst : ∀ out e w1,
            burst w = (Ok (out, Some e), w1) →
            runHealthCheck config tag file w = (Ok (out, Some e), w1)).
  { intros out e w1 Hf. rewrite runHealthCheck_eq by done. by rewrite Hf. }
  assert (Hlater : ∀ n out w1 w2 l out' e w3,
            burst w = (Ok (out, None), w1) → watched burst n w1 w2 →
            sched w2 = healthCheckTick :: l →
            burst (set_sched l w2) = (Ok (out', Some e), w3) →
            runHealthCheck config tag file w = (Ok (out', Some e), w3)).
  { intros n out w1 w2 l out' e w3 Hf Hw Hs2 Hf2.
    rewrite runHealthCheck_eq by done. rewrite Hf.
    rewrite (health_watch_watched n w1 w2 Hw), Hs2.
    cbn [health_watch]. by rewrite Hf2. }
  split; [|by split].
  destruct (health_burst_returns w) as ([out err] & w1 & E & Hs1 & Herr).
  destruct err as [e|].
  { exists (out, Some e), w1. split; [by apply Hfirst|]. cbn [snd].
    split; [by left|]. by apply Herr. }
  rewrite Hsched in Hs1.
  destruct (watched_ticks k rest w1 Hs1)
    as [(w2 & Hw & Hs2)|(n & w2 & l & [out' err'] & w3 & Hn & Hw & Hs2 & Hf & [e He])].
  - exists ("", None), (set_sched rest w2). split.
    { rewrite runHealthCheck_eq by done. rewrite E.
      rewrite (health_watch_watched k w1 w2 Hw), Hs2. done. }
    cbn [fst snd]. split; [done|]. split.
    { exists out, w1, w2. done. }
    intros HR Hb.
    pose proof (health_burst_invokes w HR Hb) as Hi. rewrite E in Hi.
    cbn [snd] in Hi.
    pose proof (watched_invocations k w1 w2 Hw HR Hb). cbn [trace set_sched]. lia.
  - cbn in He. subst err'.
    exists (out', Some e), w3. split; [by eapply Hlater|]. cbn [snd]. split.
    { right. exists n, out, w1, w2, l. done. }
    destruct (health_burst_returns (set_sched l w2)) as (r & w3' & E3 & _ & Herr3).
    rewrite Hf in E3. injection E3 as <- _. by apply Herr3.
Qed.

End Watch.

Lemma runHealthCheck_watch_witness :
  let config := Demo.cfg in
  let w := Demo.world (Demo.db_of [] [])
             (Demo.github_of (Demo.remote (Demo.release "v2" 20 []) []))
             "v2" [true; false; false; false]
             [healthCheckTick; canaryReleaseTick; gitTicker] in
  let burst := health_burst config "v2" "app.tar.gz" in
  (0 < HealthCheckInterval config ∧ 0 < CanaryRolloutWindow config
   ∧ sched w = replicate 1 healthCheckTick ++ canaryReleaseTick :: [gitTicker])
  ∧ (∃ r w',
       runHealthCheck config "v2" "app.tar.gz" w = (Ok r, w')
       ∧ match r.2 with
         | None =>
             r.1 = ""
             ∧ (∃ out w1 w2,
                  burst w = (Ok (out, None), w1) ∧ watched burst 1 w1 w2
                  ∧ sched w2 = canaryReleaseTick :: [gitTicker]
                  ∧ w' = set_sched [gitTicker] w2)
             ∧ (1 ≤ HealthCheckRetries config → 0 < burst_timeout config →
                (invocations (HealthCheckCommand config) (trace w) + 1 + 1
                 ≤ invocations (HealthCheckCommand config) (trace w'))%nat)
         | Some e =>
             (burst w = (Ok r, w')
              ∨ ∃ n out w1 w2 l,
                  (n < 1)%nat ∧ burst w = (Ok (out, None), w1)
                  ∧ watched burst n w1 w2
                  ∧ sched w2 = healthCheckTick :: l
                  ∧ burst (set_sched l w2) = (Ok r, w'))
             ∧ (e = Sentinel DeadlineExceeded
                ∨ ∃ l, e = RetryError l
                       ∧ length l = Z.to_nat (HealthCheckRetries config))
         end)
  ∧ (∀ out e w1,
       burst w = (Ok (out, Some e), w1) →
       runHealthCheck config "v2" "app.tar.gz" w = (Ok (out, Some e), w1))
  ∧ (∀ n out w1 w2 l out' e w3,
       burst w = (Ok (out, None), w1) → watched burst n w1 w2 →
       sched w2 = healthCheckTick :: l →
       burst (set_sched l w2) = (Ok (out', Some e), w3) →
       runHealthCheck config "v2" "app.tar.gz" w = (Ok (out', Some e), w3)).
Proof.
  intros config w burst.
  assert (H1 : 0 < HealthCheckInterval config) by reflexivity.
  assert (H2 : 0 < CanaryRolloutWindow config) by reflexivity.
  assert (H3 : sched w
               = replicate 1 healthCheckTick ++ canaryReleaseTick :: [gitTicker])
    by reflexivity.
  split; [exact (conj H1 (conj H2 H3))|].
  exact (runHealthCheck_watch config "v2" "app.tar.gz" 1 [gitTicker] w H1 H2 H3).
Defined.

(** The run of the witness: the first burst succeeds at once; the burst
    of the tick makes its three attempts, which fail, and the verification
    fails with the log of the three, before the window tick is looked at. *)
Example runHealthCheck_fails_on_a_tick :
  let w := Demo.world (Demo.db_of [] [])
             (Demo.github_of (Demo.remote (Demo.release "v2" 20 []) []))
             "v2" [true; false; false; false]
             [healthCheckTick; canaryReleaseTick; gitTicker] in
  let whole := runHealthCheck Demo.cfg "v2" "app.tar.gz" w in
  whole.1
  = Ok ("unhealthy",
        Some (RetryError
                ["health check command failed: exit status 1, unhealthy";
                 "health check command failed: exit status 1, unhealthy";
                 "health check command failed: exit status 1, unhealthy"]))
  ∧ invocations "health" (trace whole.2) = 4%nat
  ∧ sched whole.2 = [canaryReleaseTick; gitTicker].
Proof. vm_compute. repeat split. Qed.

(** C3, as stated, fails: the first burst succeeds; the health check that
    the next tick runs fails; it is tried again, succeeds, and the whole
    verification succeeds when the window tick comes. *)
Lemma runHealthCheck_retries_on_a_tick :
  let w := Demo.world (Demo.db_of [] [])
             (Demo.github_of (Demo.remote (Demo.release "v2" 20 []) []))
             "v2" [true; false; true] [healthCheckTick; canaryReleaseTick] in
  let first := health_burst Demo.cfg "v2" "app.tar.gz" w in
  let on_tick :=
    health_attempt Demo.cfg "v2" "app.tar.gz" ""
      (set_sched [canaryReleaseTick] first.2) in
  let whole := runHealthCheck Demo.cfg "v2" "app.tar.gz" w in
  first.1 = Ok ("healthy", None)
  ∧ invocations "health" (trace first.2) = 1%nat
  ∧ on_tick.1
    = Ok ("unhealthy",
          Some (ErrorString "health check command failed: exit status 1, unhealthy"))
  ∧ whole.1 = Ok ("", None)
  ∧ invocations "health" (trace whole.2) = 3%nat
  ∧ sched whole.2 = [].
Proof. vm_compute. repeat split. Qed.


(* ===================================================================== *)
(** * Downloading a release twice *)
(* ===================================================================== *)

Section Download.
Context {P : Platform}.

Lemma select_release_with_cache t f g tag :
  select_release (with_cache t f g) tag = select_release g tag.
Proof. reflexivity. Qed.

Lemma first_matching_with_cache t f g assets :
  first_matching (with_cache t f g) assets = first_matching g assets.
Proof. induction assets as [|a l IH]; [done|]. cbn. by rewrite IH. Qed.

Lemma select_release_no_transfer g tag :
  no_transfer (select_release g tag).2 ∧ downloads (select_release g tag).2 = 0%nat.
Proof.
  unfold select_release, no_transfer.
  destruct (String.eqb tag LatestTag).
  - destruct (latest_release (client g)) as [err|r], (IncludePreRelease (gh_config g));
      cbn; try (split; [repeat constructor|done]).
    + destruct (searchReleaseWithPreRelease g) as [r|[[]| | |]|];
        cbn; split; try done; repeat constructor.
    + destruct (searchReleaseWithPreRelease g) as [r'|[[]| | |]|];
        cbn; try (split; [repeat constructor|done]).
      destruct (published_before r r') as [[]|]; cbn;
        (split; [repeat constructor|done]).
  - destruct (release_by_tag (client g) tag); cbn;
      (split; [repeat constructor|done]).
Qed.

(** What [fetch_asset] leaves when it returns a file. *)
Lemma fetch_asset_Ok g release asset (h : Host machine) t p g1 h1 evs :
  fetch_asset g release asset h = (Ok (t, p), g1, h1, evs) →
  t = TagName release
  ∧ p = filepath_Join (SaveAssetsPath (gh_config g)) (asset_Name asset)
  ∧ (∃ content, fs h1 !! p = Some (Regular content))
  ∧ (downloads evs ≤ 1)%nat
  ∧ ((g1 = g ∧ h1 = h ∧ evs = []) ∨ g1 = with_cache t p g).
Proof.
  unfold fetch_asset.
  set (filePath := filepath_Join _ _).
  destruct (fs h !! filePath) as [[content|]|] eqn:Efs.
  - intros [= <- <- <- <- <-]. repeat split; eauto.
  - done.
  - destruct (asset_download (client g) (asset_ID asset)) as [err|[b|loc]];
      [done| |].
    + destruct (bool_decide (filePath ∈ unwritable h)); [done|].
      destruct b as [content|partial]; [|done].
      intros [= <- <- <- <- <-]. repeat split; eauto.
      cbn. rewrite lookup_insert_eq. eauto.
    + destruct (String.eqb loc "").
      { by destruct (bool_decide (filePath ∈ unwritable h)). }
      destruct (http_Do (client g) loc) as [err|b]; [done|].
      destruct (bool_decide (filePath ∈ unwritable h)); [done|].
      destruct b as [content|partial]; [|done].
      intros [= <- <- <- <- <-]. repeat split; eauto.
      cbn. rewrite lookup_insert_eq. eauto.
Qed.

(** A file that is there is returned without a transfer. *)
Lemma fetch_asset_present g release asset (h : Host machine) content :
  fs h !! filepath_Join (SaveAssetsPath (gh_config g)) (asset_Name asset)
  = Some (Regular content) →
  fetch_asset g release asset h
  = (Ok (TagName release,
         filepath_Join (SaveAssetsPath (gh_config g)) (asset_Name asset)), g, h, []).
Proof. intros E. unfold fetch_asset. by rewrite E. Qed.

(** C9. When a call of [DownloadReleaseAsset] returns a tag and a file, the
    same call made next returns the same tag and the same file, transfers
    nothing and leaves the files as they are; the two calls download an
    asset at most once. *)
Theorem DownloadReleaseAsset_twice tag g (h : Host machine) t p g1 h1 evs1 :
  GitHub_DownloadReleaseAsset tag g h = (Ok (t, p), g1, h1, evs1) →
  ∃ g2 evs2,
    GitHub_DownloadReleaseAsset tag g1 h1 = (Ok (t, p), g2, h1, evs2)
    ∧ no_transfer evs2
    ∧ downloads evs2 = 0%nat
    ∧ (downloads (evs2 ++ evs1) ≤ 1)%nat.
Proof.
  unfold GitHub_DownloadReleaseAsset at 1.
  destruct (negb (String.eqb tag "") && String.eqb tag (lastTag g)
            && negb (String.eqb (lastAssetFile g) "")) eqn:Ecache.
  { intros [= <- <- <- <- <-]. exists g, [].
    unfold GitHub_DownloadReleaseAsset. rewrite Ecache.
    repeat split; try done; [constructor|cbn; lia]. }
  pose proof (select_release_no_transfer g tag) as [Hnt Hnd].
  destruct (select_release g tag) as [[[release|]|e|hl] evs] eqn:Esel; try done.
  destruct (first_matching g (Assets release)) as [asset|] eqn:Ematch; [|done].
  destruct (fetch_asset g release asset h) as [[[r g'] h'] evs'] eqn:Efetch.
  intros [= -> <- <- <-].
  destruct (fetch_asset_Ok _ _ _ _ _ _ _ _ _ Efetch)
    as (-> & Hp & (content & Hfile) & Hd & Hg).
  cbn [snd] in Hnt, Hnd.
  assert (Hcount : ∀ evs2, downloads evs2 = 0%nat →
            (downloads (evs2 ++ evs' ++ evs) ≤ 1)%nat).
  { intros evs2 H2. unfold downloads in *.
    rewrite !List.filter_app, !length_app. lia. }
  unfold GitHub_DownloadReleaseAsset.
  destruct (negb (String.eqb tag "") && String.eqb tag (lastTag g')
            && negb (String.eqb (lastAssetFile g') "")) eqn:Ecache1.
  { destruct Hg as [(-> & _ & _)| ->]; [congruence|].
    cbn [lastTag lastAssetFile with_cache] in Ecache1.
    apply andb_prop in Ecache1 as [Ha _]. apply andb_prop in Ha as [_ Ha].
    apply String.eqb_eq in Ha as ->.
    exists (with_cache (TagName release) p g), [].
    repeat split; try done; [constructor|]. by apply Hcount. }
  assert (Esel1 : select_release g' tag = (Ok (Some release), evs)).
  { destruct Hg as [(-> & _ & _)| ->]; exact Esel. }
  assert (Ematch' : first_matching g' (Assets release) = Some asset).
  { destruct Hg as [(-> & _ & _)| ->]; [exact Ematch|].
    by rewrite first_matching_with_cache. }
  assert (Ecfg : gh_config g' = gh_config g).
  { destruct Hg as [(-> & _ & _)| ->]; reflexivity. }
  rewrite Esel1, Ematch'.
  rewrite (fetch_asset_present g' release asset h' content)
    by (rewrite Ecfg, <- Hp; exact Hfile).
  rewrite Ecfg, <- Hp. exists g', ([] ++ evs).
  repeat split; try done. by apply Hcount.
Qed.

End Download.

Lemma DownloadReleaseAsset_twice_witness :
  let g := Demo.github_of
             (Demo.remote (Demo.release "v1.2.4" 20 [Demo.tarball 8])
                [Demo.release "v1.2.3" 10 [Demo.checksums 6; Demo.tarball 7]]) in
  let h : Host Demo.toy :=
    {| fs := ∅; unwritable := ∅;
       node := {| Demo.installed := "v1.2.2"; Demo.health := [] |} |} in
  let first := GitHub_DownloadReleaseAsset (P:=Demo.platform) "v1.2.3" g h in
  first.1.1.1 = Ok ("v1.2.3", "/usr/local/src/app.tar.gz")
  ∧ downloads first.2 = 1%nat
  ∧ ∃ g2 evs2,
      GitHub_DownloadReleaseAsset (P:=Demo.platform) "v1.2.3" first.1.1.2 first.1.2
      = (Ok ("v1.2.3", "/usr/local/src/app.tar.gz"), g2, first.1.2, evs2)
      ∧ no_transfer evs2
      ∧ downloads evs2 = 0%nat
      ∧ (downloads (evs2 ++ first.2) ≤ 1)%nat.
Proof.
  intros g h first.
  split; [reflexivity|]. split; [reflexivity|].
  apply (DownloadReleaseAsset_twice (P:=Demo.platform) "v1.2.3" g h).
  reflexivity.
Defined.


(* ===================================================================== *)
(** * The canary cycle *)
(* ===================================================================== *)

Section Canary.
Context {P : Platform} {G : Type} {GH : GitHuber G}.

Lemma handleRollback_not_Ok {A} target config s (w w' : World G) (a : A) :
  handleRollback target config s w ≠ (Ok a, w').
Proof.
  unfold handleRollback. destruct (String.eqb (RollbackCommand config) ""); [done|].
  rewrite bind_slog. unfold bind, try.
  destruct (deploy _ _ _ _) as [[[t f]|e|hl] w1]; try done.
Qed.

Lemma canary_failed_not_Ok {A} config s tag last out err (w w' : World G) (a : A) :
  canary_failed config s tag last out err w ≠ (Ok a, w').
Proof.
  unfold canary_failed. rewrite bind_slog. unfold bind at 1, try.
  destruct (SaveAvoidReleaseTag _ _ _) as [[[]|e|hl] w1]; try done.
  unfold bind. destruct (RollbackTag _ _ _) as [[target|e|hl] w2]; try done.
  apply handleRollback_not_Ok.
Qed.

(** The branch of [handleCanaryRelease] taken when the health check has
    succeeded. *)
Lemma canary_verified_Ok config cfg hostname tag (w w' : World G) o :
  let s := NewState cfg hostname in
  canary_verified config s tag w = (Ok o, w') →
  o = Released tag
  ∧ Redis.find (stableReleaseTagKey s) (redis w') = Some (lock_entry tag None)
  ∧ Redis.find (canaryReleaseTagKey s) (redis w') = None
  ∧ ∀ e, e ∈ trace w → e ∈ trace w'.
Proof.
  intros s H. unfold canary_verified in H. rewrite bind_slog in H.
  apply bind_Ok_inv in H as (v & w2 & Hv & H).
  apply try_Ok_inv in Hv as [([] & Hv & ->)|(e & _ & ->)]; [|done].
  apply SaveStableReleaseTag_Ok in Hv.
  apply bind_Ok_inv in H as (m & w3 & Hm & H).
  assert (Hw3 : w3 = (SaveMemberState s w2).2).
  { unfold try in Hm. destruct (SaveMemberState s w2) as [[[]|e|hl] w3'];
      by simplify_eq. }
  clear Hm.
  apply bind_Ok_inv in H as ([] & w4 & Hlog & H).
  assert (Hw4 : redis w4 = redis w3 ∧ ∀ e, e ∈ trace w3 → e ∈ trace w4).
  { destruct m as [[]|e]; cbn in Hlog; injection Hlog as <-; [done|].
    split; [done|]. intros e' He'. cbn. by apply list_elem_of_further. }
  clear Hlog. destruct Hw4 as [Hr4 Ht4].
  apply bind_Ok_inv in H as (u & w5 & Hu & H).
  apply try_Ok_inv in Hu as [([] & Hu & ->)|(e & _ & ->)]; [|done].
  apply UnlockCanaryRelease_Ok in Hu.
  rewrite bind_slog in H. injection H as <- <-.
  assert (Hstable3 : Redis.find (stableReleaseTagKey s) (redis w3)
                     = Some (lock_entry tag None)).
  { rewrite Hw3. unfold s. rewrite SaveMemberState_keeps_stable. fold s.
    rewrite Hv. unfold Redis.find. cbn. by rewrite lookup_insert_eq. }
  split; [done|]. cbn [redis trace]. rewrite Hu. cbn [redis set_redis].
  unfold Redis.find in *. cbn [Redis.keyspace Redis.now Redis.with_keyspace
                                 after_roundtrip Redis.with_faults].
  rewrite Hr4. split; [|split].
  - rewrite lookup_delete_ne; [done|].
    apply (NewState_canary_stable cfg hostname).
  - by rewrite lookup_delete_eq.
  - intros e He. apply list_elem_of_further. cbn. apply Ht4.
    rewrite Hw3. apply grows_In; [apply grows_SaveMemberState|].
    rewrite Hv. cbn. by apply list_elem_of_further.
Qed.

(** C6. For a state made by [NewState]: when [handleCanaryRelease] returns
    nil through the success of the health check, for the tag [tag], then the
    deploy command has run with [RELEASE_TAG] set to [tag], the stable-tag
    key holds [tag] without an expiry (so [CurrentStableTag] reads [tag]
    when the store answers), and the canary lock key is absent. *)
Theorem canary_success_promotes_and_unlocks
  (config cfg : Config) hostname tag (w w' : World G) :
  let s := NewState cfg hostname in
  handleCanaryRelease config s w = (Ok (Released tag), w') →
  (∃ file, Exec_ (DeployCommand config) (release_env tag file) (5 * minute)
           ∈ trace w')
  ∧ Redis.find (stableReleaseTagKey s) (redis w') = Some (lock_entry tag None)
  ∧ (next_fault (redis w') = false → (CurrentStableTag s w').1 = Ok tag)
  ∧ Redis.find (canaryReleaseTagKey s) (redis w') = None.
Proof.
  intros s H. unfold handleCanaryRelease in H.
  apply bind_Ok_inv in H as (? & w1 & _ & H).
  apply bind_Ok_inv in H as (last & w2 & _ & H).
  apply bind_Ok_inv in H as (stable & w3 & _ & H).
  apply bind_Ok_inv in H as (l & w4 & _ & H).
  destruct l as [[tag0 file0]|err]; [|done].
  destruct (String.eqb tag0 stable); [done|].
  apply bind_Ok_inv in H as (? & w5 & _ & H).
  apply bind_Ok_inv in H as (got & w6 & _ & H).
  destruct got; [|done].
  rewrite bind_slog in H.
  apply bind_Ok_inv in H as (d & w7 & Hd & H).
  destruct d as [[tag1 file1]|err]; [|done].
  apply try_Ok_inv in Hd as [(? & Hd & [= <-])|(? & _ & ?)]; [|done].
  apply deploy_Ok in Hd.
  rewrite bind_slog in H.
  apply bind_Ok_inv in H as ([out herr] & w8 & Hh & H).
  destruct herr as [e|]; [by apply canary_failed_not_Ok in H|].
  apply canary_verified_Ok in H as (E & Hstable & Hcanary & Htrace).
  injection E as <-.
  split; [|split; [done|split; [|done]]].
  - exists file1. apply Htrace.
    replace w8 with (runHealthCheck config tag file1
                       {| redis := redis w7; host := host w7; github := github w7;
                          trace := Slog Info "deploy command success and start health check"
                                     [("tag", tag); ("cmd", HealthCheckCommand config)]
                                   :: trace w7;
                          clock := clock w7; sched := sched w7;
                          rand := rand w7 |}).2
      by (by rewrite Hh).
    apply grows_In; [apply grows_runHealthCheck|].
    cbn. by apply list_elem_of_further.
  - intros F. unfold CurrentStableTag, getRelease, Redis.Get.
    rewrite store_roundtrip, F. unfold Redis.srv_get.
    change (Redis.find (stableReleaseTagKey s) (after_roundtrip (redis w')))
      with (Redis.find (stableReleaseTagKey (NewState cfg hostname)) (redis w')).
    by rewrite Hstable.
Qed.

End Canary.

Lemma canary_success_promotes_and_unlocks_witness :
  let w := Demo.world (Demo.db_of [] [])
             (Demo.github_of (Demo.remote (Demo.release "v2" 20 [Demo.tarball 7]) []))
             "v1" [] [healthCheckTick; canaryReleaseTick] in
  let s := NewState Demo.cfg "node1" in
  let r := handleCanaryRelease Demo.cfg s w in
  r.1 = Ok (Released "v2")
  ∧ (∃ file, Exec_ (DeployCommand Demo.cfg) (release_env "v2" file) (5 * minute)
             ∈ trace r.2)
  ∧ Redis.find (stableReleaseTagKey s) (redis r.2) = Some (lock_entry "v2" None)
  ∧ (next_fault (redis r.2) = false → (CurrentStableTag s r.2).1 = Ok "v2")
  ∧ Redis.find (canaryReleaseTagKey s) (redis r.2) = None.
Proof.
  intros w s r.
  assert (H : handleCanaryRelease Demo.cfg s w = (Ok (Released "v2"), r.2))
    by (vm_compute; reflexivity).
  split; [exact (f_equal fst H)|].
  exact (canary_success_promotes_and_unlocks Demo.cfg Demo.cfg "node1" "v2" w r.2 H).
Defined.


(* ===================================================================== *)
(** * The failed canary: avoid set and rollback *)
(* ===================================================================== *)

Section Rollback.
Context {P : Platform} {G : Type} {GH : GitHuber G}.

Lemma SaveAvoidReleaseTag_Ok s tag (w w1 : World G) :
  SaveAvoidReleaseTag s tag w = (Ok tt, w1) →
  ∃ A, set_at (avoidReleaseTagKey s) (redis w1) = Some A ∧ tag ∈ A.
Proof.
  unfold SaveAvoidReleaseTag, saveReleases, bind, store_Result, Redis.SAdd.
  rewrite store_roundtrip. destruct (next_fault (redis w)); [done|].
  unfold Redis.srv_sadd.
  change (Redis.find (avoidReleaseTagKey s) (after_roundtrip (redis w)))
    with (Redis.find (avoidReleaseTagKey s) (redis w)).
  unfold set_at.
  destruct (Redis.find (avoidReleaseTagKey s) (redis w)) as [[[b|old] d]|] eqn:E;
    [done| |]; cbn; intros [= <-]; cbn [redis set_redis].
  - exists (old ∪ list_to_set [tag]). unfold Redis.find in *. cbn.
    rewrite lookup_insert_eq.
    destruct (Redis.keyspace (redis w) !! avoidReleaseTagKey s) as [e|]; [|done].
    destruct (Redis.alive (Redis.now (redis w)) e) eqn:Ea; [|done].
    simplify_eq. unfold Redis.alive in *. cbn in *. rewrite Ea.
    split; [done|]. set_solver.
  - exists (list_to_set [tag]). unfold Redis.find. cbn.
    rewrite lookup_insert_eq. cbn. split; [done|]. set_solver.
Qed.

Lemma RollbackTag_installed s before (w : World G) :
  before ≠ "" → RollbackTag s before w = (Ok before, w).
Proof.
  intros H. apply String.eqb_neq in H. unfold RollbackTag, bind.
  rewrite H. cbn. by rewrite H.
Qed.

Lemma RollbackTag_stable s (w : World G) v :
  next_fault (redis w) = false →
  string_at (stableReleaseTagKey s) (redis w) = Some v →
  RollbackTag s "" w
  = (if String.eqb v "" then Err (ErrorString "can't decided rollback tag")
     else Ok v, set_redis (after_roundtrip (redis w)) w).
Proof.
  intros F Hv. unfold RollbackTag, bind. cbn [String.eqb].
  unfold CurrentStableTag, getRelease, Redis.Get. rewrite store_roundtrip, F.
  unfold Redis.srv_get, string_at in *.
  change (Redis.find (stableReleaseTagKey s) (after_roundtrip (redis w)))
    with (Redis.find (stableReleaseTagKey s) (redis w)).
  destruct (Redis.find (stableReleaseTagKey s) (redis w)) as [[[b|members] d]|];
    simplify_eq; cbn; [|done].
  by destruct (String.eqb v "").
Qed.

Lemma RollbackTag_nonempty s before (w w' : World G) target :
  RollbackTag s before w = (Ok target, w') → target ≠ "".
Proof.
  unfold RollbackTag. intros H.
  apply bind_Ok_inv in H as (t & w1 & _ & H).
  destruct (String.eqb t "") eqn:E; [done|].
  injection H as <- <-. by apply String.eqb_neq.
Qed.

Lemma RollbackTag_error s before (w w' : World G) e :
  RollbackTag s before w = (Err e, w') → ∃ msg, e = ErrorString msg.
Proof.
  unfold RollbackTag, bind. destruct (String.eqb before "").
  - unfold CurrentStableTag, getRelease.
    destruct (store _ _) as [[v| |msg] w1].
    + destruct (String.eqb v ""); intros [= <-]; eauto.
    + cbn. intros [= <-]. eauto.
    + intros [= <-]. eauto.
  - cbn. destruct (String.eqb before ""); intros [= <-]; eauto.
Qed.

Lemma canary_fatal_ErrorString msg : canary_fatal (G:=G) (ErrorString msg).
Proof. by intros w. Qed.

Lemma canary_fatal_wrapped msg msg' :
  canary_fatal (G:=G) (WithMessage (ErrorString msg) msg').
Proof. by intros w. Qed.

Lemma grows_handleRollback {A} target config s :
  grows (G:=G) (A:=A) (handleRollback target config s).
Proof. unfold handleRollback. grows_go. Qed.

Lemma grows_canary_failed {A} config s tag last out err :
  grows (G:=G) (A:=A) (canary_failed config s tag last out err).
Proof. unfold canary_failed. grows_go. apply grows_handleRollback. Qed.

(** The branch of [handleCanaryRelease] taken when the health check has
    failed, case by case. *)
Lemma canary_failed_cases
  (config cfg : Config) hostname tag last out err (w : World G) :
  let s := NewState cfg hostname in
  let r : result canary_outcome * World G :=
    canary_failed config s tag last out err w in
  match SaveAvoidReleaseTag s tag
          (slog Error_ "health check command failed"
             [("err", error_text err); ("out", out)] w).2 with
  | (Ok _, w1) =>
      (∃ A, set_at (avoidReleaseTagKey s) (redis w1) = Some A ∧ tag ∈ A)
      ∧ (∃ A, set_at (avoidReleaseTagKey s) (redis r.2) = Some A ∧ tag ∈ A)
      ∧ (last ≠ "" → RollbackTag s last w1 = (Ok last, w1))
      ∧ (last = "" → next_fault (redis w1) = false →
         ∀ v, string_at (stableReleaseTagKey s) (redis w1) = Some v →
         RollbackTag s last w1
         = (if String.eqb v "" then Err (ErrorString "can't decided rollback tag")
            else Ok v, set_redis (after_roundtrip (redis w1)) w1))
      ∧ match RollbackTag s last w1 with
        | (Ok target, w2) =>
            target ≠ ""
            ∧ if String.eqb (RollbackCommand config) ""
              then r = (Err (Sentinel ErrNoRollback), w2)
              else
                match deploy (RollbackCommand config) target s
                        (slog Info "start rollback" [("tag", target)] w2).2 with
                | (Ok (t, f), w3) =>
                    r = (Err (Sentinel ErrRollback),
                         (slog Info "rollback success" [("tag", target)] w3).2)
                    ∧ Exec_ (RollbackCommand config) (release_env t f) (5 * minute)
                      ∈ trace r.2
                | (Err e, w3) =>
                    r = (Err (WithMessage e "rollback command failed"), w3)
                    ∧ canary_fatal (G:=G) (WithMessage e "rollback command failed")
                | (Halt h, w3) => r = (Halt h, w3)
                end
        | (Err e, w2) => r = (Err e, w2) ∧ canary_fatal (G:=G) e
        | (Halt h, w2) => r = (Halt h, w2)
        end
  | (Err e, w1) =>
      r = (Err (ErrorString ("can't save avoid tag:" +:+ error_text e)), w1)
      ∧ canary_fatal (G:=G) (ErrorString ("can't save avoid tag:" +:+ error_text e))
  | (Halt h, w1) => r = (Halt h, w1)
  end.
Proof.
  intros s r.
  destruct (SaveAvoidReleaseTag s tag _) as [[[]|e|h] w1] eqn:Hsave.
  2:{ split; [|apply canary_fatal_ErrorString].
      unfold r, canary_failed. rewrite bind_slog. unfold bind at 1, try.
      unfold slog, emit in Hsave. cbn [snd] in Hsave. by rewrite Hsave. }
  2:{ unfold r, canary_failed. rewrite bind_slog. unfold bind at 1, try.
      unfold slog, emit in Hsave. cbn [snd] in Hsave. by rewrite Hsave. }
  destruct (SaveAvoidReleaseTag_Ok _ _ _ _ Hsave) as (A & HA & Hin).
  assert (Hr : r = (let* rollbackTag := RollbackTag s last in
                    handleRollback rollbackTag config s) w1).
  { unfold r, canary_failed. rewrite bind_slog. unfold bind at 1, try.
    unfold slog, emit in Hsave. cbn [snd] in Hsave. by rewrite Hsave. }
  split; [by exists A|]. split.
  { exists A. split; [|done]. rewrite <- HA. unfold set_at.
    assert (Hf : frames (G:=G) []
                   (let* rollbackTag := RollbackTag s last in
                    handleRollback (A:=canary_outcome) rollbackTag config s)).
    { apply frames_bind; [apply frames_RollbackTag|].
      intros a. apply frames_handleRollback. }
    rewrite Hr.
    by rewrite (find_same_elsewhere [] _ _ (avoidReleaseTagKey s) (Hf w1))
      by apply not_elem_of_nil. }
  split; [by apply RollbackTag_installed|].
  split; [intros -> F v Hv; by apply RollbackTag_stable|].
  assert (Hr2 : r = match RollbackTag s last w1 with
                    | (Ok target, w2) => handleRollback target config s w2
                    | (Err e, w2) => (Err e, w2)
                    | (Halt h, w2) => (Halt h, w2)
                    end).
  { rewrite Hr. unfold bind. by destruct (RollbackTag s last w1) as [[] ?]. }
  clearbody r. clear Hr.
  destruct (RollbackTag s last w1) as [[target|e|hl] w2] eqn:ER.
  - split; [by apply (RollbackTag_nonempty _ _ _ _ _ ER)|].
    unfold handleRollback in Hr2.
    destruct (String.eqb (RollbackCommand config) ""); [done|].
    rewrite bind_slog in Hr2. unfold bind, try in Hr2. cbn [slog emit snd].
    destruct (deploy _ _ _ _) as [[[t f]|e|hl] w3] eqn:ED; try done.
    + split; [done|]. rewrite Hr2. cbn [snd trace].
      apply list_elem_of_further. by apply (deploy_Ok _ _ _ _ _ _ _ ED).
    + split; [done|].
      destruct (deploy_error _ _ _ _ _ _ ED) as [msg ->].
      apply canary_fatal_wrapped.
  - split; [done|]. destruct (RollbackTag_error _ _ _ _ _ ER) as [msg ->].
    apply canary_fatal_ErrorString.
  - done.
Qed.

(** The cycle up to a health check that fails. *)
Lemma handleCanaryRelease_failed_check
  (config : Config) (s : State) (w w1 w2 w3 w4 w5 w6 w7 w8 : World G)
  last stable latest file0 tag file out err :
  SaveMemberState s w = (Ok tt, w1) →
  GetLastInstalledTag s w1 = (Ok last, w2) →
  CurrentStableTag s w2 = (Ok stable, w3) →
  github_DownloadReleaseAsset LatestTag w3 = (Ok (latest, file0), w4) →
  latest ≠ stable →
  CanInstallTag s latest w4 = (Ok tt, w5) →
  TryCanaryReleaseLock s latest w5 = (Ok true, w6) →
  deploy (DeployCommand config) latest s
    (slog Info "lock success and start canary release" [("tag", latest)] w6).2
  = (Ok (tag, file), w7) →
  runHealthCheck config tag file
    (slog Info "deploy command success and start health check"
       [("tag", tag); ("cmd", HealthCheckCommand config)] w7).2
  = (Ok (out, Some err), w8) →
  handleCanaryRelease config s w = canary_failed config s tag last out err w8.
Proof.
  intros H1 H2 H3 H4 Hne H5 H6 H7 H8.
  apply String.eqb_neq in Hne.
  unfold handleCanaryRelease.
  unfold bind at 1. rewrite H1.
  unfold bind at 1. rewrite H2.
  unfold bind at 1. rewrite H3.
  unfold bind at 1, try. rewrite H4. rewrite Hne.
  unfold bind at 1. rewrite H5.
  unfold bind at 1. rewrite H6.
  rewrite bind_slog. unfold slog, emit in H7. cbn [snd] in H7.
  unfold bind at 1. rewrite H7.
  rewrite bind_slog. unfold slog, emit in H8. cbn [snd] in H8.
  unfold bind at 1. by rewrite H8.
Qed.

(** C7, amended. For a state made by [NewState], a cycle of
    [handleCanaryRelease] that has read the installed version [last], taken
    the lock, deployed the tag [tag] and seen its health check fail never
    returns nil, and:
    - it saves [tag], the tag that was given to the deploy command, in the
      avoid set, where it still is when the cycle ends; when the store does
      not take it, the cycle ends in an error that ends the loop;
    - the rollback target is then [last], the version read before the
      deploy, when it is not empty, and the stable tag read from the store
      when it is;
    - without a target the cycle ends in an error that ends the loop,
      whether a rollback command is configured or not;
    - with a target and no rollback command it ends in [ErrNoRollback];
    - with a target and a command it runs [deploy] with the command and the
      target, and ends in [ErrRollback] when that succeeds, the command
      having run, and in an error that ends the loop when it fails;
    - [ErrNoRollback] and [ErrRollback] are logged by the loop, which goes
      on. *)
Theorem failed_canary_rolls_back
  (config cfg : Config) hostname (w w1 w2 w3 w4 w5 w6 w7 w8 : World G)
  last stable latest file0 tag file out err :
  let s := NewState cfg hostname in
  SaveMemberState s w = (Ok tt, w1) →
  GetLastInstalledTag s w1 = (Ok last, w2) →
  CurrentStableTag s w2 = (Ok stable, w3) →
  github_DownloadReleaseAsset LatestTag w3 = (Ok (latest, file0), w4) →
  latest ≠ stable →
  CanInstallTag s latest w4 = (Ok tt, w5) →
  TryCanaryReleaseLock s latest w5 = (Ok true, w6) →
  deploy (DeployCommand config) latest s
    (slog Info "lock success and start canary release" [("tag", latest)] w6).2
  = (Ok (tag, file), w7) →
  runHealthCheck config tag file
    (slog Info "deploy command success and start health check"
       [("tag", tag); ("cmd", HealthCheckCommand config)] w7).2
  = (Ok (out, Some err), w8) →
  let r := handleCanaryRelease config s w in
  (∀ o, r.1 ≠ Ok o)
  ∧ Exec_ (DeployCommand config) (release_env tag file) (5 * minute) ∈ trace r.2
  ∧ match SaveAvoidReleaseTag s tag
            (slog Error_ "health check command failed"
               [("err", error_text err); ("out", out)] w8).2 with
    | (Ok _, w9) =>
        (∃ A, set_at (avoidReleaseTagKey s) (redis w9) = Some A ∧ tag ∈ A)
        ∧ (∃ A, set_at (avoidReleaseTagKey s) (redis r.2) = Some A ∧ tag ∈ A)
        ∧ (last ≠ "" → RollbackTag s last w9 = (Ok last, w9))
        ∧ (last = "" → next_fault (redis w9) = false →
           ∀ v, string_at (stableReleaseTagKey s) (redis w9) = Some v →
           RollbackTag s last w9
           = (if String.eqb v "" then Err (ErrorString "can't decided rollback tag")
              else Ok v, set_redis (after_roundtrip (redis w9)) w9))
        ∧ match RollbackTag s last w9 with
          | (Ok target, w10) =>
              target ≠ ""
              ∧ if String.eqb (RollbackCommand config) ""
                then r = (Err (Sentinel ErrNoRollback), w10)
                else
                  match deploy (RollbackCommand config) target s
                          (slog Info "start rollback" [("tag", target)] w10).2 with
                  | (Ok (t, f), w11) =>
                      r = (Err (Sentinel ErrRollback),
                           (slog Info "rollback success" [("tag", target)] w11).2)
                      ∧ Exec_ (RollbackCommand config) (release_env t f) (5 * minute)
                        ∈ trace r.2
                  | (Err e, w11) =>
                      r = (Err (WithMessage e "rollback command failed"), w11)
                      ∧ canary_fatal (G:=G) (WithMessage e "rollback command failed")
                  | (Halt h, w11) => r = (Halt h, w11)
                  end
          | (Err e, w10) => r = (Err e, w10) ∧ canary_fatal (G:=G) e
          | (Halt h, w10) => r = (Halt h, w10)
          end
    | (Err e, w9) =>
        r = (Err (ErrorString ("can't save avoid tag:" +:+ error_text e)), w9)
        ∧ canary_fatal (G:=G)
            (ErrorString ("can't save avoid tag:" +:+ error_text e))
    | (Halt h, w9) => r = (Halt h, w9)
    end
  ∧ canary_fatal (G:=G) (ErrorString "can't decided rollback tag")
  ∧ canary_skipped (G:=G) Info "no rollback because no rollback command" []
      (Sentinel ErrNoRollback)
  ∧ canary_skipped (G:=G) Warn "rollback success" [] (Sentinel ErrRollback).
Proof.
  intros s H1 H2 H3 H4 Hne H5 H6 H7 H8 r.
  assert (Hr : r = canary_failed config s tag last out err w8)
    by (by eapply handleCanaryRelease_failed_check).
  split.
  { intros o Ho. destruct r as [r1 r2] eqn:Er. cbn in Ho. subst r1.
    symmetry in Hr. by apply canary_failed_not_Ok in Hr. }
  split.
  { rewrite Hr. apply grows_In; [apply grows_canary_failed|].
    replace w8 with
      (runHealthCheck config tag file
         (slog Info "deploy command success and start health check"
            [("tag", tag); ("cmd", HealthCheckCommand config)] w7).2).2
      by (by rewrite H8).
    apply grows_In; [apply grows_runHealthCheck|].
    cbn [slog emit snd trace]. apply list_elem_of_further.
    by apply (deploy_Ok _ _ _ _ _ _ _ H7). }
  split; [|repeat split; done].
  rewrite Hr. apply canary_failed_cases.
Qed.

End Rollback.

Lemma failed_canary_rolls_back_witness :
  let w := Demo.world (Demo.db_of [] [])
             (Demo.github_of
                (Demo.remote (Demo.release "v2" 20 [Demo.tarball 7])
                   [Demo.release "v1" 10 [Demo.tarball 3]]))
             "v1" [false; false; false] [] in
  let s := NewState Demo.cfg "node1" in
  let file := "/usr/local/src/app.tar.gz" in
  let err := RetryError
               ["health check command failed: exit status 1, unhealthy";
                "health check command failed: exit status 1, unhealthy";
                "health check command failed: exit status 1, unhealthy"] in
  let w1 := (SaveMemberState s w).2 in
  let w2 := (GetLastInstalledTag s w1).2 in
  let w3 := (CurrentStableTag s w2).2 in
  let w4 := (github_DownloadReleaseAsset LatestTag w3).2 in
  let w5 := (CanInstallTag s "v2" w4).2 in
  let w6 := (TryCanaryReleaseLock s "v2" w5).2 in
  let w7 := (deploy "deploy" "v2" s
               (slog Info "lock success and start canary release"
                  [("tag", "v2")] w6).2).2 in
  let w8 := (runHealthCheck Demo.cfg "v2" file
               (slog Info "deploy command success and start health check"
                  [("tag", "v2"); ("cmd", "health")] w7).2).2 in
  let r := handleCanaryRelease Demo.cfg s w in
  (SaveMemberState s w = (Ok tt, w1)
   ∧ GetLastInstalledTag s w1 = (Ok "v1", w2)
   ∧ CurrentStableTag s w2 = (Ok "", w3)
   ∧ github_DownloadReleaseAsset LatestTag w3 = (Ok ("v2", file), w4)
   ∧ "v2" ≠ ""
   ∧ CanInstallTag s "v2" w4 = (Ok tt, w5)
   ∧ TryCanaryReleaseLock s "v2" w5 = (Ok true, w6)
   ∧ deploy "deploy" "v2" s
       (slog Info "lock success and start canary release" [("tag", "v2")] w6).2
     = (Ok ("v2", file), w7)
   ∧ runHealthCheck Demo.cfg "v2" file
       (slog Info "deploy command success and start health check"
          [("tag", "v2"); ("cmd", "health")] w7).2
     = (Ok ("unhealthy", Some err), w8))
  ∧ (∀ o, r.1 ≠ Ok o)
  ∧ Exec_ "deploy" (release_env "v2" file) (5 * minute) ∈ trace r.2
  ∧ (∃ A, set_at (avoidReleaseTagKey s) (redis r.2) = Some A ∧ "v2" ∈ A)
  ∧ r.1 = Err (Sentinel ErrRollback)
  ∧ Demo.installed (node (host r.2)) = "v1".
Proof.
  intros w s file err w1 w2 w3 w4 w5 w6 w7 w8 r.
  assert (H1 : SaveMemberState s w = (Ok tt, w1)) by (vm_compute; reflexivity).
  assert (H2 : GetLastInstalledTag s w1 = (Ok "v1", w2)) by (vm_compute; reflexivity).
  assert (H3 : CurrentStableTag s w2 = (Ok "", w3)) by (vm_compute; reflexivity).
  assert (H4 : github_DownloadReleaseAsset LatestTag w3 = (Ok ("v2", file), w4))
    by (vm_compute; reflexivity).
  assert (Hne : "v2" ≠ "") by discriminate.
  assert (H5 : CanInstallTag s "v2" w4 = (Ok tt, w5)) by (vm_compute; reflexivity).
  assert (H6 : TryCanaryReleaseLock s "v2" w5 = (Ok true, w6))
    by (vm_compute; reflexivity).
  assert (H7 : deploy "deploy" "v2" s
                 (slog Info "lock success and start canary release"
                    [("tag", "v2")] w6).2
               = (Ok ("v2", file), w7))
    by (vm_compute; reflexivity).
  assert (H8 : runHealthCheck Demo.cfg "v2" file
                 (slog Info "deploy command success and start health check"
                    [("tag", "v2"); ("cmd", "health")] w7).2
               = (Ok ("unhealthy", Some err), w8))
    by (vm_compute; reflexivity).
  split.
  { exact (conj H1 (conj H2 (conj H3 (conj H4 (conj Hne (conj H5
             (conj H6 (conj H7 H8)))))))). }
  destruct (failed_canary_rolls_back Demo.cfg Demo.cfg "node1"
              w w1 w2 w3 w4 w5 w6 w7 w8 "v1" "" "v2" file "v2" file "unhealthy" err
              H1 H2 H3 H4 Hne H5 H6 H7 H8)
    as (Hnil & Hdep & _ & _).
  split; [exact Hnil|]. split; [exact Hdep|].
  split.
  { exists {["v2"]}. split; [vm_compute; reflexivity|set_solver]. }
  split; vm_compute; reflexivity.
Defined.

(** C7, as stated, fails: without a rollback command the outcome is not
    always "no rollback".  On a node with no version installed and no stable
    tag in the store, the release fails its health check; no target can be
    decided, and the cycle ends in that error, which ends the loop, although
    no rollback command is configured. *)
Lemma no_rollback_command_and_no_target :
  let w := Demo.world (Demo.db_of [] [])
             (Demo.github_of
                (Demo.remote (Demo.release "v2" 20 [Demo.tarball 7]) []))
             "" [false; false; false] [gitTicker] in
  let s := NewState Demo.cfg_no_rollback "node1" in
  let r := handleCanaryRelease Demo.cfg_no_rollback s w in
  RollbackCommand Demo.cfg_no_rollback = ""
  ∧ r.1 = Err (ErrorString "can't decided rollback tag")
  ∧ r.1 ≠ Err (Sentinel ErrNoRollback)
  ∧ invocations "health" (trace r.2) = 3%nat
  ∧ (runServer false Demo.cfg_no_rollback s w).1
    = Ok (Some (ErrorString "can't decided rollback tag")).
Proof. vm_compute. repeat split; try reflexivity. discriminate. Qed.


(* ===================================================================== *)
(** * The loop and the conditions of a steady state *)
(* ===================================================================== *)

Section Loop.
Context {P : Platform} {G : Type} {GH : GitHuber G}.

(** The conditions that the loop logs and passes over. *)
Lemma canary_skips_already_installed :
  canary_skipped (G:=G) Debug "can't rollout" [("err", "already installed")]
    (Sentinel ErrAlreadyInstalled).
Proof. by intros w. Qed.

Lemma canary_skips_avoid_tag :
  canary_skipped (G:=G) Debug "can't rollout" [("err", "avoid release tag")]
    (Sentinel ErrAvoidReleaseTag).
Proof. by intros w. Qed.

Lemma rollout_skips_already_installed :
  rollout_skipped (G:=G) Debug "can't rollout" [("err", "already installed")]
    (Sentinel ErrAlreadyInstalled).
Proof. by intros w. Qed.

(** The loop tests the error of the canary handler for [ErrAssetsNotFound],
    and would pass over it. *)
Lemma canary_would_skip_no_matching_asset :
  canary_skipped (G:=G) Debug "can't rollout" [("err", "no match assets")]
    (Sentinel ErrAssetsNotFound).
Proof. by intros w. Qed.

(** The rollout turn has no test for [ErrAvoidReleaseTag]. *)
Lemma rollout_ends_on_avoid_tag : rollout_fatal (G:=G) (Sentinel ErrAvoidReleaseTag).
Proof. by intros w. Qed.

(** An error of [deploy] ends the rollout turn, whatever its cause was. *)
Lemma rollout_ends_on_deploy_error msg :
  rollout_fatal (G:=G) (WithMessage (ErrorString msg) "deploy command failed").
Proof. by intros w. Qed.

(** ** The errors that the handlers return *)

Lemma raises_ret {A} Q (a : A) : raises (G:=G) Q (ret a).
Proof. intros w e w' H. discriminate. Qed.

Lemma raises_fail {A} (Q : error → Prop) e : Q e → raises (G:=G) (A:=A) Q (fail e).
Proof. intros HQ w e' w' [= <- _]. done. Qed.

Lemma raises_stop {A} Q h : raises (G:=G) (A:=A) Q (stop h).
Proof. intros w e w' H. discriminate. Qed.

Lemma raises_slog Q l m a : raises (G:=G) Q (slog l m a).
Proof. intros w e w' H. discriminate. Qed.

Lemma raises_emit Q ev : raises (G:=G) Q (emit ev).
Proof. intros w e w' H. discriminate. Qed.

Lemma raises_tick Q d : raises (G:=G) Q (tick d).
Proof. intros w e w' H. discriminate. Qed.

Lemma raises_try {A} Q (m : Go G A) : raises Q (try m).
Proof.
  intros w e w'. unfold try. by destruct (m w) as [[a|e'|h] w1].
Qed.

Lemma raises_run_sh Q c env t : raises (G:=G) Q (run_sh c env t).
Proof.
  intros w e w'. unfold run_sh. by destruct (sh c env t (host w)).
Qed.

Lemma raises_bind {A B} Q (m : Go G A) (k : A → Go G B) :
  raises Q m → (∀ a, raises Q (k a)) → raises Q (bind m k).
Proof.
  intros Hm Hk w e w'. unfold bind.
  destruct (m w) as [[a|e'|h] w1] eqn:E; intros H.
  - by apply (Hk a w1 e w').
  - injection H as <- <-. by apply (Hm w e' w1).
  - discriminate.
Qed.

Lemma raises_store_Result {A} (Q : error → Prop)
  (c : Redis.t → Redis.reply A * Redis.t) :
  (∀ msg, Q (ErrorString msg)) → raises (G:=G) Q (store_Result c).
Proof.
  intros HQ w e w'. unfold store_Result.
  destruct (store c w) as [[a| |msg] w1]; intros [= <- _]; apply HQ.
Qed.

Lemma raises_getRelease (Q : error → Prop) s key :
  (∀ msg, Q (ErrorString msg)) → raises (G:=G) Q (getRelease s key).
Proof.
  intros HQ w e w'. unfold getRelease.
  destruct (store _ w) as [[a| |msg] w1]; intros [= <- _]; apply HQ.
Qed.

Lemma hides_ErrorString msg : hides_asset_errors (ErrorString msg).
Proof. done. Qed.

Lemma hides_wrapped_ErrorString msg msg' :
  hides_asset_errors (WithMessage (ErrorString msg) msg').
Proof. done. Qed.

Ltac raises_step :=
  lazymatch goal with
  | |- raises _ (bind _ _) => apply raises_bind; [|intros ?]
  | |- raises _ (try _) => apply raises_try
  | |- raises _ (ret _) => apply raises_ret
  | |- raises _ (stop _) => apply raises_stop
  | |- raises _ (slog _ _ _) => apply raises_slog
  | |- raises _ (emit _) => apply raises_emit
  | |- raises _ (tick _) => apply raises_tick
  | |- raises _ (run_sh _ _ _) => apply raises_run_sh
  | |- raises _ (fail _) => apply raises_fail; done
  | |- raises _ (store_Result _) => apply raises_store_Result; done
  | |- raises _ (getRelease _ _) => apply raises_getRelease; done
  | |- raises _ (match ?x with _ => _ end) => destruct x
  | |- raises _ (let '(_, _) := ?x in _) => destruct x
  | |- raises _ (if ?b then _ else _) => destruct b
  end.
Ltac raises_go := repeat raises_step.

Lemma raises_GetLastInstalledTag s :
  raises (G:=G) hides_asset_errors (GetLastInstalledTag s).
Proof. unfold GetLastInstalledTag. raises_go. Qed.

Lemma raises_SaveMemberState s :
  raises (G:=G) hides_asset_errors (SaveMemberState s).
Proof. unfold SaveMemberState. raises_go. apply raises_GetLastInstalledTag. Qed.

Lemma raises_CanInstallTag s tag :
  raises (G:=G) hides_asset_errors (CanInstallTag s tag).
Proof.
  unfold CanInstallTag, getReleases. raises_go. apply raises_GetLastInstalledTag.
Qed.

Lemma raises_getLock s key tag window :
  raises (G:=G) hides_asset_errors (getLock s key tag window).
Proof. unfold getLock. raises_go. Qed.

Lemma raises_deploy cmd target s :
  raises (G:=G) (λ e, ∃ msg, e = ErrorString msg) (deploy cmd target s).
Proof. intros w e w' H. by apply deploy_error in H. Qed.

Lemma raises_executeCommand Q c tag file t :
  raises (G:=G) Q (executeCommand c tag file t).
Proof. unfold executeCommand. raises_go. Qed.

Lemma raises_rand_Int63n Q n : raises (G:=G) Q (rand_Int63n n).
Proof.
  intros w e w'. unfold rand_Int63n. by destruct (n <=? 0), (rand w).
Qed.

Lemma raises_time_NewTicker Q d : raises (G:=G) Q (time_NewTicker d).
Proof.
  unfold time_NewTicker. destruct (d <=? 0); [apply raises_stop|apply raises_ret].
Qed.

Lemma raises_delayType Q n delay : raises (G:=G) Q (delayType n delay).
Proof.
  unfold delayType. apply raises_bind; [apply raises_rand_Int63n|].
  intros j. apply raises_ret.
Qed.

Lemma raises_retry_attempts {S} Q left n (f : S → Go G (S * option error))
  deadline delay st errorLog :
  (∀ st, raises Q (f st)) →
  raises Q (retry_attempts left n f deadline delay st errorLog).
Proof.
  intros Hf. revert n st errorLog.
  induction left as [|left' IH]; intros n st errorLog; [apply raises_ret|].
  cbn [retry_attempts]. apply raises_bind; [apply Hf|].
  intros [st' [e|]]; [|apply raises_ret].
  destruct left' as [|left'']; [apply raises_ret|].
  apply raises_bind; [apply raises_delayType|]. intros delayTime.
  intros w. cbn beta. destruct (deadline <=? clock w + delayTime);
    match goal with
    | |- ∀ e w', ?m w = _ → _ =>
        assert (raises Q m) as Hm; [raises_go; apply IH|apply Hm]
    end.
Qed.

Lemma raises_runHealthCheck Q config tag file :
  raises (G:=G) Q (runHealthCheck config tag file).
Proof.
  assert (Hb : raises (G:=G) Q (health_burst config tag file)).
  { intros w. unfold health_burst, retry_Do.
    destruct (_ <=? clock w); [done|].
    apply raises_retry_attempts. intros st. unfold health_attempt.
    raises_go. apply raises_executeCommand. }
  assert (Hw : ∀ ticks, raises (G:=G) Q (health_watch (health_burst config tag file) ticks)).
  { induction ticks as [|t ticks IH]; [apply raises_stop|].
    destruct t; cbn [health_watch]; try apply raises_stop.
    - intros w e w'. specialize (Hb (set_sched ticks w)).
      destruct (health_burst _ _ _ _) as [[[out [e'|]]|e'|h] w1]; try done.
      + apply IH.
      + intros [= <- <-]. by eapply Hb.
    - done. }
  unfold runHealthCheck.
  apply raises_bind; [apply raises_time_NewTicker|]. intros _.
  apply raises_bind; [apply raises_time_NewTicker|]. intros _.
  apply raises_bind; [done|].
  intros [out [e|]]; [apply raises_ret|]. intros w. apply Hw.
Qed.

Lemma raises_try_deploy {A} cmd tag s msg (k : string * string → Go G A) :
  (∀ x, raises hides_asset_errors (k x)) →
  raises hides_asset_errors
    (let* d := try (deploy cmd tag s) in
     match d with
     | inl x => k x
     | inr err => fail (WithMessage err msg)
     end).
Proof.
  intros Hk w e w'. unfold bind, try.
  destruct (deploy cmd tag s w) as [[x|err|h] w1] eqn:ED; [apply Hk| |done].
  intros [= <- _]. by apply deploy_error in ED as [m ->].
Qed.

Lemma raises_handleRollback {A} target config s :
  raises (G:=G) (A:=A) hides_asset_errors (handleRollback target config s).
Proof.
  unfold handleRollback.
  destruct (String.eqb (RollbackCommand config) ""); [by apply raises_fail|].
  apply raises_bind; [apply raises_slog|intros _].
  apply raises_try_deploy. intros x. raises_go.
Qed.

Lemma raises_canary_failed {A} config s tag last out err :
  raises (G:=G) (A:=A) hides_asset_errors (canary_failed config s tag last out err).
Proof.
  unfold canary_failed.
  apply raises_bind; [apply raises_slog|intros _].
  apply raises_bind; [apply raises_try|intros [[]|e]]; [|by apply raises_fail].
  apply raises_bind; [|intros target; apply raises_handleRollback].
  unfold RollbackTag, CurrentStableTag. raises_go.
Qed.

Lemma raises_canary_verified config s tag :
  raises (G:=G) hides_asset_errors (canary_verified config s tag).
Proof. unfold canary_verified. raises_go. Qed.

(** No error of the canary handler is recognised by [errors.Is] as
    [ErrAssetsNotFound] or [ErrAssetsCannotDownload]: the errors of the
    release source are formatted with [%s] on their way, so the two tests
    that the loop makes for them never succeed. *)
Lemma handleCanaryRelease_hides_asset_errors config s :
  raises (G:=G) hides_asset_errors (handleCanaryRelease config s).
Proof.
  unfold handleCanaryRelease.
  apply raises_bind; [apply raises_SaveMemberState|intros _].
  apply raises_bind; [apply raises_GetLastInstalledTag|intros last].
  apply raises_bind; [apply raises_getRelease; done|intros stable].
  apply raises_bind; [apply raises_try|intros [[tag file]|err]];
    [|by apply raises_fail].
  destruct (String.eqb tag stable); [apply raises_ret|].
  apply raises_bind; [apply raises_CanInstallTag|intros _].
  apply raises_bind; [apply raises_getLock|intros [|]]; [|apply raises_ret].
  apply raises_bind; [apply raises_slog|intros _].
  apply raises_try_deploy. intros [tag1 file1].
  apply raises_bind; [apply raises_slog|intros _].
  apply raises_bind; [apply raises_runHealthCheck|intros [out [herr|]]].
  - apply raises_canary_failed.
  - apply raises_canary_verified.
Qed.

(** The same for the rollout handler. *)
Lemma handleRollout_hides_asset_errors config s :
  raises (G:=G) hides_asset_errors (handleRollout config s).
Proof.
  unfold handleRollout.
  apply raises_bind; [apply raises_SaveMemberState|intros _].
  apply raises_bind; [apply raises_getRelease; done|intros tag].
  destruct (String.eqb tag ""); [apply raises_ret|].
  apply raises_bind; [apply raises_CanInstallTag|intros _].
  apply raises_bind; [apply raises_getLock|intros [|]]; [|apply raises_ret].
  apply raises_bind; [apply raises_slog|intros _].
  apply raises_try_deploy. intros _.
  apply raises_bind; [apply raises_try|intros m].
  apply raises_bind; [destruct m; raises_go|intros _].
  apply raises_bind; [|intros [installed all]; raises_go].
  intros w e w'. unfold GetRolloutProgress.
  destruct (store _ w) as [r w1].
  set (members := match r with Redis.Reply l => l | _ => [] end).
  revert w1 e w'.
  change (raises (G:=G) hides_asset_errors
            (let* (deletedMembers, installed) := scan_members tag members [] 0 in
             let* _ := match deletedMembers with
                       | [] => ret tt
                       | _ :: _ =>
                           let* _ := store_Result
                                       (Redis.SRem (membersTagKey s) deletedMembers) in
                           ret tt
                       end in
             ret (installed, Z.of_nat (length members)))).
  apply raises_bind; [|intros [deleted installed]; raises_go].
  generalize (@nil string) 0.
  clear m.
  induction members as [|m rest IH]; intros deleted installed; [apply raises_ret|].
  cbn [scan_members]. intros w1 e w'.
  destruct (store _ w1) as [[b| |msg] w2].
  - destruct (json_Unmarshal b); [apply IH|]. by intros [= <- _].
  - apply IH.
  - by intros [= <- _].
Qed.

(** C4, where it fails. A canary tick in which the release source answers
    that no asset matches the pattern: [handleCanaryRelease] formats that
    error into a new one with [%s], the tests of the loop do not recognise
    it, and the turn returns it: the loop ends instead of going on. *)
Theorem canary_no_matching_asset_ends_the_loop
  (config : Config) (s : State) (w w1 w2 w3 : World G) last stable g h evs :
  SaveMemberState s w = (Ok tt, w1) →
  GetLastInstalledTag s w1 = (Ok last, w2) →
  CurrentStableTag s w2 = (Ok stable, w3) →
  DownloadReleaseAsset LatestTag (github w3) (host w3)
  = (Err (Sentinel ErrAssetsNotFound), g, h, evs) →
  ∃ w',
    handleCanaryRelease config s w
    = (Err (ErrorString "can't get release asset: no match assets"), w')
    ∧ canary_case config s w
      = (Ok (Return_ (Some (ErrorString "can't get release asset: no match assets"))),
         w')
    ∧ ∀ once rest w0,
        sched w0 = gitTicker :: rest → set_sched rest w0 = w →
        runServer once config s w0
        = (Ok (Some (ErrorString "can't get release asset: no match assets")), w').
Proof.
  intros H1 H2 H3 H4.
  assert (Hh : ∃ w', handleCanaryRelease config s w
                     = (Err (ErrorString "can't get release asset: no match assets"),
                        w')).
  { unfold handleCanaryRelease, bind, try. rewrite H1, H2, H3.
    unfold github_DownloadReleaseAsset. rewrite H4. eauto. }
  destruct Hh as [w' Hh]. exists w'. split; [done|].
  assert (Hc : canary_case config s w
               = (Ok (Return_ (Some (ErrorString
                                       "can't get release asset: no match assets"))),
                  w')).
  { unfold canary_case, bind, try. by rewrite Hh. }
  split; [done|].
  intros once rest w0 Hs <-. unfold runServer. cbn [serve]. rewrite Hs.
  unfold bind. by rewrite Hc.
Qed.

End Loop.

Lemma canary_no_matching_asset_ends_the_loop_witness :
  let w0 := Demo.world (Demo.db_of [] [])
              (Demo.github_of
                 (Demo.remote (Demo.release "v2" 20 [Demo.checksums 7]) []))
              "v1" [] [gitTicker; rolloutTicker] in
  let w := set_sched [rolloutTicker] w0 in
  let s := Demo.state in
  GitHub_DownloadReleaseAsset (P:=Demo.platform) LatestTag (github w0) (host w0)
  = (Err (Sentinel ErrAssetsNotFound), github w0, host w0,
     [ApiRequest "GetLatestRelease" ""])
  ∧ ∃ w',
      handleCanaryRelease Demo.cfg s w
      = (Err (ErrorString "can't get release asset: no match assets"), w')
      ∧ canary_case Demo.cfg s w
        = (Ok (Return_ (Some (ErrorString "can't get release asset: no match assets"))),
           w')
      ∧ ∀ once rest w0',
          sched w0' = gitTicker :: rest → set_sched rest w0' = w →
          runServer once Demo.cfg s w0'
          = (Ok (Some (ErrorString "can't get release asset: no match assets")), w').
Proof.
  intros w0 w s. split; [vm_compute; reflexivity|].
  apply (canary_no_matching_asset_ends_the_loop Demo.cfg s w
           (SaveMemberState s w).2
           (GetLastInstalledTag s (SaveMemberState s w).2).2
           (CurrentStableTag s (GetLastInstalledTag s (SaveMemberState s w).2).2).2
           "v1" "" (github w0) (host w0) [ApiRequest "GetLatestRelease" ""]);
    vm_compute; reflexivity.
Defined.

(** The same tick, run from [runServer]: the process ends on the first
    canary tick, and the rollout tick that the schedule holds is never
    served. *)
Example runServer_ends_when_no_asset_matches :
  let w0 := Demo.world (Demo.db_of [] [])
              (Demo.github_of
                 (Demo.remote (Demo.release "v2" 20 [Demo.checksums 7]) []))
              "v1" [] [gitTicker; rolloutTicker] in
  let r := runServer false Demo.cfg Demo.state w0 in
  r.1 = Ok (Some (ErrorString "can't get release asset: no match assets"))
  ∧ sched r.2 = [rolloutTicker]
  ∧ invocations "deploy" (trace r.2) = 0%nat.
Proof. vm_compute. repeat split. Qed.

(** A rollout tick for a stable tag that is in the avoid set, on a node
    that runs another version: [CanInstallTag] answers [ErrAvoidReleaseTag],
    for which the rollout turn has no test, and the loop ends. *)
Example runServer_ends_when_stable_tag_is_avoided :
  let w0 := Demo.world
              (Demo.db_of
                 [("acme/app_stable_release_tag",
                   Redis.Entry (Redis.VString "v2") None);
                  ("acme/app_avoid_release_tag",
                   Redis.Entry (Redis.VSet {["v2"]}) None)] [])
              (Demo.github_of
                 (Demo.remote (Demo.release "v2" 20 [Demo.tarball 7]) []))
              "v1" [] [rolloutTicker; gitTicker] in
  let r := runServer false Demo.cfg Demo.state w0 in
  r.1 = Ok (Some (Sentinel ErrAvoidReleaseTag))
  ∧ sched r.2 = [gitTicker].
Proof. vm_compute. repeat split. Qed.

(** The conditions that the loop does pass over, run: a canary tick for the
    version that is installed, and one for a tag of the avoid set. *)
Example runServer_passes_over_installed_and_avoided :
  let g := Demo.github_of (Demo.remote (Demo.release "v2" 20 [Demo.tarball 7]) []) in
  let installed :=
    Demo.world (Demo.db_of [] []) g "v2" [] [gitTicker] in
  let avoided :=
    Demo.world
      (Demo.db_of [("acme/app_avoid_release_tag",
                    Redis.Entry (Redis.VSet {["v2"]}) None)] [])
      g "v1" [] [gitTicker] in
  (runServer true Demo.cfg Demo.state installed).1 = Ok None
  ∧ (canary_case Demo.cfg Demo.state installed).1 = Ok Continue
  ∧ (handleCanaryRelease Demo.cfg Demo.state installed).1
    = Err (Sentinel ErrAlreadyInstalled)
  ∧ (runServer true Demo.cfg Demo.state avoided).1 = Ok None
  ∧ (handleCanaryRelease Demo.cfg Demo.state avoided).1
    = Err (Sentinel ErrAvoidReleaseTag).
Proof. vm_compute. repeat split. Qed.


(* ===================================================================== *)
(** * Start-up and the choice of a release *)
(* ===================================================================== *)

Lemma strings_Split_length s sep :
  length (strings_Split s sep) = Datatypes.S (count_char sep s).
Proof.
  induction s as [|c rest IH]; [done|]. cbn [strings_Split count_char].
  destruct (Ascii.eqb c sep); cbn [length]; [by rewrite IH|].
  destruct (strings_Split rest sep); cbn in *; lia.
Qed.

Lemma strings_Split_one s sep piece :
  strings_Split s sep = [piece] → s = piece ∧ count_char sep piece = 0%nat.
Proof.
  revert piece. induction s as [|c rest IH]; intros piece; cbn [strings_Split].
  { intros [= <-]. done. }
  destruct (Ascii.eqb c sep) eqn:Ec.
  { intros [= _ E]. pose proof (strings_Split_length rest sep) as L.
    rewrite E in L. discriminate. }
  destruct (strings_Split rest sep) as [|p ps] eqn:E.
  { pose proof (strings_Split_length rest sep) as L. rewrite E in L. discriminate. }
  intros [= <- ->]. destruct (IH p eq_refl) as [-> Hc]. split; [done|].
  cbn [count_char]. by rewrite Ec.
Qed.

Lemma strings_Split_two s sep a b :
  strings_Split s sep = [a; b] →
  s = a +:+ String sep b
  ∧ count_char sep a = 0%nat ∧ count_char sep b = 0%nat.
Proof.
  revert a. induction s as [|c rest IH]; intros a; cbn [strings_Split]; [done|].
  destruct (Ascii.eqb c sep) eqn:Ec.
  { intros [= <- E]. apply Ascii.eqb_eq in Ec as ->.
    destruct (strings_Split_one _ _ _ E) as [-> Hc]. done. }
  destruct (strings_Split rest sep) as [|p ps] eqn:E; [done|].
  intros [= <- ->]. destruct (IH p eq_refl) as (-> & Ha & Hb).
  repeat split; [|done]. cbn [count_char]. by rewrite Ec.
Qed.

Section NewGitHubFacts.
Variable regexp_Compile : string → option (string → bool).
Variable factory_NewGithubClient : gmap string string → Remote.

Lemma NewGitHub_invalid_repo (config : Config) (environ : gmap string string) :
  count_char "/" (Repo config) ≠ 1%nat →
  (NewGitHub regexp_Compile factory_NewGithubClient config environ).1
  = Err (ErrorString ("invalid repo: " +:+ Repo config)).
Proof.
  intros Hc. unfold NewGitHub. cbn [fst].
  pose proof (strings_Split_length (Repo config) "/") as L.
  destruct (strings_Split (Repo config) "/") as [|a [|b [|c l]]];
    cbn [length] in L; try done. lia.
Qed.

(** X1. [NewGitHub] accepts a repository name exactly when it has one
    slash: it then splits it into an owner and a repository without a
    slash, either of which may be empty, that put together again give the
    name, and it starts with an empty cache; a name with no slash or with
    more than one is the error "invalid repo", returned before the pattern
    is compiled; a pattern that does not compile is a panic.  The token of
    the configuration is put in the environment only when the environment
    has none. *)
Theorem NewGitHub_splits_repo (config : Config) (environ : gmap string string) :
  let r := NewGitHub regexp_Compile factory_NewGithubClient config environ in
  match r.1 with
  | Ok g =>
      count_char "/" (Repo config) = 1%nat
      ∧ Repo config = owner g +:+ "/" +:+ repo g
      ∧ count_char "/" (owner g) = 0%nat ∧ count_char "/" (repo g) = 0%nat
      ∧ regexp_Compile (PackageNamePattern config) = Some (regPackageNamePattern g)
      ∧ gh_config g = config ∧ lastTag g = "" ∧ lastAssetFile g = ""
      ∧ client g = factory_NewGithubClient r.2
  | Err e =>
      count_char "/" (Repo config) ≠ 1%nat
      ∧ e = ErrorString ("invalid repo: " +:+ Repo config)
  | Halt _ =>
      count_char "/" (Repo config) = 1%nat
      ∧ regexp_Compile (PackageNamePattern config) = None
  end
  ∧ os_Getenv r.2 "GITHUB_TOKEN"
    = (if String.eqb (os_Getenv environ "GITHUB_TOKEN") "" then GitHubToken config
       else os_Getenv environ "GITHUB_TOKEN").
Proof.
  intros r. subst r. unfold NewGitHub. cbn [fst snd]. split.
  - pose proof (strings_Split_length (Repo config) "/") as L.
    destruct (strings_Split (Repo config) "/") as [|a [|b [|c l]]] eqn:E;
      cbn [length] in L; try (split; [lia|done]).
    destruct (strings_Split_two _ _ _ _ E) as (HR & Ha & Hb).
    assert (count_char "/" (Repo config) = 1%nat) by lia.
    destruct (regexp_Compile (PackageNamePattern config)) eqn:Ere; cbn; done.
  - destruct (String.eqb (os_Getenv environ "GITHUB_TOKEN") "") eqn:Et; [|done].
    unfold os_Getenv. by rewrite lookup_insert_eq.
Qed.


End NewGitHubFacts.

(** ** The pre-releases *)

Lemma newer_first_dated a b : newer_first a b → dated a ∧ dated b.
Proof.
  unfold newer_first, dated.
  destruct (PublishedAt a), (PublishedAt b); done.
Qed.

Lemma newer_first_trans a b c : newer_first a b → newer_first b c → newer_first a c.
Proof.
  unfold newer_first.
  destruct (PublishedAt a), (PublishedAt b), (PublishedAt c); try done. lia.
Qed.

Lemma sort_inner_spec x rest :
  match sort_inner x rest with
  | Some (x', out) =>
      x' :: out ≡ₚ x :: rest ∧ Forall (newer_first x') out
      ∧ ∀ tx, PublishedAt x = Some tx →
              ∃ tx', PublishedAt x' = Some tx' ∧ tx ≤ tx'
  | None => rest ≠ [] ∧ ∃ r, r ∈ x :: rest ∧ PublishedAt r = None
  end.
Proof.
  revert x. induction rest as [|y rest IH]; intros x; cbn [sort_inner].
  { split; [done|]. split; [constructor|]. intros tx Hx. exists tx.
    split; [done|lia]. }
  unfold published_before.
  destruct (PublishedAt x) as [tx|] eqn:Ex.
  2:{ split; [done|]. exists x. split; [apply list_elem_of_here|done]. }
  destruct (PublishedAt y) as [ty|] eqn:Ey.
  2:{ split; [done|]. exists y.
      split; [apply list_elem_of_further, list_elem_of_here|done]. }
  destruct (tx <? ty) eqn:E.
  - apply Z.ltb_lt in E. specialize (IH y).
    destruct (sort_inner y rest) as [[x' out]|].
    + destruct IH as (Hp & Hf & Hle).
      destruct (Hle ty Ey) as (tx' & Ex' & Hty).
      split; [|split].
      * etrans; [apply Permutation_swap|]. by apply perm_skip.
      * constructor; [|done]. unfold newer_first. rewrite Ex', Ex. lia.
      * intros ? [= <-]. exists tx'. split; [done|lia].
    + destruct IH as (Hne & r & Hin & Hr). split; [done|].
      exists r. split; [by apply list_elem_of_further|done].
  - apply Z.ltb_ge in E. specialize (IH x).
    destruct (sort_inner x rest) as [[x' out]|].
    + destruct IH as (Hp & Hf & Hle).
      destruct (Hle tx Ex) as (tx' & Ex' & Htx).
      split; [|split].
      * etrans; [apply Permutation_swap|]. etrans; [apply perm_skip, Hp|].
        apply Permutation_swap.
      * constructor; [|done]. unfold newer_first. rewrite Ex', Ey. lia.
      * intros ? [= <-]. exists tx'. split; [done|lia].
    + destruct IH as (Hne & r & Hin & Hr). split; [done|].
      exists r. split; [|done].
      apply elem_of_cons in Hin as [->|Hin]; [apply list_elem_of_here|].
      by do 2 apply list_elem_of_further.
Qed.

Lemma sort_outer_spec n l :
  (length l ≤ n)%nat →
  match sort_outer n l with
  | Some sorted => sorted ≡ₚ l ∧ StronglySorted newer_first sorted
  | None => compares_undated l
  end.
Proof.
  revert l. induction n as [|n IH]; intros [|x rest] Hn; cbn [sort_outer].
  1, 3: split; [done|apply SSorted_nil].
  { cbn in Hn. lia. }
  pose proof (sort_inner_spec x rest) as Hinner.
  destruct (sort_inner x rest) as [[x' rest']|].
  2:{ destruct Hinner as (Hne & r & Hin & Hr). split; [|by exists r].
      destruct rest; [done|]. cbn. lia. }
  destruct Hinner as (Hp & Hf & _).
  assert (length rest' = length rest) as Hl.
  { apply Permutation_length in Hp. cbn in Hp. lia. }
  specialize (IH rest'). destruct (sort_outer n rest') as [sorted|].
  - destruct IH as [Hp' Hs']; [cbn in Hn; lia|]. split.
    + by rewrite Hp'.
    + constructor; [done|]. by rewrite Hp'.
  - destruct IH as [Hlen (r & Hin & Hr)]; [cbn in Hn; lia|]. split.
    + cbn. lia.
    + exists r. split; [|done]. rewrite <- Hp. by apply list_elem_of_further.
Qed.

Lemma sorted_dated l :
  StronglySorted newer_first l → (2 ≤ length l)%nat → Forall dated l.
Proof.
  intros Hs Hl. destruct l as [|a [|b l]]; [cbn in Hl; lia..|].
  apply StronglySorted_inv in Hs as [Hs Hf].
  apply Forall_cons in Hf as [Hab Hf].
  constructor; [by apply (newer_first_dated a b)|].
  constructor; [by apply (newer_first_dated a b)|].
  eapply Forall_impl; [exact Hf|]. intros c Hc. by apply (newer_first_dated a c).
Qed.

Lemma sort_by_published_desc_None l :
  sort_by_published_desc l = None ↔ compares_undated l.
Proof.
  unfold sort_by_published_desc.
  pose proof (sort_outer_spec (length l) l (le_n _)) as H.
  destruct (sort_outer (length l) l) as [sorted|]; [|done].
  destruct H as [Hp Hs]. split; [done|].
  intros [Hlen (r & Hin & Hr)]. exfalso.
  assert (Hd : Forall dated sorted).
  { apply sorted_dated; [done|]. by rewrite (Permutation_length Hp). }
  rewrite Forall_forall in Hd. rewrite <- Hp in Hin.
  destruct (Hd r Hin) as [t Ht]. congruence.
Qed.

(** X2. The sort of [searchReleaseWithPreRelease] (two nested loops that
    swap [allReleases[i]] and [allReleases[j]]) dereferences the publication
    time of the releases that it compares: it stops on a nil pointer exactly
    when there are at least two releases and one of them has no publication
    time; otherwise it leaves the same releases, newest first. *)
Theorem sort_by_published_desc_sorted (allReleases : list RepositoryRelease) :
  (sort_by_published_desc allReleases = None ↔ compares_undated allReleases)
  ∧ (¬ compares_undated allReleases →
     ∃ sorted, sort_by_published_desc allReleases = Some sorted)
  ∧ ∀ sorted, sort_by_published_desc allReleases = Some sorted →
      sorted ≡ₚ allReleases ∧ StronglySorted newer_first sorted.
Proof.
  split; [apply sort_by_published_desc_None|]. split.
  - intros Hno. destruct (sort_by_published_desc allReleases) eqn:E; [eauto|].
    by apply sort_by_published_desc_None in E.
  - intros sorted E. unfold sort_by_published_desc in E.
    pose proof (sort_outer_spec (length allReleases) allReleases (le_n _)) as H.
    by rewrite E in H.
Qed.

Lemma first_prerelease_spec l :
  match first_prerelease l with
  | Some r =>
      ∃ before after,
        l = before ++ r :: after ∧ published_prerelease r
        ∧ Forall (λ r', ¬ published_prerelease r') before
  | None => Forall (λ r', ¬ published_prerelease r') l
  end.
Proof.
  induction l as [|r rest IH]; cbn [first_prerelease]; [constructor|].
  assert (Hskip : ¬ published_prerelease r →
    match first_prerelease rest with
    | Some r0 =>
        ∃ before after,
          r :: rest = before ++ r0 :: after ∧ published_prerelease r0
          ∧ Forall (λ r', ¬ published_prerelease r') before
    | None => Forall (λ r', ¬ published_prerelease r') (r :: rest)
    end).
  { intros Hr. destruct (first_prerelease rest) as [r0|].
    - destruct IH as (before & after & -> & H0 & Hb).
      exists (r :: before), after. repeat split; [apply H0..|by constructor].
    - by constructor. }
  destruct (Draft r) eqn:Ed.
  { apply Hskip. intros [? ?]. congruence. }
  destruct (Prerelease r) eqn:Ep.
  - exists [], rest. repeat split; [done..|constructor].
  - apply Hskip. intros [? ?]. congruence.
Qed.

Lemma list_releases_pages pages allReleases :
  list_releases (inr <$> pages) allReleases = inr (allReleases ++ concat pages).
Proof.
  revert allReleases. induction pages as [|page pages IH]; intros acc; cbn.
  { by rewrite app_nil_r. }
  by rewrite IH, app_assoc.
Qed.

Lemma list_releases_error pages err rest allReleases :
  list_releases ((inr <$> pages) ++ inl err :: rest) allReleases = inl err.
Proof.
  revert allReleases. induction pages as [|page pages IH]; intros acc; cbn; [done|].
  apply IH.
Qed.

Lemma searchReleaseWithPreRelease_spec (g : GitHub)
  (pages : list (list RepositoryRelease)) :
  release_pages (client g) = inr <$> pages →
  match searchReleaseWithPreRelease g with
  | Ok r =>
      ¬ compares_undated (concat pages)
      ∧ r ∈ concat pages ∧ published_prerelease r
      ∧ ∀ r', r' ∈ concat pages → published_prerelease r' →
              r' = r ∨ newer_first r r'
  | Err e =>
      ¬ compares_undated (concat pages)
      ∧ e = Sentinel ErrAssetsNotFound
      ∧ ∀ r', r' ∈ concat pages → ¬ published_prerelease r'
  | Halt h =>
      h = Panicked "nil pointer dereference" ∧ compares_undated (concat pages)
  end.
Proof.
  intros Hpages. unfold searchReleaseWithPreRelease.
  rewrite Hpages, list_releases_pages. cbn [app].
  pose proof (sort_by_published_desc_None (concat pages)) as Hnone.
  pose proof (sort_outer_spec (length (concat pages)) (concat pages) (le_n _)) as H.
  fold (sort_by_published_desc (concat pages)) in H.
  destruct (sort_by_published_desc (concat pages)) as [sorted|]; [|done].
  destruct H as [Hp Hs].
  assert (Hno : ¬ compares_undated (concat pages)).
  { intros Hc. apply Hnone in Hc. done. }
  pose proof (first_prerelease_spec sorted) as H.
  destruct (first_prerelease sorted) as [r|].
  - destruct H as (before & after & E & Hr & Hb). rewrite E in Hp, Hs.
    split; [done|]. split; [|split; [done|]].
    + rewrite <- Hp. apply elem_of_app. right. apply list_elem_of_here.
    + intros r' Hin Hr'. rewrite <- Hp in Hin.
      apply elem_of_app in Hin as [Hin|Hin].
      { rewrite Forall_forall in Hb. by destruct (Hb r' Hin). }
      apply elem_of_cons in Hin as [->|Hin]; [by left|]. right.
      clear E Hp Hb. induction before as [|b before IH]; cbn in Hs.
      * apply StronglySorted_inv in Hs as [_ Hf].
        rewrite Forall_forall in Hf. by apply Hf.
      * apply StronglySorted_inv in Hs as [Hs _]. by apply IH.
  - split; [done|]. split; [done|]. intros r' Hin. rewrite <- Hp in Hin.
    rewrite Forall_forall in H. by apply H.
Qed.

(** X3. When every page of the list of releases is served,
    [searchReleaseWithPreRelease] stops on a nil pointer exactly when the
    pages hold at least two releases and one of them, draft or not, has no
    publication time.  Otherwise it returns a release of one of the pages
    that is a pre-release and not a draft, when there is one, and no such
    release of any page was published after it; and it returns
    [ErrAssetsNotFound] when there is none; it returns no other error.  An
    error on a page is returned as it is, the pages after it unread. *)
Theorem searchReleaseWithPreRelease_newest (g : GitHub)
  (pages : list (list RepositoryRelease)) :
  release_pages (client g) = inr <$> pages →
  (searchReleaseWithPreRelease g = Halt (Panicked "nil pointer dereference")
   ↔ compares_undated (concat pages))
  ∧ (∀ h, searchReleaseWithPreRelease g = Halt h →
          h = Panicked "nil pointer dereference")
  ∧ ((∃ r, searchReleaseWithPreRelease g = Ok r)
     ↔ ¬ compares_undated (concat pages)
       ∧ ∃ r', r' ∈ concat pages ∧ published_prerelease r')
  ∧ (∀ r, searchReleaseWithPreRelease g = Ok r →
          r ∈ concat pages ∧ published_prerelease r
          ∧ ∀ r', r' ∈ concat pages → published_prerelease r' →
                  r' = r ∨ newer_first r r')
  ∧ (searchReleaseWithPreRelease g = Err (Sentinel ErrAssetsNotFound)
     ↔ ¬ compares_undated (concat pages)
       ∧ ∀ r', r' ∈ concat pages → ¬ published_prerelease r')
  ∧ (∀ e, searchReleaseWithPreRelease g = Err e → e = Sentinel ErrAssetsNotFound)
  ∧ (∀ err rest g',
       release_pages (client g') = (inr <$> pages) ++ inl err :: rest →
       searchReleaseWithPreRelease g' = Err (ErrorString err)).
Proof.
  intros Hpages.
  pose proof (searchReleaseWithPreRelease_spec g pages Hpages) as H.
  split; [|split; [|split; [|split; [|split; [|split]]]]].
  - split.
    + intros E. rewrite E in H. by destruct H.
    + intros Hc. destruct (searchReleaseWithPreRelease g) as [r|e|h].
      * by destruct H as [Hno _].
      * by destruct H as [Hno _].
      * by destruct H as [-> _].
  - intros h E. rewrite E in H. by destruct H.
  - split.
    + intros [r E]. rewrite E in H. destruct H as (Hno & Hin & Hr & _).
      split; [done|]. by exists r.
    + intros [Hno (r' & Hin & Hr')].
      destruct (searchReleaseWithPreRelease g) as [r|e|h]; [by exists r| |].
      * destruct H as (_ & _ & Hnone). by destruct (Hnone r' Hin).
      * by destruct H as [_ Hc].
  - intros r E. rewrite E in H. by destruct H as (_ & ? & ? & ?).
  - split.
    + intros E. rewrite E in H. by destruct H as (? & _ & ?).
    + intros [Hno Hnone]. destruct (searchReleaseWithPreRelease g) as [r|e|h].
      * destruct H as (_ & Hin & Hr & _). by destruct (Hnone r Hin).
      * by destruct H as (_ & -> & _).
      * by destruct H as [_ Hc].
  - intros e E. rewrite E in H. by destruct H as (_ & ? & _).
  - intros err rest g' Hg'. unfold searchReleaseWithPreRelease.
    by rewrite Hg', list_releases_error.
Qed.

Section Latest.
Context {P : Platform}.

(** X4. With pre-releases included and the latest release served,
    "latest" is the newest of the latest release and the published
    pre-releases: the pre-release that [searchReleaseWithPreRelease] found
    when it was published after the latest release, and the latest release
    otherwise, also when the two were published at the same instant.  The
    comparison dereferences the publication times: the selection stops on a
    nil pointer exactly when the sort of the list does, or when a
    pre-release was found and it or the latest release has no publication
    time; it does not when every release has one. *)
Theorem select_release_latest_newest (g : GitHub)
  (pages : list (list RepositoryRelease)) (r : RepositoryRelease) :
  IncludePreRelease (gh_config g) = true →
  release_pages (client g) = inr <$> pages →
  latest_release (client g) = inr r →
  match (select_release g LatestTag).1 with
  | Ok (Some chosen) =>
      (chosen = r
       ∨ (chosen ∈ concat pages ∧ published_prerelease chosen
          ∧ newer_first chosen r ∧ ¬ newer_first r chosen))
      ∧ (chosen = r ∨ newer_first chosen r)
      ∧ ∀ r', r' ∈ concat pages → published_prerelease r' →
              r' = chosen ∨ newer_first chosen r'
  | Halt h =>
      h = Panicked "nil pointer dereference"
      ∧ (compares_undated (concat pages)
         ∨ ∃ pre, searchReleaseWithPreRelease g = Ok pre
                  ∧ (PublishedAt r = None ∨ PublishedAt pre = None))
  | _ => False
  end
  ∧ (Forall dated (concat pages) → dated r →
     ∃ chosen, (select_release g LatestTag).1 = Ok (Some chosen)).
Proof.
  intros Hinc Hpages Hlatest. unfold select_release.
  change (String.eqb LatestTag LatestTag) with true. cbn match.
  rewrite Hlatest, Hinc.
  pose proof (searchReleaseWithPreRelease_spec g pages Hpages) as H.
  destruct (searchReleaseWithPreRelease g) as [pre|e|h].
  - destruct H as (Hno & Hin & Hpre & Hmax).
    unfold published_before.
    destruct (PublishedAt r) as [tr|] eqn:Er.
    2:{ cbn [fst]. split; [split; [done|]; right; exists pre; by split; [|left]|].
        intros _ [t Ht]. congruence. }
    destruct (PublishedAt pre) as [tp|] eqn:Ep.
    2:{ cbn [fst]. split; [split; [done|]; right; exists pre; by split; [|right]|].
        intros Hd _. rewrite Forall_forall in Hd.
        destruct (Hd pre Hin) as [t Ht]. congruence. }
    destruct (tr <? tp) eqn:E; cbn [fst]; (split; [|by eauto]).
    + apply Z.ltb_lt in E.
      assert (Hnew : newer_first pre r) by (unfold newer_first; rewrite Ep, Er; lia).
      assert (Hold : ¬ newer_first r pre) by (unfold newer_first; rewrite Ep, Er; lia).
      split; [by right|]. split; [by right|done].
    + apply Z.ltb_ge in E.
      assert (Hnew : newer_first r pre) by (unfold newer_first; rewrite Ep, Er; lia).
      split; [by left|]. split; [by left|].
      intros r' Hr' Hp'. right.
      destruct (Hmax r' Hr' Hp') as [->|Hle]; [done|].
      by eapply newer_first_trans.
  - destruct H as (Hno & -> & Hnone). cbn [fst]. split; [|by eauto].
    split; [by left|]. split; [by left|].
    intros r' Hin Hr'. by destruct (Hnone r' Hin).
  - destruct H as [-> Hc]. cbn [fst]. split; [split; [done|by left]|].
    intros Hd _. exfalso. destruct Hc as [_ (r0 & Hin & Hr0)].
    rewrite Forall_forall in Hd. destruct (Hd r0 Hin) as [t Ht]. congruence.
Qed.

(** X5. When the request for the latest release fails: without
    pre-releases, [DownloadReleaseAsset] returns an error that [errors.Is]
    recognises as [ErrAssetsCannotDownload], and nothing else is asked; with
    pre-releases included the error is dropped, and the call goes on with the
    newest published pre-release if the search returns one; it stops on a
    nil pointer when the search finds none, the release being nil, and when
    the sort of the search does.  Nothing is written in either case of
    failure. *)
Theorem latest_release_failure (g : GitHub) (h : Host machine) (err : string)
  (pages : list (list RepositoryRelease)) :
  latest_release (client g) = inl err →
  release_pages (client g) = inr <$> pages →
  cache_hit g LatestTag = false →
  if IncludePreRelease (gh_config g) then
    match searchReleaseWithPreRelease g with
    | Ok pre =>
        (select_release g LatestTag).1 = Ok (Some pre)
        ∧ ¬ compares_undated (concat pages)
        ∧ published_prerelease pre
        ∧ ∀ r', r' ∈ concat pages → published_prerelease r' →
                r' = pre ∨ newer_first pre r'
    | Err _ =>
        ¬ compares_undated (concat pages)
        ∧ (∀ r', r' ∈ concat pages → ¬ published_prerelease r')
        ∧ GitHub_DownloadReleaseAsset LatestTag g h
          = (Halt (Panicked "nil pointer dereference"), g, h,
             [ApiRequest "ListReleases" ""; ApiRequest "GetLatestRelease" ""])
    | Halt _ =>
        compares_undated (concat pages)
        ∧ GitHub_DownloadReleaseAsset LatestTag g h
          = (Halt (Panicked "nil pointer dereference"), g, h,
             [ApiRequest "ListReleases" ""; ApiRequest "GetLatestRelease" ""])
    end
  else
    ∃ e, GitHub_DownloadReleaseAsset LatestTag g h
         = (Err e, g, h, [ApiRequest "GetLatestRelease" ""])
         ∧ errors_Is e ErrAssetsCannotDownload = true
         ∧ errors_Is e ErrAssetsNotFound = false.
Proof.
  intros Hlatest Hpages Hmiss.
  unfold GitHub_DownloadReleaseAsset. fold (cache_hit g LatestTag). rewrite Hmiss.
  unfold select_release.
  change (String.eqb LatestTag LatestTag) with true. cbn match.
  rewrite Hlatest.
  destruct (IncludePreRelease (gh_config g)).
  - pose proof (searchReleaseWithPreRelease_spec g pages Hpages) as H.
    destruct (searchReleaseWithPreRelease g) as [pre|e|hl].
    + destruct H as (Hno & Hin & Hpre & Hmax). cbn. done.
    + destruct H as (Hno & -> & Hnone). split; [done|]. split; [done|]. cbn. done.
    + destruct H as [-> Hc]. split; [done|]. cbn. done.
  - eexists. split; [reflexivity|]. done.
Qed.

End Latest.

Lemma searchReleaseWithPreRelease_newest_witness :
  let rc1 := Sample.prerelease "v3-rc1" 30 [] in
  let rc2 := Sample.prerelease "v3-rc2" 40 [] in
  let pages := [[Demo.release "v2" 20 []; rc1]; [Sample.draft "v4" 50 []; rc2]] in
  let g := Sample.github_of Sample.cfg_prerelease
             (Sample.paged (inr (Demo.release "v2" 20 [])) pages Sample.whole) in
  let undated := [[Sample.unpublished "v5"; rc2]] in
  let g' := Sample.github_of Sample.cfg_prerelease
              (Sample.paged (inr (Demo.release "v2" 20 [])) undated Sample.whole) in
  (release_pages (client g) = inr <$> pages
   ∧ release_pages (client g') = inr <$> undated)
  ∧ searchReleaseWithPreRelease g = Ok rc2
  ∧ searchReleaseWithPreRelease g' = Halt (Panicked "nil pointer dereference")
  ∧ (searchReleaseWithPreRelease g' = Halt (Panicked "nil pointer dereference")
     ↔ compares_undated (concat undated))
  ∧ (∀ r, searchReleaseWithPreRelease g = Ok r →
          r ∈ concat pages ∧ published_prerelease r
          ∧ ∀ r', r' ∈ concat pages → published_prerelease r' →
                  r' = r ∨ newer_first r r').
Proof.
  intros rc1 rc2 pages g undated g'.
  assert (H : release_pages (client g) = inr <$> pages) by reflexivity.
  assert (H' : release_pages (client g') = inr <$> undated) by reflexivity.
  split; [exact (conj H H')|]. split; [reflexivity|]. split; [reflexivity|].
  split.
  - exact (proj1 (searchReleaseWithPreRelease_newest g' undated H')).
  - exact (proj1 (proj2 (proj2 (proj2
             (searchReleaseWithPreRelease_newest g pages H))))).
Defined.

Lemma select_release_latest_newest_witness :
  let v2 := Demo.release "v2" 20 [] in
  let rc1 := Sample.prerelease "v3-rc1" 30 [] in
  let rc2 := Sample.prerelease "v3-rc2" 40 [] in
  let pages := [[v2; rc1]; [Sample.draft "v4" 50 []; rc2]] in
  let g := Sample.github_of Sample.cfg_prerelease
             (Sample.paged (inr v2) pages Sample.whole) in
  (IncludePreRelease (gh_config g) = true
   ∧ release_pages (client g) = inr <$> pages
   ∧ latest_release (client g) = inr v2)
  ∧ (select_release g LatestTag).1 = Ok (Some rc2)
  ∧ (Forall dated (concat pages) → dated v2 →
     ∃ chosen, (select_release g LatestTag).1 = Ok (Some chosen)).
Proof.
  intros v2 rc1 rc2 pages g.
  assert (H1 : IncludePreRelease (gh_config g) = true) by reflexivity.
  assert (H2 : release_pages (client g) = inr <$> pages) by reflexivity.
  assert (H3 : latest_release (client g) = inr v2) by reflexivity.
  split; [exact (conj H1 (conj H2 H3))|]. split; [reflexivity|].
  exact (proj2 (select_release_latest_newest g pages v2 H1 H2 H3)).
Defined.

(** The same selection when the list holds a draft that was never
    published: the sort compares it, and the selection stops. *)
Example select_release_with_an_unpublished_draft :
  let v2 := Demo.release "v2" 20 [] in
  let pages := [[Sample.unpublished "v5"; v2]] in
  let g := Sample.github_of Sample.cfg_prerelease
             (Sample.paged (inr v2) pages Sample.whole) in
  select_release g LatestTag
  = (Halt (Panicked "nil pointer dereference"),
     [ApiRequest "ListReleases" ""; ApiRequest "GetLatestRelease" ""]).
Proof. reflexivity. Qed.

Lemma latest_release_failure_witness :
  let pages := [[Sample.draft "v4" 50 [Demo.tarball 9]]] in
  let g := Sample.github_of Sample.cfg_prerelease
             (Sample.paged (inl "404 Not Found") pages Sample.whole) in
  let h := Sample.bare "v1" in
  (latest_release (client g) = inl "404 Not Found"
   ∧ release_pages (client g) = inr <$> pages
   ∧ cache_hit g LatestTag = false)
  ∧ (GitHub_DownloadReleaseAsset (P:=Demo.platform) LatestTag g h).1.1.1
    = Halt (Panicked "nil pointer dereference")
  ∧ if IncludePreRelease (gh_config g) then
      match searchReleaseWithPreRelease g with
      | Ok pre =>
          (select_release g LatestTag).1 = Ok (Some pre)
          ∧ ¬ compares_undated (concat pages)
          ∧ published_prerelease pre
          ∧ ∀ r', r' ∈ concat pages → published_prerelease r' →
                  r' = pre ∨ newer_first pre r'
      | Err _ =>
          ¬ compares_undated (concat pages)
          ∧ (∀ r', r' ∈ concat pages → ¬ published_prerelease r')
          ∧ GitHub_DownloadReleaseAsset (P:=Demo.platform) LatestTag g h
            = (Halt (Panicked "nil pointer dereference"), g, h,
               [ApiRequest "ListReleases" ""; ApiRequest "GetLatestRelease" ""])
      | Halt _ =>
          compares_undated (concat pages)
          ∧ GitHub_DownloadReleaseAsset (P:=Demo.platform) LatestTag g h
            = (Halt (Panicked "nil pointer dereference"), g, h,
               [ApiRequest "ListReleases" ""; ApiRequest "GetLatestRelease" ""])
      end
    else
      ∃ e, GitHub_DownloadReleaseAsset (P:=Demo.platform) LatestTag g h
           = (Err e, g, h, [ApiRequest "GetLatestRelease" ""])
           ∧ errors_Is e ErrAssetsCannotDownload = true
           ∧ errors_Is e ErrAssetsNotFound = false.
Proof.
  intros pages g h.
  assert (H1 : latest_release (client g) = inl "404 Not Found") by reflexivity.
  assert (H2 : release_pages (client g) = inr <$> pages) by reflexivity.
  assert (H3 : cache_hit g LatestTag = false) by reflexivity.
  split; [exact (conj H1 (conj H2 H3))|]. split; [reflexivity|].
  exact (latest_release_failure (P:=Demo.platform) g h "404 Not Found" pages
           H1 H2 H3).
Defined.


(* ===================================================================== *)
(** * Asset files *)
(* ===================================================================== *)

Section AssetFiles.
Context {P : Platform}.

Lemma DownloadReleaseAsset_miss tag g (h : Host machine) release asset evs :
  cache_hit g tag = false →
  select_release g tag = (Ok (Some release), evs) →
  first_matching g (Assets release) = Some asset →
  GitHub_DownloadReleaseAsset tag g h
  = (let '(r, g', h', evs') := fetch_asset g release asset h in
     (r, g', h', evs' ++ evs)).
Proof.
  intros Hmiss Hsel Hfirst. unfold GitHub_DownloadReleaseAsset.
  fold (cache_hit g tag). by rewrite Hmiss, Hsel, Hfirst.
Qed.

(** X6. The path of an asset file is made of the directory and the name of
    the asset, not of the tag: when a regular file is already there,
    whatever it holds and whichever release left it, [DownloadReleaseAsset]
    returns the tag of the release that was asked for with that path;
    nothing is downloaded, the file is left as it is and the cache is not
    updated. *)
Theorem asset_file_is_reused_by_name tag g (h : Host machine)
  release asset evs content :
  cache_hit g tag = false →
  select_release g tag = (Ok (Some release), evs) →
  first_matching g (Assets release) = Some asset →
  fs h !! filepath_Join (SaveAssetsPath (gh_config g)) (asset_Name asset)
  = Some (Regular content) →
  GitHub_DownloadReleaseAsset tag g h
  = (Ok (TagName release,
         filepath_Join (SaveAssetsPath (gh_config g)) (asset_Name asset)),
     g, h, evs)
  ∧ no_transfer evs.
Proof.
  intros Hmiss Hsel Hfirst Hfile.
  rewrite (DownloadReleaseAsset_miss _ _ _ _ _ _ Hmiss Hsel Hfirst).
  rewrite (fetch_asset_present _ _ _ _ _ Hfile). split; [done|].
  pose proof (select_release_no_transfer g tag) as [Hn _]. by rewrite Hsel in Hn.
Qed.

(** X7. A transfer that breaks leaves the part that was read in the file,
    and the call returns the error without updating the cache; the next call
    for the same tag finds the file and returns its path as the asset,
    without downloading anything: the file still holds the part only. *)
Theorem broken_transfer_is_taken_for_the_asset tag g (h : Host machine)
  release asset evs partial :
  let path := filepath_Join (SaveAssetsPath (gh_config g)) (asset_Name asset) in
  cache_hit g tag = false →
  select_release g tag = (Ok (Some release), evs) →
  first_matching g (Assets release) = Some asset →
  fs h !! path = None → path ∉ unwritable h →
  asset_download (client g) (asset_ID asset) = inr (inl (BrokenBody partial)) →
  let first := GitHub_DownloadReleaseAsset tag g h in
  first.1.1.1 = Err (ErrorString "unexpected EOF")
  ∧ first.1.1.2 = g
  ∧ fs first.1.2 !! path = Some (Regular partial)
  ∧ downloads first.2 = 1%nat
  ∧ GitHub_DownloadReleaseAsset tag g first.1.2
    = (Ok (TagName release, path), g, first.1.2, evs)
  ∧ no_transfer evs.
Proof.
  intros path Hmiss Hsel Hfirst Hnone Hw Hserved first.
  assert (Efirst : first
    = (Err (ErrorString "unexpected EOF"), g,
       write_file path (Regular partial) h, [AssetDownload (asset_ID asset)] ++ evs)).
  { unfold first.
    rewrite (DownloadReleaseAsset_miss _ _ _ _ _ _ Hmiss Hsel Hfirst).
    unfold fetch_asset. fold path. rewrite Hnone, Hserved.
    rewrite bool_decide_eq_false_2 by done. done. }
  rewrite Efirst. cbn [fst snd].
  pose proof (select_release_no_transfer g tag) as [Hn Hd].
  rewrite Hsel in Hn, Hd. cbn [snd] in Hn, Hd.
  assert (Hfile : fs (write_file path (Regular partial) h) !! path
                  = Some (Regular partial)).
  { unfold write_file. cbn [fs]. apply lookup_insert_eq. }
  split; [done|]. split; [done|]. split; [done|]. split; [|split; [|done]].
  - unfold downloads in *. cbn. by rewrite Hd.
  - rewrite (DownloadReleaseAsset_miss _ _ _ _ _ _ Hmiss Hsel Hfirst).
    by rewrite (fetch_asset_present _ _ _ _ _ Hfile).
Qed.

Lemma select_release_latest_asks g :
  ApiRequest "GetLatestRelease" "" ∈ (select_release g LatestTag).2.
Proof.
  unfold select_release. change (String.eqb LatestTag LatestTag) with true.
  cbn match.
  destruct (latest_release (client g)), (IncludePreRelease (gh_config g));
    cbn [snd]; try apply list_elem_of_here;
    destruct (searchReleaseWithPreRelease g) as [pre|[[]| | |]|]; cbn [snd];
    repeat (destruct (published_before _ _) as [[]|]); cbn [snd];
    apply list_elem_of_further, list_elem_of_here.
Qed.

Lemma fetch_asset_cache g release asset (h : Host machine) :
  let g' := (fetch_asset g release asset h).1.1.2 in
  g' = g ∨ g' = with_cache (TagName release)
                  (filepath_Join (SaveAssetsPath (gh_config g)) (asset_Name asset)) g.
Proof.
  unfold fetch_asset.
  repeat (match goal with
          | |- context [match ?x with _ => _ end] => destruct x
          | |- context [if ?b then _ else _] => destruct b
          end; cbn [fst snd]); auto.
Qed.

(** X8. A request for "latest" is never answered from the cache as long
    as no release is itself tagged "latest": the latest release is asked for
    at every call, and a call that succeeds leaves in the cache the tag of
    the release, so that the same holds at the next call. *)
Theorem latest_is_asked_at_every_call g (h : Host machine) :
  lastTag g ≠ LatestTag →
  let r := GitHub_DownloadReleaseAsset LatestTag g h in
  ApiRequest "GetLatestRelease" "" ∈ r.2
  ∧ ∀ t p, r.1.1.1 = Ok (t, p) → t ≠ LatestTag → lastTag r.1.1.2 ≠ LatestTag.
Proof.
  intros Hlast r. subst r. unfold GitHub_DownloadReleaseAsset.
  assert (String.eqb LatestTag (lastTag g) = false) as ->.
  { apply String.eqb_neq. congruence. }
  rewrite andb_false_r. cbn [andb].
  pose proof (select_release_latest_asks g) as Hask.
  destruct (select_release g LatestTag) as [[[release|]|e|p] evs]; cbn [fst snd] in *;
    try (split; [done|intros; done]).
  destruct (first_matching g (Assets release)) as [asset|]; cbn [fst snd];
    [|split; [done|intros; done]].
  pose proof (fetch_asset_cache g release asset h) as Hc.
  pose proof (fetch_asset_Ok g release asset h) as Hok.
  destruct (fetch_asset g release asset h) as [[[r g'] h'] evs']. cbn [fst snd] in *.
  split; [apply elem_of_app; by right|].
  intros t p -> Ht. destruct (Hok t p g' h' evs' eq_refl) as (-> & _).
  destruct Hc as [->| ->]; [done|]. done.
Qed.

(** X26. The errors of [DownloadReleaseAsset].  An error that
    [errors.Is] recognises as [ErrAssetsNotFound] means that a release was
    found and none of its assets matches the pattern; one that it recognises
    as [ErrAssetsCannotDownload] means that the release could not be looked
    up: by its tag, or as the latest one when pre-releases are not included.
    Every other failure - of the list of releases, of the download itself, of
    the file - is an error that [errors.Is] recognises as neither.  No error
    changes the cache. *)
Theorem DownloadReleaseAsset_errors tag g (h : Host machine) e g' h' evs :
  GitHub_DownloadReleaseAsset tag g h = (Err e, g', h', evs) →
  (errors_Is e ErrAssetsNotFound = true
   ↔ ∃ release evs0, select_release g tag = (Ok (Some release), evs0)
                     ∧ first_matching g (Assets release) = None)
  ∧ (errors_Is e ErrAssetsCannotDownload = true
     ↔ (tag = LatestTag ∧ IncludePreRelease (gh_config g) = false
        ∧ ∃ err, latest_release (client g) = inl err)
       ∨ (tag ≠ LatestTag ∧ ∃ err, release_by_tag (client g) tag = inl err))
  ∧ g' = g.
Proof.
  unfold GitHub_DownloadReleaseAsset. destruct (_ && _); [done|].
  assert (Hsel : ∀ e0 evs0, select_release g tag = (Err e0, evs0) →
    errors_Is e0 ErrAssetsNotFound = false
    ∧ (errors_Is e0 ErrAssetsCannotDownload = true
       ↔ (tag = LatestTag ∧ IncludePreRelease (gh_config g) = false
          ∧ ∃ err, latest_release (client g) = inl err)
         ∨ (tag ≠ LatestTag ∧ ∃ err, release_by_tag (client g) tag = inl err))).
  { intros e0 evs0. unfold select_release.
    destruct (String.eqb tag LatestTag) eqn:Et.
    - apply String.eqb_eq in Et as ->.
      destruct (latest_release (client g)) as [err|r] eqn:El,
        (IncludePreRelease (gh_config g)) eqn:Ei.
      + destruct (searchReleaseWithPreRelease g) as [pre|[[]| | |]|]; intros [= <- _];
          (split; [done|]); split; try done;
          intros [(_ & ? & _)|(? & _)]; done.
      + intros [= <- _]. split; [done|]. split; [|done]. intros _. left. eauto.
      + destruct (searchReleaseWithPreRelease g) as [pre|[[]| | |]|];
          try (destruct (published_before _ _) as [[]|]); intros [= <- _];
          (split; [done|]); split; try done;
          intros [(_ & ? & _)|(? & _)]; done.
      + done.
    - apply String.eqb_neq in Et.
      destruct (release_by_tag (client g) tag) as [err|r] eqn:Er; [|done].
      intros [= <- _]. split; [done|]. split; [|done]. intros _. right. eauto. }
  assert (Hfound : ∀ release evs0, select_release g tag = (Ok (Some release), evs0) →
    ¬ ((tag = LatestTag ∧ IncludePreRelease (gh_config g) = false
        ∧ ∃ err, latest_release (client g) = inl err)
       ∨ (tag ≠ LatestTag ∧ ∃ err, release_by_tag (client g) tag = inl err))).
  { intros release evs0. unfold select_release.
    destruct (String.eqb tag LatestTag) eqn:Et.
    - apply String.eqb_eq in Et as ->.
      intros Hs [(_ & Hi & err & Hl)|(? & _)]; [|done].
      by rewrite Hl, Hi in Hs.
    - apply String.eqb_neq in Et.
      intros Hs [(? & _)|(_ & err & Hr)]; [done|]. by rewrite Hr in Hs. }
  destruct (select_release g tag) as [[[release|]|e0|p] evs0] eqn:Es; [| |intros [= <- <- _ _]|done];
    [| done |].
  - specialize (Hfound release evs0 eq_refl).
    destruct (first_matching g (Assets release)) as [asset|] eqn:Ef.
    + pose proof (fetch_asset_cache g release asset h) as Hc.
      assert (Hf : ∀ e1, (fetch_asset g release asset h).1.1.1 = Err e1 →
                ∃ msg, e1 = ErrorString msg).
      { intros e1. unfold fetch_asset.
        destruct (fs h !! _) as [[c|]|]; cbn [fst]; [done|intros [= <-]; eauto|].
        destruct (asset_download _ _) as [err|[b|loc]]; cbn [fst].
        - intros [= <-]. eauto.
        - destruct (bool_decide _); [intros [= <-]; eauto|].
          destruct b; [done|intros [= <-]; eauto].
        - destruct (String.eqb loc ""); cbn [fst].
          + destruct (bool_decide _); [intros [= <-]; eauto|done].
          + destruct (http_Do _ loc) as [err|b]; cbn [fst]; [intros [= <-]; eauto|].
            destruct (bool_decide _); [intros [= <-]; eauto|].
            destruct b; [done|intros [= <-]; eauto]. }
      assert (Hg : ∀ e1, (fetch_asset g release asset h).1.1.1 = Err e1 →
                (fetch_asset g release asset h).1.1.2 = g).
      { intros e1. unfold fetch_asset.
        destruct (fs h !! _) as [[c|]|]; cbn [fst snd]; [done..|].
        destruct (asset_download _ _) as [err|[b|loc]]; cbn [fst snd]; [done| |].
        - destruct (bool_decide _); [done|]. by destruct b.
        - destruct (String.eqb loc ""); cbn [fst snd].
          + by destruct (bool_decide _).
          + destruct (http_Do _ loc) as [err|b]; cbn [fst snd]; [done|].
            destruct (bool_decide _); [done|]. by destruct b. }
      destruct (fetch_asset g release asset h) as [[[r g1] h1] evs1].
      cbn [fst snd] in *. intros [= -> <- _ _].
      destruct (Hf e eq_refl) as [msg ->]. specialize (Hg _ eq_refl).
      split; [|split; [|done]].
      * split; [done|]. intros (r' & evs' & [= <- _] & Hnone). congruence.
      * split; [done|]. intros H. by destruct Hfound.
    + intros [= <- <- _ _]. split; [|split; [|done]].
      * split; [|done]. intros _. eauto.
      * split; [done|]. intros H. by destruct Hfound.
  - destruct (Hsel e0 evs0 eq_refl) as [Hn Hc]. split; [|split; [|done]].
    + rewrite Hn. split; [done|]. intros (r' & evs' & ? & _). done.
    + exact Hc.
Qed.

End AssetFiles.

Lemma asset_file_is_reused_by_name_witness :
  let v1 := Demo.release "v1" 10 [Demo.tarball 3] in
  let v2 := Demo.release "v2" 20 [Demo.checksums 6; Demo.tarball 7] in
  let g := Demo.github_of (Demo.remote v2 [v1]) in
  let h := Sample.bare "v1" in
  let first := GitHub_DownloadReleaseAsset (P:=Demo.platform) "v1" g h in
  let g1 := first.1.1.2 in
  let h1 := first.1.2 in
  first.1.1.1 = Ok ("v1", "/usr/local/src/app.tar.gz")
  ∧ cache_hit g1 "v2" = false
  ∧ select_release g1 "v2"
    = (Ok (Some v2), [ApiRequest "GetReleaseByTag" "v2"])
  ∧ first_matching g1 (Assets v2) = Some (Demo.tarball 7)
  ∧ fs h1 !! "/usr/local/src/app.tar.gz" = Some (Regular "binary")
  ∧ GitHub_DownloadReleaseAsset (P:=Demo.platform) "v2" g1 h1
    = (Ok ("v2", "/usr/local/src/app.tar.gz"), g1, h1,
       [ApiRequest "GetReleaseByTag" "v2"])
  ∧ no_transfer [ApiRequest "GetReleaseByTag" "v2"].
Proof.
  intros v1 v2 g h first g1 h1.
  split; [reflexivity|]. split; [reflexivity|]. split; [reflexivity|].
  split; [reflexivity|]. split; [reflexivity|].
  apply (asset_file_is_reused_by_name (P:=Demo.platform) "v2" g1 h1 v2
           (Demo.tarball 7) [ApiRequest "GetReleaseByTag" "v2"] "binary");
    reflexivity.
Defined.

Lemma broken_transfer_is_taken_for_the_asset_witness :
  let v2 := Demo.release "v2" 20 [Demo.tarball 7] in
  let g := Sample.github_of Demo.cfg (Sample.paged (inr v2) [[v2]] Sample.cut) in
  let h := Sample.bare "v1" in
  let path := "/usr/local/src/app.tar.gz" in
  let first := GitHub_DownloadReleaseAsset (P:=Demo.platform) "v2" g h in
  cache_hit g "v2" = false
  ∧ fs h !! path = None ∧ (path ∉ unwritable h)
  ∧ first.1.1.1 = Err (ErrorString "unexpected EOF")
  ∧ first.1.1.2 = g
  ∧ fs first.1.2 !! path = Some (Regular "bin")
  ∧ downloads first.2 = 1%nat
  ∧ GitHub_DownloadReleaseAsset (P:=Demo.platform) "v2" g first.1.2
    = (Ok ("v2", path), g, first.1.2, [ApiRequest "GetReleaseByTag" "v2"])
  ∧ no_transfer [ApiRequest "GetReleaseByTag" "v2"].
Proof.
  intros v2 g h path first.
  split; [reflexivity|]. split; [reflexivity|]. split; [apply not_elem_of_empty|].
  apply (broken_transfer_is_taken_for_the_asset (P:=Demo.platform) "v2" g h v2
           (Demo.tarball 7) [ApiRequest "GetReleaseByTag" "v2"] "bin");
    try reflexivity.
  apply not_elem_of_empty.
Defined.

Lemma latest_is_asked_at_every_call_witness :
  let v2 := Demo.release "v2" 20 [Demo.tarball 7] in
  let g := Demo.github_of (Demo.remote v2 []) in
  let h := Sample.bare "v1" in
  let first := GitHub_DownloadReleaseAsset (P:=Demo.platform) LatestTag g h in
  let g1 := first.1.1.2 in
  let r := GitHub_DownloadReleaseAsset (P:=Demo.platform) LatestTag g1 first.1.2 in
  first.1.1.1 = Ok ("v2", "/usr/local/src/app.tar.gz")
  ∧ lastTag g1 = "v2"
  ∧ lastTag g1 ≠ LatestTag
  ∧ ApiRequest "GetLatestRelease" "" ∈ r.2
  ∧ ∀ t p, r.1.1.1 = Ok (t, p) → t ≠ LatestTag → lastTag r.1.1.2 ≠ LatestTag.
Proof.
  intros v2 g h first g1 r.
  split; [reflexivity|]. split; [reflexivity|].
  assert (H : lastTag g1 ≠ LatestTag) by discriminate.
  split; [exact H|].
  exact (latest_is_asked_at_every_call (P:=Demo.platform) g1 first.1.2 H).
Defined.

Lemma DownloadReleaseAsset_errors_witness :
  let v2 := Demo.release "v2" 20 [Demo.checksums 7] in
  let g := Demo.github_of (Demo.remote v2 []) in
  let h := Sample.bare "v1" in
  let e := Sentinel ErrAssetsNotFound in
  GitHub_DownloadReleaseAsset (P:=Demo.platform) LatestTag g h
  = (Err e, g, h, [ApiRequest "GetLatestRelease" ""])
  ∧ (errors_Is e ErrAssetsNotFound = true
     ↔ ∃ release evs0, select_release g LatestTag = (Ok (Some release), evs0)
                       ∧ first_matching g (Assets release) = None)
  ∧ (errors_Is e ErrAssetsCannotDownload = true
     ↔ (LatestTag = LatestTag ∧ IncludePreRelease (gh_config g) = false
        ∧ ∃ err, latest_release (client g) = inl err)
       ∨ (LatestTag ≠ LatestTag
          ∧ ∃ err, release_by_tag (client g) LatestTag = inl err))
  ∧ g = g.
Proof.
  intros v2 g h e.
  assert (H : GitHub_DownloadReleaseAsset (P:=Demo.platform) LatestTag g h
              = (Err e, g, h, [ApiRequest "GetLatestRelease" ""])) by reflexivity.
  split; [exact H|].
  exact (DownloadReleaseAsset_errors (P:=Demo.platform) LatestTag g h e g h _ H).
Defined.


(* ===================================================================== *)
(** * Names in the store, and locks *)
(* ===================================================================== *)

Lemma append_cancel_r (a b x : string) : a +:+ x = b +:+ x → a = b.
Proof.
  assert (Hlen : ∀ s t, String.length (s +:+ t)
                        = (String.length s + String.length t)%nat).
  { induction s as [|c s IH]; intros t; simpl; [done|]. by rewrite IH. }
  revert b. induction a as [|c a IH]; intros [|c' b] E; simpl in E.
  - done.
  - apply (f_equal String.length) in E. simpl in E. rewrite ?Hlen in E.
    simpl in E. lia.
  - apply (f_equal String.length) in E. simpl in E. rewrite ?Hlen in E.
    simpl in E. lia.
  - injection E as -> E. f_equal. by apply IH.
Qed.

Ltac distinct_names :=
  match goal with
  | E : _ +:+ ":" +:+ ?p = ?p +:+ _ |- _ =>
      by apply me_not_suffixed in E
  | E : ?p +:+ _ = _ +:+ ":" +:+ ?p |- _ =>
      symmetry in E; by apply me_not_suffixed in E
  | E : ?p +:+ _ = ?p +:+ _ |- _ =>
      apply String.app_inj in E; discriminate
  end.

(** X9. The six names that a node uses in the store are pairwise
    distinct, whatever the prefix and the host name: the record of a member
    is never one of the coordination keys.  Two nodes with the same
    configuration share the five coordination keys, and their records are
    distinct exactly when their host names are. *)
Theorem NewState_names_distinct (cfg : Config) (hostname hostname' : string) :
  let s := NewState cfg hostname in
  let s' := NewState cfg hostname' in
  NoDup [me s; canaryReleaseTagKey s; stableReleaseTagKey s;
         avoidReleaseTagKey s; membersTagKey s; rolloutKey s]
  ∧ [canaryReleaseTagKey s'; stableReleaseTagKey s'; avoidReleaseTagKey s';
     membersTagKey s'; rolloutKey s']
    = [canaryReleaseTagKey s; stableReleaseTagKey s; avoidReleaseTagKey s;
       membersTagKey s; rolloutKey s]
  ∧ (me s' = me s ↔ hostname' = hostname).
Proof.
  intros s s'. subst s s'. unfold NewState.
  cbn [me canaryReleaseTagKey stableReleaseTagKey avoidReleaseTagKey
       membersTagKey rolloutKey].
  set (prefix := if String.eqb _ _ then _ else _).
  split; [|split; [done|]].
  - repeat (apply NoDup_cons; split;
            [rewrite ?elem_of_cons, elem_of_nil;
             intros E; repeat (destruct E as [E|E]); try done; distinct_names|]).
    apply NoDup_nil. done.
  - split; [|by intros ->]. apply append_cancel_r.
Qed.

Section Locks.
Context {P : Platform} {G : Type}.

Lemma getLock_true_inv s key tag ttl (w w1 : World G) :
  getLock s key tag ttl w = (Ok true, w1) →
  Redis.find key (redis w) = None
  ∧ Redis.keyspace (redis w1) !! key
    = Some (lock_entry tag
              (Some (Redis.now (redis w) + Redis.formatSec ttl * second)))
  ∧ Redis.now (redis w1) = Redis.now (redis w).
Proof.
  rewrite getLock_eq. cbv zeta.
  destruct (next_fault (redis w)); [discriminate|].
  destruct (Redis.find key (redis w)) eqn:Hfind; [discriminate|].
  match goal with |- context [next_fault ?d] => destruct (next_fault d) end;
    [discriminate|].
  intros [= <-]. cbn. by rewrite lookup_insert_eq.
Qed.

(** X10. A lock that a call of [getLock] has taken keeps every other call
    out for the whole seconds of its window and no longer.  With [life] the
    time that the store was given, [formatSec ttl] seconds: as long as less
    than [life] has passed on the clock of the store, a call for the same
    key, by any node and for any tag, does not return true and leaves the
    lock as it is; once [life] has passed, the next call that reaches the
    store takes the lock.  [life] is one second for a positive window below
    one second, and the window less its fraction of a second from one second
    on; for a window that is not positive it is not positive either: the
    lock that was "taken" holds nobody back. *)
Theorem lock_holds_for_its_window (s s' : State) key tag ttl (w w1 : World G)
  (d : Z) tag' ttl' :
  getLock s key tag ttl w = (Ok true, w1) →
  let life := Redis.formatSec ttl * second in
  let later := set_redis (Redis.advance d (redis w1)) w1 in
  let r := getLock s' key tag' ttl' later in
  (d < life →
   r.1 ≠ Ok true
   ∧ Redis.find key (redis r.2)
     = Some (lock_entry tag (Some (Redis.now (redis w) + life))))
  ∧ (life ≤ d → next_fault (redis later) = false →
     next_fault (after_roundtrip (redis later)) = false → r.1 = Ok true)
  ∧ (0 < ttl < second → life = second)
  ∧ (second ≤ ttl → ttl - second < life ≤ ttl ∧ life = ttl - ttl mod second)
  ∧ (ttl ≤ 0 → life ≤ 0).
Proof.
  intros Hlock life later r.
  destruct (getLock_true_inv _ _ _ _ _ _ Hlock) as (_ & Hkey & Hnow).
  fold life in Hkey.
  assert (Hfind : Redis.find key (redis later)
                  = if Redis.now (redis w) + d <? Redis.now (redis w) + life
                    then Some (lock_entry tag (Some (Redis.now (redis w) + life)))
                    else None).
  { unfold Redis.find, later. cbn. rewrite Hkey, Hnow. done. }
  subst r. rewrite getLock_eq. cbv zeta. split; [|split].
  - intros Hd.
    assert ((Redis.now (redis w) + d <? Redis.now (redis w) + life) = true) as E
      by (apply Z.ltb_lt; lia).
    rewrite E in Hfind.
    destruct (next_fault (redis later)); cbn [fst snd redis set_redis].
    + split; [done|]. exact Hfind.
    + rewrite Hfind. cbn [fst snd redis set_redis]. split; [done|]. exact Hfind.
  - intros Hd F1 F2.
    assert ((Redis.now (redis w) + d <? Redis.now (redis w) + life) = false) as E
      by (apply Z.ltb_ge; lia).
    rewrite E in Hfind. rewrite F1, Hfind.
    match goal with |- context [next_fault ?db] =>
      change (next_fault db) with (next_fault (after_roundtrip (redis later)))
    end.
    by rewrite F2.
  - subst life. unfold Redis.formatSec. split; [|split].
    + intros [H0 H1]. apply Z.ltb_lt in H0, H1. rewrite H0, H1. cbn. lia.
    + intros Hs. assert (E : (ttl <? second) = false) by (apply Z.ltb_ge; lia).
      rewrite E, andb_false_r.
      assert (Hpos : 0 < second) by reflexivity.
      rewrite Z.quot_div_nonneg by lia.
      pose proof (Z.div_mod ttl second ltac:(lia)) as Hdm.
      pose proof (Z.mod_pos_bound ttl second Hpos) as Hm.
      lia.
    + intros Hn. assert (E : (0 <? ttl) = false) by (apply Z.ltb_ge; lia).
      rewrite E. cbn [andb].
      assert (ttl ÷ second ≤ 0).
      { apply Z.quot_le_upper_bound; [reflexivity|lia]. }
      unfold second in *. lia.
Qed.

(** X11. [UnlockCanaryRelease] deletes the canary lock whatever tag it
    holds and whoever took it, and leaves every other key alone: after it
    the lock is free, and the next call that reaches the store takes it. *)
Theorem unlock_frees_the_canary_lock (s : State) tag' (w w1 : World G) :
  UnlockCanaryRelease s w = (Ok tt, w1) →
  Redis.find (canaryReleaseTagKey s) (redis w1) = None
  ∧ (∀ k, k ≠ canaryReleaseTagKey s →
          Redis.find k (redis w1) = Redis.find k (redis w))
  ∧ (next_fault (redis w1) = false →
     next_fault (after_roundtrip (redis w1)) = false →
     (TryCanaryReleaseLock s tag' w1).1 = Ok true).
Proof.
  intros Hun. apply UnlockCanaryRelease_Ok in Hun.
  assert (Hfree : Redis.find (canaryReleaseTagKey s) (redis w1) = None).
  { rewrite Hun. unfold Redis.find. cbn. by rewrite lookup_delete_eq. }
  split; [done|]. split.
  - intros k Hk. rewrite Hun. unfold Redis.find. cbn.
    by rewrite lookup_delete_ne.
  - intros F1 F2. unfold TryCanaryReleaseLock. rewrite getLock_eq. cbv zeta.
    rewrite F1, Hfree.
    match goal with |- context [next_fault ?db] =>
      change (next_fault db) with (next_fault (after_roundtrip (redis w1)))
    end.
    by rewrite F2.
Qed.

End Locks.

Lemma lock_holds_for_its_window_witness :
  let w := Demo.world (Demo.db_of [] [])
             (Demo.github_of (Demo.remote (Demo.release "v2" 20 []) []))
             "v1" [] [] in
  let s := NewState Demo.cfg "node1" in
  let s' := NewState Demo.cfg "node2" in
  let ttl := 1500 * millisecond in
  let w1 := (getLock s (rolloutKey s) "v2" ttl w).2 in
  let d := 1200 * millisecond in
  let later := set_redis (Redis.advance d (redis w1)) w1 in
  let r := getLock s' (rolloutKey s) "v3" ttl later in
  getLock s (rolloutKey s) "v2" ttl w = (Ok true, w1)
  ∧ Redis.formatSec ttl * second = second
  ∧ (getLock s' (rolloutKey s) "v3" ttl
       (set_redis (Redis.advance (900 * millisecond) (redis w1)) w1)).1 = Ok false
  ∧ r.1 = Ok true
  ∧ (Redis.formatSec ttl * second ≤ d → next_fault (redis later) = false →
     next_fault (after_roundtrip (redis later)) = false → r.1 = Ok true)
  ∧ (second ≤ ttl →
     ttl - second < Redis.formatSec ttl * second ≤ ttl
     ∧ Redis.formatSec ttl * second = ttl - ttl mod second).
Proof.
  intros w s s' ttl w1 d later r.
  assert (H : getLock s (rolloutKey s) "v2" ttl w = (Ok true, w1))
    by (vm_compute; reflexivity).
  split; [exact H|]. split; [reflexivity|]. split; [vm_compute; reflexivity|].
  split; [vm_compute; reflexivity|].
  destruct (lock_holds_for_its_window s s' (rolloutKey s) "v2" ttl w w1 d "v3" ttl H)
    as (_ & Hafter & _ & Hwhole & _).
  exact (conj Hafter Hwhole).
Defined.

Lemma unlock_frees_the_canary_lock_witness :
  let w := Demo.world
             (Demo.db_of [("acme/app_canary_release_tag",
                           lock_entry "v9" (Some 5000))] [])
             (Demo.github_of (Demo.remote (Demo.release "v2" 20 []) []))
             "v1" [] [] in
  let s := NewState Demo.cfg "node1" in
  let w1 := (UnlockCanaryRelease s w).2 in
  Redis.find (canaryReleaseTagKey s) (redis w) = Some (lock_entry "v9" (Some 5000))
  ∧ UnlockCanaryRelease s w = (Ok tt, w1)
  ∧ Redis.find (canaryReleaseTagKey s) (redis w1) = None
  ∧ (∀ k, k ≠ canaryReleaseTagKey s →
          Redis.find k (redis w1) = Redis.find k (redis w))
  ∧ (next_fault (redis w1) = false →
     next_fault (after_roundtrip (redis w1)) = false →
     (TryCanaryReleaseLock s "v2" w1).1 = Ok true).
Proof.
  intros w s w1.
  assert (H : UnlockCanaryRelease s w = (Ok tt, w1)) by (vm_compute; reflexivity).
  split; [vm_compute; reflexivity|]. split; [exact H|].
  exact (unlock_frees_the_canary_lock s "v2" w w1 H).
Defined.


(* ===================================================================== *)
(** * The members and the progress of a rollout *)
(* ===================================================================== *)

Lemma run_queue_two (c1 c2 : Redis.queued) db :
  Redis.run_queue [c1; c2] db
  = (match (c1 db).1 with Some m => Some m | None => (c2 (c1 db).2).1 end,
     (c2 (c1 db).2).2).
Proof.
  cbn. destruct (c1 db) as [e1 db1]. cbn. destruct (c2 db1) as [e2 db2]. cbn.
  by destruct e1, e2.
Qed.

Lemma drop_sadd_one key m db :
  Redis.drop_reply (Redis.srv_sadd key [m]) db
  = match Redis.find key db with
    | Some (Redis.Entry (Redis.VString _) _) => (Some Redis.wrongtype, db)
    | Some (Redis.Entry (Redis.VSet old) d) =>
        (None, Redis.with_keyspace
                 <[key := Redis.Entry (Redis.VSet (old ∪ {[m]})) d]> db)
    | None =>
        (None, Redis.with_keyspace
                 <[key := Redis.Entry (Redis.VSet {[m]}) None]> db)
    end.
Proof.
  unfold Redis.drop_reply, Redis.srv_sadd.
  assert (Hset : list_to_set [m] = ({[m]} : gset string))
    by (cbn; by rewrite union_empty_r_L).
  rewrite Hset. by destruct (Redis.find key db) as [[[v|old] d]|].
Qed.

Lemma formatSec_nonpositive d : d ≤ 0 → Redis.formatSec d ≤ 0.
Proof.
  intros Hd. unfold Redis.formatSec.
  assert (E : (0 <? d) = false) by (apply Z.ltb_ge; lia).
  rewrite E. cbn [andb]. apply Z.quot_le_upper_bound; [reflexivity|lia].
Qed.

Lemma drop_setex key b ttl db :
  Redis.drop_reply (Redis.srv_setex key b ttl) db
  = if ttl <=? 0 then (Some "ERR invalid expire time in 'setex' command", db)
    else (None, Redis.with_keyspace
                  <[key := Redis.Entry (Redis.VString b)
                             (Some (Redis.now db + ttl * second))]>
                  db).
Proof. unfold Redis.drop_reply, Redis.srv_setex. by destruct (ttl <=? 0). Qed.

Lemma find_insert_eq key e db :
  Redis.find key (Redis.with_keyspace <[key := e]> db)
  = if Redis.alive (Redis.now db) e then Some e else None.
Proof. unfold Redis.find. cbn. by rewrite lookup_insert_eq. Qed.

Lemma find_insert_ne key k e db :
  key ≠ k →
  Redis.find k (Redis.with_keyspace <[key := e]> db) = Redis.find k db.
Proof. intros. unfold Redis.find. cbn. by rewrite lookup_insert_ne. Qed.

Lemma find_alive key db e :
  Redis.find key db = Some e → Redis.alive (Redis.now db) e = true.
Proof.
  unfold Redis.find. destruct (Redis.keyspace db !! key) as [e0|]; [|done].
  destruct (Redis.alive (Redis.now db) e0) eqn:Ea; [|done]. by intros [= <-].
Qed.

Lemma alive_within now v ttl :
  0 < ttl → Redis.alive now (Redis.Entry v (Some (now + ttl * second))) = true.
Proof. intros. cbn. apply Z.ltb_lt. unfold second. lia. Qed.

(** What the pipeline of [SaveMemberState] does on the server. *)
Lemma member_pipeline (s : State) b ttl db :
  me s ≠ membersTagKey s →
  let q := [Redis.drop_reply (Redis.srv_sadd (membersTagKey s) [me s]);
            Redis.drop_reply (Redis.srv_setex (me s) b ttl)] in
  Redis.now (Redis.run_queue q db).2 = Redis.now db
  ∧ Redis.faults (Redis.run_queue q db).2 = Redis.faults db
  ∧ match set_at (membersTagKey s) db with
    | None => (Redis.run_queue q db).1 = Some Redis.wrongtype
    | Some M =>
        set_at (membersTagKey s) (Redis.run_queue q db).2 = Some (M ∪ {[me s]})
        ∧ if ttl <=? 0 then
            (Redis.run_queue q db).1
            = Some "ERR invalid expire time in 'setex' command"
            ∧ Redis.find (me s) (Redis.run_queue q db).2 = Redis.find (me s) db
          else
            (Redis.run_queue q db).1 = None
            ∧ Redis.find (me s) (Redis.run_queue q db).2
              = Some (Redis.Entry (Redis.VString b)
                        (Some (Redis.now db + ttl * second)))
    end.
Proof.
  intros Hne q. subst q. rewrite run_queue_two.
  assert (Hne' : membersTagKey s ≠ me s) by congruence.
  rewrite drop_sadd_one. unfold set_at.
  destruct (Redis.find (membersTagKey s) db) as [[[v|old] d]|] eqn:E;
    cbn [fst snd]; rewrite drop_setex.
  - by destruct (ttl <=? 0).
  - pose proof (find_alive _ _ _ E) as Ha.
    assert (Ha' : Redis.alive (Redis.now db)
                    (Redis.Entry (Redis.VSet (old ∪ {[me s]})) d) = true)
      by exact Ha.
    destruct (ttl <=? 0) eqn:Et; cbn [fst snd].
    + rewrite find_insert_eq, find_insert_ne, Ha' by done. done.
    + rewrite find_insert_ne, !find_insert_eq, Ha' by done.
      cbn [Redis.now Redis.with_keyspace].
      rewrite alive_within by (apply Z.leb_gt in Et; lia). done.
  - destruct (ttl <=? 0) eqn:Et; cbn [fst snd].
    + rewrite find_insert_eq, find_insert_ne by done. cbn.
      by rewrite union_empty_l_L.
    + rewrite find_insert_ne, !find_insert_eq by done.
      cbn [Redis.now Redis.with_keyspace].
      rewrite alive_within by (apply Z.leb_gt in Et; lia). cbn.
      by rewrite union_empty_l_L.
Qed.

Section Members.
Context {P : Platform} {G : Type}.

Lemma SaveMemberState_cases (s : State) (w : World G) :
  match GetLastInstalledTag s w with
  | (Ok v, w0) =>
      let q := [Redis.drop_reply (Redis.srv_sadd (membersTagKey s) [me s]);
                Redis.drop_reply
                  (Redis.srv_setex (me s) (json_Marshal {| CurrentVersion := v |})
                     (Redis.formatSec (dur_mul (RolloutWindow (config s)) 2)))] in
      SaveMemberState s w
      = if next_fault (redis w0)
        then (Err (ErrorString Redis.unreachable),
              set_redis (after_roundtrip (redis w0)) w0)
        else (match (Redis.run_queue q (after_roundtrip (redis w0))).1 with
              | Some m => Err (ErrorString m)
              | None => Ok tt
              end,
              set_redis (Redis.run_queue q (after_roundtrip (redis w0))).2 w0)
  | (Err e, w0) => SaveMemberState s w = (Err e, w0)
  | (Halt h, w0) => SaveMemberState s w = (Halt h, w0)
  end.
Proof.
  unfold SaveMemberState, bind.
  destruct (GetLastInstalledTag s w) as [[v|e|h] w0]; [|done..].
  cbv zeta. unfold store_Result, Redis.Exec. rewrite store_roundtrip.
  destruct (next_fault (redis w0)); [done|].
  destruct (Redis.run_queue _ _) as [[m|] db]; done.
Qed.

(** X12. A node that has saved its state is counted by the next
    [GetRolloutProgress]: its record says the version that its version
    command printed, it lives for the whole seconds of twice the rollout
    window (one second when that is less), and the node is in the registry;
    so the progress of that version has at least this node installed, out of
    all the members of the registry.  This needs a JSON codec that reads
    back the record that it has written. *)
Theorem saved_member_is_counted (cfg : Config) hostname (w w1 : World G) :
  let s := NewState cfg hostname in
  (∀ v w0, GetLastInstalledTag s w = (Ok v, w0) →
           json_Unmarshal (json_Marshal {| CurrentVersion := v |})
           = Some {| CurrentVersion := v |}) →
  SaveMemberState s w = (Ok tt, w1) →
  ∃ v w0 M,
    GetLastInstalledTag s w = (Ok v, w0)
    ∧ Redis.find (me s) (redis w1)
      = Some (Redis.Entry (Redis.VString (json_Marshal {| CurrentVersion := v |}))
                (Some (Redis.now (redis w0)
                       + Redis.formatSec (dur_mul (RolloutWindow cfg) 2) * second)))
    ∧ set_at (membersTagKey s) (redis w1) = Some M ∧ me s ∈ M
    ∧ reports v (redis w1) (me s) = true
    ∧ (Redis.faults (redis w1) = [] →
       (∀ m, m ∈ M → readable (redis w1) m) →
       ∃ installed w2,
         GetRolloutProgress s v w1 = (Ok (installed, Z.of_nat (size M)), w2)
         ∧ 1 ≤ installed ≤ Z.of_nat (size M)).
Proof.
  intros s Hjson Hsave.
  pose proof (SaveMemberState_cases s w) as Hc.
  destruct (GetLastInstalledTag s w) as [[v|e|h] w0]; [|congruence..].
  specialize (Hjson v w0 eq_refl).
  cbv zeta in Hc. rewrite Hsave in Hc.
  destruct (next_fault (redis w0)); [discriminate|].
  pose proof (member_pipeline s (json_Marshal {| CurrentVersion := v |})
                (Redis.formatSec (dur_mul (RolloutWindow (config s)) 2))
                (after_roundtrip (redis w0))
                (NewState_me_members cfg hostname)) as Hp.
  cbv zeta in Hp. destruct Hp as (Hnow & _ & Hp).
  destruct (Redis.run_queue _ _) as [[m|] db] eqn:Eq; [discriminate|].
  injection Hc as ->. cbn [fst snd redis set_redis] in *.
  destruct (set_at (membersTagKey s) (after_roundtrip (redis w0))) as [M0|];
    [|discriminate].
  destruct Hp as [Hset Hp].
  destruct (Redis.formatSec (dur_mul (RolloutWindow (config s)) 2) <=? 0);
    destruct Hp as [Hr Hme];
    [discriminate|].
  assert (Hrep : reports v db (me s) = true).
  { unfold reports. rewrite Hme, Hjson. cbn. apply String.eqb_refl. }
  exists v, w0, (M0 ∪ {[me s]}).
  split; [done|]. split; [exact Hme|]. split; [exact Hset|].
  split; [set_solver|]. split; [exact Hrep|].
  intros Hf Hread.
  destruct (GetRolloutProgress_counts s v
              (set_redis db w0) (M0 ∪ {[me s]}) Hf Hset Hread)
    as (w2 & Hprog & _).
  eexists _, w2. split; [exact Hprog|]. cbn [redis set_redis].
  set (l := elements (M0 ∪ {[me s]})).
  assert (Hin : me s ∈ l) by (apply elem_of_elements; set_solver).
  assert (Hlen : size (M0 ∪ {[me s]}) = length l) by done.
  rewrite Hlen. split.
  - assert (me s ∈ List.filter (reports v db) l) as Hfil.
    { apply list_elem_of_In, filter_In. split; [by apply list_elem_of_In|done]. }
    destruct (List.filter (reports v db) l); [by apply elem_of_nil in Hfil|].
    cbn [length]. lia.
  - pose proof (filter_length_le (reports v db) l). lia.
Qed.

(** X13. A registry that cannot be read counts as empty: when the round
    trip of SMEMBERS fails, or the key holds a string, [GetRolloutProgress]
    returns the progress 0 out of 0 and a nil error, and leaves the store as
    it is; whereas the failure of the read of the record of a member is
    returned as an error. *)
Theorem GetRolloutProgress_unread_registry (s : State) tag (w : World G) :
  (next_fault (redis w) = true ∨ set_at (membersTagKey s) (redis w) = None →
   GetRolloutProgress s tag w
   = (Ok (0, 0), set_redis (after_roundtrip (redis w)) w))
  ∧ (∀ M, next_fault (redis w) = false →
          set_at (membersTagKey s) (redis w) = Some M → M ≠ ∅ →
          next_fault (after_roundtrip (redis w)) = true →
          (GetRolloutProgress s tag w).1 = Err (ErrorString Redis.unreachable)).
Proof.
  unfold GetRolloutProgress, Redis.SMembers. rewrite store_roundtrip. split.
  - intros [F|Hs].
    { rewrite F. done. }
    destruct (next_fault (redis w)); [done|].
    unfold Redis.srv_smembers. unfold set_at in Hs.
    change (Redis.find (membersTagKey s) (after_roundtrip (redis w)))
      with (Redis.find (membersTagKey s) (redis w)).
    destruct (Redis.find (membersTagKey s) (redis w)) as [[[v|old] d]|];
      [done|discriminate..].
  - intros M F Hs Hne F2. rewrite F. unfold Redis.srv_smembers. unfold set_at in Hs.
    change (Redis.find (membersTagKey s) (after_roundtrip (redis w)))
      with (Redis.find (membersTagKey s) (redis w)).
    destruct (Redis.find (membersTagKey s) (redis w)) as [[[v|old] d]|];
      [discriminate| |congruence].
    injection Hs as ->.
    destruct (elements M) as [|m rest] eqn:El.
    { apply elements_empty_inv in El. apply leibniz_equiv in El. done. }
    unfold bind. cbn [scan_members]. unfold Redis.Get. rewrite store_roundtrip.
    cbn [redis set_redis]. rewrite F2. done.
Qed.

(** X14. The two commands of [SaveMemberState] are not one transaction:
    with a rollout window that is not positive, the record is refused by the
    store and the call returns that error, yet the node has been added to the
    registry; it stays there without a record. *)
Theorem SaveMemberState_without_window (cfg : Config) hostname (w w0 : World G) v M :
  let s := NewState cfg hostname in
  dur_mul (RolloutWindow cfg) 2 ≤ 0 →
  GetLastInstalledTag s w = (Ok v, w0) →
  next_fault (redis w0) = false →
  set_at (membersTagKey s) (redis w0) = Some M →
  ∃ w1,
    SaveMemberState s w
    = (Err (ErrorString "ERR invalid expire time in 'setex' command"), w1)
    ∧ set_at (membersTagKey s) (redis w1) = Some (M ∪ {[me s]})
    ∧ Redis.find (me s) (redis w1) = Redis.find (me s) (redis w0).
Proof.
  intros s Httl Hv F HM.
  pose proof (SaveMemberState_cases s w) as Hc. rewrite Hv, F in Hc.
  cbv zeta in Hc.
  pose proof (member_pipeline s (json_Marshal {| CurrentVersion := v |})
                (Redis.formatSec (dur_mul (RolloutWindow (config s)) 2))
                (after_roundtrip (redis w0))
                (NewState_me_members cfg hostname)) as Hp.
  cbv zeta in Hp. destruct Hp as (_ & _ & Hp).
  change (set_at (membersTagKey s) (after_roundtrip (redis w0)))
    with (set_at (membersTagKey s) (redis w0)) in Hp.
  rewrite HM in Hp. destruct Hp as [Hset Hp].
  assert ((Redis.formatSec (dur_mul (RolloutWindow (config s)) 2) <=? 0) = true)
    as E by (apply Z.leb_le, formatSec_nonpositive; exact Httl).
  rewrite E in Hp. destruct Hp as [Hr Hme].
  rewrite Hr in Hc. eexists. split; [exact Hc|].
  cbn [redis set_redis]. split; [exact Hset|exact Hme].
Qed.

End Members.

Lemma saved_member_is_counted_witness :
  let cfg := Sample.cfg_window (700 * millisecond) in
  let w := Demo.world (Demo.db_of [] [])
             (Demo.github_of (Demo.remote (Demo.release "v2" 20 []) []))
             "v1" [] [] in
  let s := NewState cfg "node1" in
  let w1 := (SaveMemberState s w).2 in
  ((∀ v w0, GetLastInstalledTag s w = (Ok v, w0) →
            @json_Unmarshal Demo.platform
              (@json_Marshal Demo.platform {| CurrentVersion := v |})
            = Some {| CurrentVersion := v |})
   ∧ SaveMemberState s w = (Ok tt, w1))
  ∧ (GetRolloutProgress s "v1" w1).1 = Ok (1, 1)
  ∧ dur_mul (RolloutWindow cfg) 2 = 1400 * millisecond
  ∧ Redis.formatSec (dur_mul (RolloutWindow cfg) 2) * second = second
  ∧ ∃ v w0 M,
      GetLastInstalledTag s w = (Ok v, w0)
      ∧ Redis.find (me s) (redis w1)
        = Some (Redis.Entry
                  (Redis.VString (@json_Marshal Demo.platform {| CurrentVersion := v |}))
                  (Some (Redis.now (redis w0)
                         + Redis.formatSec (dur_mul (RolloutWindow cfg) 2)
                           * second)))
      ∧ set_at (membersTagKey s) (redis w1) = Some M ∧ me s ∈ M
      ∧ reports (P:=Demo.platform) v (redis w1) (me s) = true
      ∧ (Redis.faults (redis w1) = [] →
         (∀ m, m ∈ M → readable (P:=Demo.platform) (redis w1) m) →
         ∃ installed w2,
           GetRolloutProgress s v w1 = (Ok (installed, Z.of_nat (size M)), w2)
           ∧ 1 ≤ installed ≤ Z.of_nat (size M)).
Proof.
  intros cfg w s w1.
  assert (Hjson : ∀ v w0, GetLastInstalledTag s w = (Ok v, w0) →
                   @json_Unmarshal Demo.platform
                     (@json_Marshal Demo.platform {| CurrentVersion := v |})
                   = Some {| CurrentVersion := v |})
    by (intros v w0 _; reflexivity).
  assert (H : SaveMemberState s w = (Ok tt, w1)) by (vm_compute; reflexivity).
  split; [exact (conj Hjson H)|]. split; [vm_compute; reflexivity|].
  split; [reflexivity|]. split; [reflexivity|].
  exact (saved_member_is_counted (P:=Demo.platform) cfg "node1" w w1 Hjson H).
Defined.

Lemma SaveMemberState_without_window_witness :
  let cfg := Sample.cfg_window (-1) in
  let w := Demo.world (Demo.db_of [] [])
             (Demo.github_of (Demo.remote (Demo.release "v2" 20 []) []))
             "v1" [] [] in
  let s := NewState cfg "node1" in
  let w0 := (GetLastInstalledTag s w).2 in
  dur_mul (RolloutWindow cfg) 2 ≤ 0
  ∧ GetLastInstalledTag s w = (Ok "v1", w0)
  ∧ next_fault (redis w0) = false
  ∧ set_at (membersTagKey s) (redis w0) = Some ∅
  ∧ (GetRolloutProgress s "v1" (SaveMemberState s w).2).1 = Ok (0, 1)
  ∧ ∃ w1,
      SaveMemberState s w
      = (Err (ErrorString "ERR invalid expire time in 'setex' command"), w1)
      ∧ set_at (membersTagKey s) (redis w1) = Some (∅ ∪ {[me s]})
      ∧ Redis.find (me s) (redis w1) = Redis.find (me s) (redis w0).
Proof.
  intros cfg w s w0.
  assert (H1 : dur_mul (RolloutWindow cfg) 2 ≤ 0) by (vm_compute; discriminate).
  assert (H2 : GetLastInstalledTag s w = (Ok "v1", w0)) by (vm_compute; reflexivity).
  assert (H3 : next_fault (redis w0) = false) by reflexivity.
  assert (H4 : set_at (membersTagKey s) (redis w0) = Some ∅) by reflexivity.
  split; [exact H1|]. split; [exact H2|]. split; [exact H3|]. split; [exact H4|].
  split; [vm_compute; reflexivity|].
  exact (SaveMemberState_without_window (P:=Demo.platform) cfg "node1" w w0 "v1" ∅
           H1 H2 H3 H4).
Defined.


(* ===================================================================== *)
(** * What the handlers write *)
(* ===================================================================== *)

Ltac keys_incl :=
  let k := fresh "k" in
  let Hk := fresh "Hk" in
  intros k Hk;
  repeat (apply elem_of_cons in Hk as [->|Hk]);
  [..|by apply elem_of_nil in Hk];
  rewrite !elem_of_cons; auto 10.

Section MoreFrames.
Context {P : Platform} {G : Type} {GH : GitHuber G}.

Lemma frames_health_attempt keys config tag file st :
  frames (G:=G) keys (health_attempt config tag file st).
Proof. unfold health_attempt. frames_go. apply frames_executeCommand. Qed.

Lemma frames_delayType keys n delay : frames (G:=G) keys (delayType n delay).
Proof. unfold delayType. frames_go. Qed.

Lemma frames_retry_attempts {S} keys left n (f : S → Go G (S * option error))
  deadline delay st errorLog :
  (∀ st, frames keys (f st)) →
  frames keys (retry_attempts left n f deadline delay st errorLog).
Proof.
  intros Hf. revert n st errorLog.
  induction left as [|left' IH]; intros n st errorLog; [apply frames_ret|].
  cbn [retry_attempts]. apply frames_bind; [apply Hf|].
  intros [st' [e|]]; [|apply frames_ret].
  destruct left' as [|left'']; [apply frames_ret|].
  apply frames_bind; [apply frames_delayType|]. intros delayTime.
  intros w. cbn beta. destruct (deadline <=? clock w + delayTime);
    match goal with
    | |- same_elsewhere _ _ (redis (?m w).2) =>
        assert (frames keys m) as Hm; [frames_go; apply IH|apply Hm]
    end.
Qed.

Lemma frames_health_burst keys config tag file :
  frames (G:=G) keys (health_burst config tag file).
Proof.
  intros w. unfold health_burst, retry_Do.
  destruct (_ <=? clock w); [apply same_elsewhere_refl|].
  apply frames_retry_attempts. intros st. apply frames_health_attempt.
Qed.

Lemma frames_health_watch keys (f : Go G (string * option error)) ticks :
  frames keys f → frames keys (health_watch f ticks).
Proof.
  intros Hf. induction ticks as [|t ticks IH]; [apply frames_stop|].
  destruct t; cbn [health_watch]; try apply frames_stop.
  - intros w. pose proof (Hf (set_sched ticks w)) as E.
    destruct (f (set_sched ticks w)) as [[[out [e|]]|e|h] w1]; cbn in *; eauto.
    eapply same_elsewhere_trans; [exact E|apply IH].
  - intros w. apply same_elsewhere_refl.
Qed.

Lemma frames_runHealthCheck keys config tag file :
  frames (G:=G) keys (runHealthCheck config tag file).
Proof.
  unfold runHealthCheck.
  apply frames_bind; [apply frames_time_NewTicker|]. intros _.
  apply frames_bind; [apply frames_time_NewTicker|]. intros _.
  apply frames_bind; [apply frames_health_burst|].
  intros [out [e|]]; [apply frames_ret|].
  intros w. apply frames_health_watch, frames_health_burst.
Qed.

Lemma store_elsewhere {A} keys (c : Redis.t → Redis.reply A * Redis.t) (w : World G) :
  (∀ db, same_elsewhere keys db (c db).2) →
  same_elsewhere keys (redis w) (redis (store c w).2).
Proof.
  intros Hc. unfold store. specialize (Hc (redis w)).
  by destruct (c (redis w)) as [r db].
Qed.

Lemma Get_elsewhere keys key db : same_elsewhere keys db (Redis.Get key db).2.
Proof.
  apply roundtrip_same_elsewhere. intros db0. rewrite srv_get_same.
  apply same_elsewhere_refl.
Qed.

Lemma SMembers_elsewhere keys key db :
  same_elsewhere keys db (Redis.SMembers key db).2.
Proof.
  apply roundtrip_same_elsewhere. intros db0. rewrite srv_smembers_same.
  apply same_elsewhere_refl.
Qed.

Lemma frames_scan_members keys tag members deleted installed :
  frames (G:=G) keys (scan_members tag members deleted installed).
Proof.
  revert deleted installed.
  induction members as [|m rest IH]; intros deleted installed; [apply frames_ret|].
  cbn [scan_members]. intros w.
  pose proof (store_elsewhere keys (Redis.Get m) w (Get_elsewhere keys m)) as E.
  destruct (store (Redis.Get m) w) as [[b| |msg] w1]; cbn [fst snd] in *.
  - destruct (json_Unmarshal b); [|exact E].
    eapply same_elsewhere_trans; [exact E|apply IH].
  - eapply same_elsewhere_trans; [exact E|apply IH].
  - exact E.
Qed.

Lemma frames_GetRolloutProgress s tag :
  frames (G:=G) [membersTagKey s] (GetRolloutProgress s tag).
Proof.
  intros w. unfold GetRolloutProgress.
  pose proof (store_elsewhere [membersTagKey s] (Redis.SMembers (membersTagKey s)) w
                (SMembers_elsewhere _ _)) as E.
  destruct (store (Redis.SMembers (membersTagKey s)) w) as [r w1].
  cbn [fst snd] in *.
  eapply same_elsewhere_trans; [exact E|].
  match goal with
  | |- same_elsewhere _ _ (redis (?m w1).2) =>
      assert (frames [membersTagKey s] m) as Hm; [|apply Hm]
  end.
  frames_go; try apply frames_scan_members.
  apply frames_store_Result, roundtrip_same_elsewhere. intros db.
  apply srv_srem_elsewhere.
Qed.

Lemma frames_handleRollout config s :
  frames (G:=G) [membersTagKey s; me s; rolloutKey s] (handleRollout config s).
Proof.
  assert (Hsave : frames (G:=G) [membersTagKey s; me s; rolloutKey s]
                    (SaveMemberState s)).
  { eapply frames_mono; [|apply frames_SaveMemberState]. keys_incl. }
  unfold handleRollout. frames_go; try exact Hsave.
  - eapply frames_mono; [|apply frames_getLock]. keys_incl.
  - apply frames_deploy.
  - eapply frames_mono; [|apply frames_GetRolloutProgress]. keys_incl.
Qed.

End MoreFrames.

Section StepsMonad.
Context {P : Platform} {G : Type}.
Variable R : Redis.t → Redis.t → Prop.
Hypothesis R_refl : ∀ db, R db db.
Hypothesis R_trans : ∀ a b c, R a b → R b c → R a c.

Lemma steps_ret {A} (a : A) : steps (G:=G) R (ret a).
Proof. intros w. apply R_refl. Qed.

Lemma steps_fail {A} e : steps (G:=G) (A:=A) R (fail e).
Proof. intros w. apply R_refl. Qed.

Lemma steps_bind {A B} (m : Go G A) (k : A → Go G B) :
  steps R m → (∀ a, steps R (k a)) → steps R (bind m k).
Proof.
  intros Hm Hk w. unfold bind. specialize (Hm w).
  destruct (m w) as [[a|e|h] w1]; cbn in *; try done.
  eapply R_trans; [exact Hm|apply Hk].
Qed.

Lemma steps_try {A} (m : Go G A) : steps R m → steps R (try m).
Proof.
  intros Hm w. unfold try. specialize (Hm w).
  by destruct (m w) as [[a|e|h] w1].
Qed.

Lemma steps_frames {A} keys (m : Go G A) :
  (∀ db db', same_elsewhere keys db db' → R db db') →
  frames keys m → steps R m.
Proof. intros HR Hm w. apply HR, Hm. Qed.

End StepsMonad.

Section Writes.
Context {P : Platform} {G : Type} {GH : GitHuber G}.
Variables (cfg : Config) (hostname : string).
Let s := NewState cfg hostname.
Variable R : Redis.t → Redis.t → Prop.
Hypothesis R_refl : ∀ db, R db db.
Hypothesis R_trans : ∀ a b c, R a b → R b c → R a c.
Hypothesis R_quiet : ∀ db db', same_elsewhere [] db db' → R db db'.
Hypothesis R_members :
  ∀ db db', same_elsewhere [membersTagKey s; me s] db db' → R db db'.
Hypothesis R_canary :
  ∀ db db', same_elsewhere [canaryReleaseTagKey s] db db' → R db db'.
Hypothesis R_stable :
  ∀ db db', same_elsewhere [stableReleaseTagKey s] db db' → R db db'.
Hypothesis R_rollout :
  ∀ db db', same_elsewhere [rolloutKey s] db db' → R db db'.
Hypothesis R_avoid : ∀ tag, steps (G:=G) R (SaveAvoidReleaseTag s tag).

Local Ltac quiet :=
  apply (steps_frames R []);
  [exact R_quiet
  |solve [eauto with frames
         |apply frames_deploy
         |apply frames_runHealthCheck
         |apply frames_handleRollback
         |apply frames_github_DownloadReleaseAsset]].

Local Ltac steps_step :=
  lazymatch goal with
  | |- steps _ (bind _ _) => apply (steps_bind R R_trans); [|intros ?]
  | |- steps _ (match ?x with _ => _ end) => destruct x
  | |- steps _ (let '(_, _) := ?x in _) => destruct x
  | |- steps _ (if ?b then _ else _) => destruct b
  | |- steps _ (try _) => apply steps_try
  | |- steps _ (SaveMemberState _) =>
      apply (steps_frames R [membersTagKey s; me s]);
      [exact R_members|apply frames_SaveMemberState]
  | |- steps _ (SaveAvoidReleaseTag _ _) => apply R_avoid
  | |- steps _ (SaveStableReleaseTag _ _) =>
      apply (steps_frames R [stableReleaseTagKey s]);
      [exact R_stable|apply frames_SaveStableReleaseTag]
  | |- steps _ (UnlockCanaryRelease _) =>
      apply (steps_frames R [canaryReleaseTagKey s]);
      [exact R_canary|apply frames_UnlockCanaryRelease]
  | |- steps _ (TryCanaryReleaseLock _ _) =>
      apply (steps_frames R [canaryReleaseTagKey s]);
      [exact R_canary|apply frames_getLock]
  | |- steps _ (TryRolloutLock _ _) =>
      apply (steps_frames R [rolloutKey s]);
      [exact R_rollout|apply frames_getLock]
  | |- steps _ (GetRolloutProgress _ _) =>
      apply (steps_frames R [membersTagKey s; me s]);
      [exact R_members
      |eapply frames_mono; [|apply frames_GetRolloutProgress]; keys_incl]
  | |- _ => quiet
  end.

Local Ltac steps_go := repeat steps_step.

Lemma steps_canary_failed {A} config tag last out err :
  steps (G:=G) (A:=A) R (canary_failed config s tag last out err).
Proof. unfold canary_failed. steps_go. Qed.

Lemma steps_canary_verified config tag :
  steps (G:=G) R (canary_verified config s tag).
Proof. unfold canary_verified. steps_go. Qed.

Lemma steps_handleCanaryRelease config :
  steps (G:=G) R (handleCanaryRelease config s).
Proof.
  unfold handleCanaryRelease. steps_go.
  - apply steps_canary_failed.
  - apply steps_canary_verified.
Qed.

Lemma steps_handleRollout config : steps (G:=G) R (handleRollout config s).
Proof. unfold handleRollout. steps_go. Qed.

Lemma steps_canary_case config : steps (G:=G) R (canary_case config s).
Proof.
  unfold canary_case, canary_error. steps_go. apply steps_handleCanaryRelease.
Qed.

Lemma steps_rollout_case config : steps (G:=G) R (rollout_case config s).
Proof.
  unfold rollout_case, rollout_error. steps_go. apply steps_handleRollout.
Qed.

Lemma steps_serve fuel once stopped config :
  steps (G:=G) R (serve fuel once stopped config s).
Proof.
  revert stopped. induction fuel as [|fuel IH]; intros stopped w; [apply R_refl|].
  cbn [serve]. destruct (sched w) as [|[| | |] rest]; try apply R_refl.
  - destruct stopped; [apply R_refl|].
    match goal with
    | |- R _ (redis (?m (set_sched rest w)).2) =>
        assert (steps R m) as Hm; [|apply (Hm (set_sched rest w))]
    end.
    apply (steps_bind R R_trans); [apply steps_rollout_case|].
    intros [|e]; [apply IH|apply (steps_ret R R_refl)].
  - match goal with
    | |- R _ (redis (?m (set_sched rest w)).2) =>
        assert (steps R m) as Hm; [|apply (Hm (set_sched rest w))]
    end.
    apply (steps_bind R R_trans); [apply steps_canary_case|].
    intros [|e]; [|apply (steps_ret R R_refl)].
    destruct once; [apply (steps_ret R R_refl)|apply IH].
Qed.

Lemma steps_runServer once config : steps (G:=G) R (runServer once config s).
Proof. intros w. apply steps_serve. Qed.

End Writes.

Lemma grows_at_refl key db : grows_at key db db.
Proof. intros A HA. by exists A. Qed.

Lemma grows_at_trans key a b c :
  grows_at key a b → grows_at key b c → grows_at key a c.
Proof.
  intros Hab Hbc A HA. destruct (Hab A HA) as (A1 & H1 & Hs1).
  destruct (Hbc A1 H1) as (A2 & H2 & Hs2). exists A2. split; [done|].
  by etrans.
Qed.

Lemma grows_at_elsewhere key keys db db' :
  key ∉ keys → same_elsewhere keys db db' → grows_at key db db'.
Proof.
  intros Hk [_ Hsame] A HA. exists A. split; [|done]. by rewrite Hsame.
Qed.

Ltac other_name :=
  rewrite ?not_elem_of_cons; repeat split; try apply not_elem_of_nil;
  let E := fresh "E" in
  intros E; unfold NewState in E;
  cbn [me canaryReleaseTagKey stableReleaseTagKey avoidReleaseTagKey
       membersTagKey rolloutKey] in E;
  distinct_names.

Ltac frame_rel :=
  first
    [ exact (same_elsewhere_refl _)
    | exact (same_elsewhere_trans _)
    | intros ? ?; apply same_elsewhere_mono; keys_incl
    | intros ?; eapply steps_frames; [|apply frames_SaveAvoidReleaseTag];
      intros ? ?; apply same_elsewhere_mono; keys_incl ].

Section WritesFacts.
Context {P : Platform} {G : Type} {GH : GitHuber G}.

Lemma SaveAvoidReleaseTag_grows (s : State) tag :
  steps (G:=G) (grows_at (avoidReleaseTagKey s)) (SaveAvoidReleaseTag s tag).
Proof.
  intros w A HA. unfold SaveAvoidReleaseTag, saveReleases, bind, store_Result.
  unfold Redis.SAdd. rewrite store_roundtrip.
  destruct (next_fault (redis w)); [by exists A|].
  assert (Hfind : Redis.find (avoidReleaseTagKey s) (after_roundtrip (redis w))
                  = Some (Redis.Entry (Redis.VSet A) None)).
  { unfold Redis.find. cbn. by rewrite HA. }
  unfold Redis.srv_sadd. rewrite Hfind. cbn.
  rewrite lookup_insert_eq. eexists. split; [done|]. apply union_subseteq_l.
Qed.

(** X15. Each handler writes only names of its own: whatever it returns,
    [handleRollout] leaves every key alone but the registry, the record of
    the node and the rollout lock, so that it never changes the stable tag,
    the canary lock or the avoid set; and [handleCanaryRelease] never touches
    the rollout lock, nor any key outside the registry, the record, the
    canary lock, the stable tag and the avoid set. *)
Theorem handlers_write_their_names_only (config cfg : Config) hostname (w : World G) :
  let s := NewState cfg hostname in
  let rolled := redis (handleRollout config s w).2 in
  let released := redis (handleCanaryRelease config s w).2 in
  same_elsewhere [membersTagKey s; me s; rolloutKey s] (redis w) rolled
  ∧ (∀ k, k ∈ [stableReleaseTagKey s; canaryReleaseTagKey s; avoidReleaseTagKey s] →
          Redis.keyspace rolled !! k = Redis.keyspace (redis w) !! k)
  ∧ same_elsewhere [membersTagKey s; me s; canaryReleaseTagKey s;
                    stableReleaseTagKey s; avoidReleaseTagKey s] (redis w) released
  ∧ Redis.keyspace released !! rolloutKey s
    = Redis.keyspace (redis w) !! rolloutKey s.
Proof.
  intros s rolled released.
  pose proof (frames_handleRollout config s w) as Hr.
  assert (Hc : same_elsewhere [membersTagKey s; me s; canaryReleaseTagKey s;
                               stableReleaseTagKey s; avoidReleaseTagKey s]
                 (redis w) released).
  { apply (steps_handleCanaryRelease cfg hostname (same_elsewhere _)); frame_rel. }
  split; [exact Hr|]. split; [|split; [exact Hc|]].
  - intros k Hk. destruct Hr as [_ Hr]. apply Hr.
    repeat (apply elem_of_cons in Hk as [->|Hk]); [..|by apply elem_of_nil in Hk];
      subst s; other_name.
  - destruct Hc as [_ Hc]. apply Hc. subst s. other_name.
Qed.

(** X16. The loop of [runServer] writes six names and no other: whatever
    the schedule and whatever happens, every other key of the store is as it
    was, and the clock of the store is not touched. *)
Theorem runServer_writes_its_names_only (once : bool) (config cfg : Config)
  hostname (w : World G) :
  let s := NewState cfg hostname in
  same_elsewhere (names s) (redis w) (redis (runServer once config s w).2).
Proof.
  intros s. unfold names.
  apply (steps_runServer cfg hostname (same_elsewhere _)); frame_rel.
Qed.

(** X17. Nothing takes a tag out of the avoid set: a set kept at the
    avoid key without a time to live is still there, without a time to live
    and with every member it had, after any run of the loop of [runServer],
    and so after any call of either handler. *)
Theorem avoid_set_never_shrinks (once : bool) (config cfg : Config)
  hostname (w : World G) :
  let s := NewState cfg hostname in
  grows_at (avoidReleaseTagKey s) (redis w) (redis (runServer once config s w).2)
  ∧ grows_at (avoidReleaseTagKey s) (redis w)
      (redis (handleCanaryRelease config s w).2)
  ∧ grows_at (avoidReleaseTagKey s) (redis w) (redis (handleRollout config s w).2).
Proof.
  intros s.
  assert (Hel : ∀ keys, avoidReleaseTagKey s ∉ keys →
            ∀ db db', same_elsewhere keys db db' →
                      grows_at (avoidReleaseTagKey s) db db').
  { intros keys Hk db db'. by apply grows_at_elsewhere. }
  split; [|split].
  - apply (steps_runServer cfg hostname (grows_at _));
      first [exact (grows_at_refl _)|exact (grows_at_trans _)
            |exact (SaveAvoidReleaseTag_grows _)
            |apply Hel; subst s; other_name].
  - apply (steps_handleCanaryRelease cfg hostname (grows_at _));
      first [exact (grows_at_refl _)|exact (grows_at_trans _)
            |exact (SaveAvoidReleaseTag_grows _)
            |apply Hel; subst s; other_name].
  - apply (Hel [membersTagKey s; me s; rolloutKey s]); [subst s; other_name|].
    apply frames_handleRollout.
Qed.

(** X18. A canary that fails does not release the canary lock and does
    not change the stable tag: the branch of [handleCanaryRelease] that
    follows a failed health check never returns nil, and whatever it returns
    it has written at most the avoid set. *)
Theorem failed_canary_keeps_the_lock (config cfg : Config) hostname
  tag last out err (w : World G) :
  let s := NewState cfg hostname in
  let r : result canary_outcome * World G :=
    canary_failed config s tag last out err w in
  same_elsewhere [avoidReleaseTagKey s] (redis w) (redis r.2)
  ∧ Redis.keyspace (redis r.2) !! canaryReleaseTagKey s
    = Redis.keyspace (redis w) !! canaryReleaseTagKey s
  ∧ Redis.keyspace (redis r.2) !! stableReleaseTagKey s
    = Redis.keyspace (redis w) !! stableReleaseTagKey s
  ∧ ∀ o, r.1 ≠ Ok o.
Proof.
  intros s r.
  assert (H : same_elsewhere [avoidReleaseTagKey s] (redis w) (redis r.2)).
  { apply (steps_canary_failed cfg hostname (same_elsewhere _)); frame_rel. }
  split; [exact H|]. destruct H as [_ H].
  split; [apply H; subst s; other_name|].
  split; [apply H; subst s; other_name|].
  intros o Ho. subst r. destruct (canary_failed _ _ _ _ _ _ w) as [r1 w1] eqn:E.
  cbn in Ho. subst r1. by apply canary_failed_not_Ok in E.
Qed.

End WritesFacts.


(* ===================================================================== *)
(** * A rollout that succeeds, and what [deploy] runs *)
(* ===================================================================== *)

Section Runs.
Context {P : Platform} {G : Type} {GH : GitHuber G}.

Lemma frames_run {A} keys (m : Go G A) (w w' : World G) r :
  frames keys m → m w = (r, w') → same_elsewhere keys (redis w) (redis w').
Proof. intros Hm E. specialize (Hm w). by rewrite E in Hm. Qed.

Lemma grows_run {A} (m : Go G A) (w w' : World G) r e :
  grows m → m w = (r, w') → e ∈ trace w → e ∈ trace w'.
Proof.
  intros Hm E He. replace w' with (m w).2 by (by rewrite E). by apply grows_In.
Qed.

Lemma getRelease_Ok_inv s key (w w' : World G) v :
  getRelease s key w = (Ok v, w') → v ≠ "" →
  ∃ d, Redis.find key (redis w) = Some (Redis.Entry (Redis.VString v) d).
Proof.
  unfold getRelease, Redis.Get. rewrite store_roundtrip.
  destruct (next_fault (redis w)); [done|]. unfold Redis.srv_get.
  change (Redis.find key (after_roundtrip (redis w)))
    with (Redis.find key (redis w)).
  destruct (Redis.find key (redis w)) as [[[v0|members] d]|]; intros [= <- _] Hv;
    [|done]. by exists d.
Qed.

Lemma grows_scan_members tag members deleted installed :
  grows (G:=G) (scan_members tag members deleted installed).
Proof.
  revert deleted installed.
  induction members as [|m rest IH]; intros deleted installed; [apply grows_ret|].
  cbn [scan_members]. intros w. unfold store.
  destruct (Redis.Get m (redis w)) as [[b| |msg] db]; cbn [fst snd].
  - destruct (json_Unmarshal b); [|by exists []]. apply (IH _ _ (set_redis db w)).
  - apply (IH _ _ (set_redis db w)).
  - by exists [].
Qed.

Lemma grows_GetRolloutProgress s tag : grows (G:=G) (GetRolloutProgress s tag).
Proof.
  intros w. unfold GetRolloutProgress, store.
  destruct (Redis.SMembers (membersTagKey s) (redis w)) as [r db].
  match goal with
  | |- ∃ evs, trace (?m ?w1).2 = _ =>
      assert (grows m) as Hm; [|apply (Hm w1)]
  end.
  grows_go. apply grows_scan_members.
Qed.

(** X19. A rollout that succeeds: the stable tag was not empty, the
    rollout lock was free and the call took it for the stable tag; the
    deploy command has run; and [handleRollout] never releases the lock,
    which lives for the whole seconds of the rollout window, [life], from
    the instant of the store at which it was taken: when the clock of the
    store is [d] past that instant, the lock is there if [d < life] and is
    gone if not, however long the call itself has taken, and at once when
    the window is not positive.  The stable tag is as it was. *)
Theorem rollout_success (config cfg : Config) hostname (w w' : World G)
  (installed all : Z) :
  let s := NewState cfg hostname in
  let life := Redis.formatSec (RolloutWindow cfg) * second in
  handleRollout config s w = (Ok (RolledOut installed all), w') →
  ∃ tag,
    tag ≠ ""
    ∧ (∃ d, Redis.find (stableReleaseTagKey s) (redis w)
            = Some (Redis.Entry (Redis.VString tag) d))
    ∧ Redis.find (rolloutKey s) (redis w) = None
    ∧ Redis.now (redis w') = Redis.now (redis w)
    ∧ (∀ d, Redis.find (rolloutKey s) (Redis.advance d (redis w'))
            = if d <? life
              then Some (lock_entry tag (Some (Redis.now (redis w) + life)))
              else None)
    ∧ (∃ tag' file,
         Exec_ (DeployCommand config) (release_env tag' file) (5 * minute)
         ∈ trace w')
    ∧ Redis.keyspace (redis w') !! stableReleaseTagKey s
      = Redis.keyspace (redis w) !! stableReleaseTagKey s.
Proof.
  intros s life H.
  pose proof (frames_run _ _ _ _ _ (frames_handleRollout config s) H) as Hall.
  unfold handleRollout in H.
  apply bind_Ok_inv in H as ([] & w1 & H1 & H).
  apply bind_Ok_inv in H as (tag & w2 & H2 & H).
  destruct (String.eqb tag "") eqn:Etag; [done|].
  apply String.eqb_neq in Etag.
  apply bind_Ok_inv in H as ([] & w3 & H3 & H).
  apply bind_Ok_inv in H as (got & w4 & H4 & H). destruct got; [|done].
  assert (Hpre : same_elsewhere [membersTagKey s; me s] (redis w) (redis w3)).
  { eapply same_elsewhere_trans;
      [apply (frames_run _ _ _ _ _ (frames_SaveMemberState s) H1)|].
    eapply same_elsewhere_trans;
      [apply (frames_run _ _ _ _ _ (frames_CurrentStableTag _ s) H2)|].
    apply (frames_run _ _ _ _ _ (frames_CanInstallTag _ s tag) H3). }
  assert (Htail : same_elsewhere [membersTagKey s; me s] (redis w4) (redis w')).
  { match type of H with
    | ?m w4 = _ => assert (Hm : frames [membersTagKey s; me s] m)
    end.
    { frames_go; try apply frames_deploy; try apply frames_SaveMemberState.
      eapply frames_mono; [|apply frames_GetRolloutProgress]. keys_incl. }
    apply (frames_run _ _ _ _ _ Hm H). }
  exists tag. split; [done|].
  destruct (getRelease_Ok_inv _ _ _ _ _ H2 Etag) as [d Hstable].
  unfold TryRolloutLock in H4.
  destruct (getLock_true_inv _ _ _ _ _ _ H4) as (Hfree & Hlock & _).
  change (Redis.formatSec _ * second) with life in Hlock. clearbody life.
  split; [|split; [|split; [|split; [|split]]]].
  - exists d. rewrite <- Hstable. symmetry.
    eapply find_same_elsewhere;
      [apply (frames_run _ _ _ _ _ (frames_SaveMemberState s) H1)|].
    subst s. other_name.
  - rewrite <- Hfree. symmetry.
    eapply find_same_elsewhere; [exact Hpre|]. subst s. other_name.
  - by destruct Hall as [-> _].
  - intros d0. unfold Redis.find, Redis.advance.
    cbn [Redis.keyspace Redis.now].
    destruct Htail as [_ Htail]. rewrite Htail by (subst s; other_name).
    rewrite Hlock. destruct Hall as [-> _]. destruct Hpre as [-> _].
    unfold Redis.alive, lock_entry. cbn [Redis.e_deadline].
    destruct (Z.ltb_spec d0 life), (Z.ltb_spec (Redis.now (redis w) + d0)
                                      (Redis.now (redis w) + life)); done || lia.
  - rewrite bind_slog in H.
    apply bind_Ok_inv in H as (dd & w5 & Hd & H).
    destruct dd as [[tag' file]|err]; [|done].
    apply try_Ok_inv in Hd as [(? & Hd & [= <-])|(? & _ & ?)]; [|done].
    apply deploy_Ok in Hd. exists tag', file.
    match type of H with ?m w5 = _ => assert (Hm : grows m) end.
    { grows_go. apply grows_GetRolloutProgress. }
    by apply (grows_run _ _ _ _ _ Hm H).
  - destruct Hall as [_ Hall]. apply Hall. subst s. other_name.
Qed.

End Runs.

Lemma rollout_success_witness :
  let w := Demo.world
             (Demo.db_of [("acme/app_stable_release_tag",
                           Redis.Entry (Redis.VString "v2") None)] [])
             (Demo.github_of (Demo.remote (Demo.release "v2" 20 [Demo.tarball 7]) []))
             "v1" [] [] in
  let s := NewState Demo.cfg "node1" in
  let w' := (handleRollout Demo.cfg s w).2 in
  handleRollout Demo.cfg s w = (Ok (RolledOut 1 1), w')
  ∧ Demo.installed (node (host w')) = "v2"
  ∧ ∃ tag,
      tag ≠ ""
      ∧ (∃ d, Redis.find (stableReleaseTagKey s) (redis w)
              = Some (Redis.Entry (Redis.VString tag) d))
      ∧ Redis.find (rolloutKey s) (redis w) = None
      ∧ Redis.now (redis w') = Redis.now (redis w)
      ∧ (∀ d, Redis.find (rolloutKey s) (Redis.advance d (redis w'))
              = if d <? Redis.formatSec (RolloutWindow Demo.cfg) * second
                then Some (lock_entry tag
                             (Some (Redis.now (redis w)
                                    + Redis.formatSec (RolloutWindow Demo.cfg)
                                      * second)))
                else None)
      ∧ (∃ tag' file,
           Exec_ (DeployCommand Demo.cfg) (release_env tag' file) (5 * minute)
           ∈ trace w')
      ∧ Redis.keyspace (redis w') !! stableReleaseTagKey s
        = Redis.keyspace (redis w) !! stableReleaseTagKey s.
Proof.
  intros w s w'.
  assert (H : handleRollout Demo.cfg s w = (Ok (RolledOut 1 1), w'))
    by (vm_compute; reflexivity).
  split; [exact H|]. split; [vm_compute; reflexivity|].
  exact (rollout_success Demo.cfg Demo.cfg "node1" w w' 1 1 H).
Defined.

Section DeployRuns.
Context {P : Platform}.

Lemma never_run_app cmd evs tr :
  never_run cmd evs → invocations cmd (evs ++ tr) = invocations cmd tr.
Proof.
  unfold never_run, invocations. induction 1 as [|e evs He _ IH]; [done|].
  cbn [app List.filter].
  destruct e as [| c env t | | | |]; try exact IH.
  apply String.eqb_neq in He. by rewrite He.
Qed.

Lemma select_release_never_runs cmd g tag : never_run cmd (select_release g tag).2.
Proof.
  unfold select_release, never_run.
  repeat (match goal with
          | |- context [match ?x with _ => _ end] => destruct x
          | |- context [if ?b then _ else _] => destruct b
          end; cbn [fst snd]); repeat constructor.
Qed.

Lemma fetch_asset_never_runs cmd g release asset (h : Host machine) :
  never_run cmd (fetch_asset g release asset h).2.
Proof.
  unfold fetch_asset, never_run. cbv zeta.
  destruct (fs h !! _) as [[c|]|]; cbn [snd]; [constructor..|].
  destruct (asset_download _ _) as [err|[b|loc]]; cbn [snd fst].
  - repeat constructor.
  - destruct (bool_decide _); [repeat constructor|].
    destruct b; repeat constructor.
  - destruct (String.eqb loc ""); cbn [snd fst].
    + destruct (bool_decide _); repeat constructor.
    + destruct (http_Do _ loc) as [err|b]; cbn [snd fst]; [repeat constructor|].
      destruct (bool_decide _); [repeat constructor|].
      destruct b; repeat constructor.
Qed.

Lemma DownloadReleaseAsset_never_runs cmd tag g (h : Host machine) :
  never_run cmd (GitHub_DownloadReleaseAsset tag g h).2.
Proof.
  unfold GitHub_DownloadReleaseAsset.
  destruct (_ && _); [constructor|].
  pose proof (select_release_never_runs cmd g tag) as Hs.
  destruct (select_release g tag) as [[[release|]|e|p] evs]; cbn [fst snd] in *;
    try exact Hs.
  destruct (first_matching g (Assets release)) as [asset|]; [|exact Hs].
  pose proof (fetch_asset_never_runs cmd g release asset h) as Hf.
  destruct (fetch_asset g release asset h) as [[[r g'] h'] evs']. cbn [fst snd] in *.
  unfold never_run in *. by apply Forall_app.
Qed.

Lemma invocations_download cmd tag (w : World GitHub) :
  invocations cmd (trace (github_DownloadReleaseAsset tag w).2)
  = invocations cmd (trace w).
Proof.
  unfold github_DownloadReleaseAsset. cbn [DownloadReleaseAsset GitHub_GitHuber].
  pose proof (DownloadReleaseAsset_never_runs cmd tag (github w) (host w)) as H.
  destruct (GitHub_DownloadReleaseAsset tag (github w) (host w)) as [[[r g] h] evs].
  cbn [fst snd trace] in *. by apply never_run_app.
Qed.

Lemma invocations_version {G} cmd s (w : World G) :
  cmd ≠ VersionCommand (config s) →
  invocations cmd (trace (GetLastInstalledTag s w).2) = invocations cmd (trace w).
Proof.
  intros Hne. unfold GetLastInstalledTag, bind, run_sh.
  destruct (sh _ _ _ (host w)) as [c h].
  assert (String.eqb (VersionCommand (config s)) cmd = false) as E
    by (apply String.eqb_neq; congruence).
  destruct (failure c); unfold invocations; cbn; by rewrite E.
Qed.

Lemma invocations_executeCommand {G} cmd tag file t (w : World G) :
  invocations cmd (trace (executeCommand cmd tag file t w).2)
  = Datatypes.S (invocations cmd (trace w)).
Proof.
  unfold executeCommand, bind, run_sh.
  destruct (sh _ _ _ (host w)) as [c h].
  destruct (failure c); unfold invocations; cbn; by rewrite String.eqb_refl.
Qed.

Lemma executeCommand_returns {G} cmd tag file t (w : World G) :
  ∃ out err w', executeCommand cmd tag file t w = (Ok (out, err), w').
Proof.
  unfold executeCommand, bind, run_sh. destruct (sh _ _ _ (host w)) as [c h].
  destruct (failure c); cbn; eauto.
Qed.

Lemma executeCommand_runs {G} cmd tag file t (w : World G) :
  Exec_ cmd (release_env tag file) (if 0 <? t then t else 0)
  ∈ trace (executeCommand cmd tag file t w).2.
Proof.
  unfold executeCommand, bind, run_sh. destruct (sh _ _ _ (host w)) as [c h].
  destruct (failure c); cbn; [apply list_elem_of_here|].
  apply list_elem_of_further, list_elem_of_here.
Qed.

(** X20. [deploy] runs its command at most once, and only once the asset
    is there and the version command has answered: when the release source
    returns an error, or the version command fails, the command is not run;
    when [deploy] returns nil, the command has run exactly once, with the tag
    and the file that the release source returned in [RELEASE_TAG] and
    [ASSET_FILE], and five minutes to finish. *)
Theorem deploy_runs_the_command_once (cmd target : string) (s : State)
  (w : World GitHub) :
  cmd ≠ VersionCommand (config s) →
  let got := github_DownloadReleaseAsset target w in
  let r := deploy cmd target s w in
  match got.1 with
  | Ok (tag, file) =>
      match (GetLastInstalledTag s got.2).1 with
      | Ok _ =>
          invocations cmd (trace r.2) = Datatypes.S (invocations cmd (trace w))
          ∧ Exec_ cmd (release_env tag file) (5 * minute) ∈ trace r.2
          ∧ (r.1 = Ok (tag, file) ∨ ∃ msg, r.1 = Err (ErrorString msg))
      | _ =>
          invocations cmd (trace r.2) = invocations cmd (trace w)
          ∧ ∀ x, r.1 ≠ Ok x
      end
  | _ =>
      invocations cmd (trace r.2) = invocations cmd (trace w)
      ∧ r.2 = got.2 ∧ ∀ x, r.1 ≠ Ok x
  end.
Proof.
  intros Hne got r. subst got r.
  pose proof (invocations_download cmd target w) as Hd.
  unfold deploy, bind, try.
  destruct (github_DownloadReleaseAsset target w) as [[[tag file]|e|h] w1];
    cbn [fst snd] in *; [|done..].
  pose proof (invocations_version cmd s w1 Hne) as Hv.
  destruct (GetLastInstalledTag s w1) as [[v|e|h] w2]; cbn [fst snd] in *;
    [|split; [unfold fail; cbn [fst snd]; congruence|done]..].
  unfold slog, emit. cbn [fst snd].
  match goal with
  | |- context [executeCommand cmd tag file (5 * minute) ?w3] =>
      pose proof (invocations_executeCommand cmd tag file (5 * minute) w3) as He;
      pose proof (executeCommand_runs cmd tag file (5 * minute) w3) as Hin;
      destruct (executeCommand_returns cmd tag file (5 * minute) w3)
        as (out & err & w4 & Ex);
      rewrite Ex in *
  end.
  change (if 0 <? 5 * minute then 5 * minute else 0) with (5 * minute) in Hin.
  cbn [fst snd trace] in *.
  destruct err as [e|]; cbn [fst snd trace].
  - split; [unfold invocations in *; cbn in *; lia|]. split; [done|].
    right. eauto.
  - split; [unfold invocations in *; cbn in *; lia|]. split; [done|]. by left.
Qed.

End DeployRuns.

Lemma deploy_runs_the_command_once_witness :
  let v2 := Demo.release "v2" 20 [Demo.tarball 7] in
  let w := Demo.world (Demo.db_of [] []) (Demo.github_of (Demo.remote v2 []))
             "v1" [] [] in
  let s := NewState Demo.cfg "node1" in
  let got := github_DownloadReleaseAsset (P:=Demo.platform) "v2" w in
  let r := deploy "deploy" "v2" s w in
  "deploy" ≠ VersionCommand (config s)
  ∧ r.1 = Ok ("v2", "/usr/local/src/app.tar.gz")
  ∧ match got.1 with
    | Ok (tag, file) =>
        match (GetLastInstalledTag s got.2).1 with
        | Ok _ =>
            invocations "deploy" (trace r.2)
            = Datatypes.S (invocations "deploy" (trace w))
            ∧ Exec_ "deploy" (release_env tag file) (5 * minute) ∈ trace r.2
            ∧ (r.1 = Ok (tag, file) ∨ ∃ msg, r.1 = Err (ErrorString msg))
        | _ =>
            invocations "deploy" (trace r.2) = invocations "deploy" (trace w)
            ∧ ∀ x, r.1 ≠ Ok x
        end
    | _ =>
        invocations "deploy" (trace r.2) = invocations "deploy" (trace w)
        ∧ r.2 = got.2 ∧ ∀ x, r.1 ≠ Ok x
    end.
Proof.
  intros v2 w s got r.
  assert (H : "deploy" ≠ VersionCommand (config s)) by discriminate.
  split; [exact H|]. split; [vm_compute; reflexivity|].
  exact (deploy_runs_the_command_once (P:=Demo.platform) "deploy" "v2" s w H).
Defined.

Section LoopEnds.
Context {P : Platform} {G : Type} {GH : GitHuber G}.

Lemma rollout_error_Return err (w w' : World G) e :
  rollout_error err w = (Ok (Return_ e), w') →
  e = Some err
  ∧ errors_Is err ErrAlreadyInstalled = false
  ∧ errors_Is err ErrAssetsCannotDownload = false.
Proof.
  unfold rollout_error.
  destruct (errors_Is err ErrAlreadyInstalled); [by rewrite bind_slog|].
  destruct (errors_Is err ErrAssetsCannotDownload); [by rewrite bind_slog|].
  by intros [= <- _].
Qed.

Lemma canary_error_Return err (w w' : World G) e :
  canary_error err w = (Ok (Return_ e), w') →
  e = Some err
  ∧ errors_Is err ErrAlreadyInstalled = false
  ∧ errors_Is err ErrAssetsCannotDownload = false.
Proof.
  unfold canary_error.
  destruct (errors_Is err ErrAssetsNotFound), (errors_Is err ErrAlreadyInstalled),
    (errors_Is err ErrAvoidReleaseTag), (errors_Is err ErrAssetsCannotDownload),
    (errors_Is err ErrRollback), (errors_Is err ErrNoRollback);
    cbn [orb]; try (by rewrite bind_slog); by intros [= <- _].
Qed.

Lemma serve_returns_only_errors fuel stopped config s (w w' : World G) r :
  serve fuel false stopped config s w = (Ok r, w') →
  ∃ e, r = Some e
       ∧ errors_Is e ErrAlreadyInstalled = false
       ∧ errors_Is e ErrAssetsCannotDownload = false.
Proof.
  revert stopped w. induction fuel as [|fuel IH]; intros stopped w; [done|].
  cbn [serve]. destruct (sched w) as [|[| | |] rest]; try done.
  - destruct stopped; [done|]. intros H.
    apply bind_Ok_inv in H as (c & w1 & Hc & H).
    destruct c as [|e]; [by apply IH in H|].
    injection H as <- <-. unfold rollout_case in Hc.
    apply bind_Ok_inv in Hc as (x & w2 & _ & Hc).
    destruct x as [o|err]; [done|].
    apply rollout_error_Return in Hc as (-> & ? & ?). eauto.
  - intros H. apply bind_Ok_inv in H as (c & w1 & Hc & H).
    destruct c as [|e]; [by apply IH in H|].
    injection H as <- <-. unfold canary_case in Hc.
    apply bind_Ok_inv in Hc as (x & w2 & _ & Hc).
    destruct x as [o|err]; [done|].
    apply canary_error_Return in Hc as (-> & ? & ?). eauto.
Qed.

(** X21. Outside the one-shot mode the loop of [runServer] never returns
    nil: when it returns, it returns an error, and that error is neither
    "already installed" nor "assets cannot download" for [errors.Is]. *)
Theorem runServer_returns_only_errors (config : Config) (s : State)
  (w w' : World G) (r : option error) :
  runServer false config s w = (Ok r, w') →
  ∃ e, r = Some e
       ∧ errors_Is e ErrAlreadyInstalled = false
       ∧ errors_Is e ErrAssetsCannotDownload = false.
Proof. apply serve_returns_only_errors. Qed.

End LoopEnds.

Lemma runServer_returns_only_errors_witness :
  let w := Demo.world (Demo.db_of [] [])
             (Demo.github_of
                (Demo.remote (Demo.release "v2" 20 [Demo.checksums 7]) []))
             "v1" [] [rolloutTicker; gitTicker; rolloutTicker] in
  let r := runServer false Demo.cfg Demo.state w in
  let err := ErrorString "can't get release asset: no match assets" in
  r = (Ok (Some err), r.2)
  ∧ sched r.2 = [rolloutTicker]
  ∧ ∃ e, Some err = Some e
         ∧ errors_Is e ErrAlreadyInstalled = false
         ∧ errors_Is e ErrAssetsCannotDownload = false.
Proof.
  intros w r err.
  assert (H : runServer false Demo.cfg Demo.state w = (Ok (Some err), r.2))
    by (vm_compute; reflexivity).
  split; [exact H|]. split; [vm_compute; reflexivity|].
  exact (runServer_returns_only_errors Demo.cfg Demo.state w r.2 (Some err) H).
Defined.


(* ===================================================================== *)
(** * No deployment without the lock *)
(* ===================================================================== *)

Section Silent.
Context {P : Platform} {G : Type}.
Variable cmd : string.

Lemma silent_ret {A} (a : A) : silent (G:=G) cmd (ret a).
Proof. done. Qed.

Lemma silent_fail {A} e : silent (G:=G) (A:=A) cmd (fail e).
Proof. done. Qed.

Lemma silent_slog l m a : silent (G:=G) cmd (slog l m a).
Proof. done. Qed.

Lemma silent_bind {A B} (m : Go G A) (k : A → Go G B) :
  silent cmd m → (∀ a, silent cmd (k a)) → silent cmd (bind m k).
Proof.
  intros Hm Hk w. unfold bind. specialize (Hm w).
  destruct (m w) as [[a|e|h] w1]; cbn in *; try done.
  by rewrite Hk.
Qed.

Lemma silent_try {A} (m : Go G A) : silent cmd m → silent cmd (try m).
Proof.
  intros Hm w. unfold try. specialize (Hm w).
  by destruct (m w) as [[a|e|h] w1].
Qed.

Lemma silent_store_Result {A} (c : Redis.t → Redis.reply A * Redis.t) :
  silent (G:=G) cmd (store_Result c).
Proof.
  intros w. unfold store_Result, store.
  by destruct (c (redis w)) as [[a| |msg] db].
Qed.

Lemma silent_getRelease s key : silent (G:=G) cmd (getRelease s key).
Proof.
  intros w. unfold getRelease, store.
  by destruct (Redis.Get key (redis w)) as [[a| |msg] db].
Qed.

Lemma silent_GetLastInstalledTag s :
  cmd ≠ VersionCommand (config s) → silent (G:=G) cmd (GetLastInstalledTag s).
Proof. intros Hne w. by apply invocations_version. Qed.

End Silent.

Ltac silent_step :=
  lazymatch goal with
  | |- silent _ (bind _ _) => apply silent_bind; [|intros ?]
  | |- silent _ (match ?x with _ => _ end) => destruct x
  | |- silent _ (if ?b then _ else _) => destruct b
  | |- silent _ (try _) => apply silent_try
  | |- silent _ (ret _) => apply silent_ret
  | |- silent _ (fail _) => apply silent_fail
  | |- silent _ (slog _ _ _) => apply silent_slog
  | |- silent _ (store_Result _) => apply silent_store_Result
  | |- silent _ (getRelease _ _) => apply silent_getRelease
  | |- silent _ (GetLastInstalledTag _) => by apply silent_GetLastInstalledTag
  end.
Ltac silent_go := repeat silent_step.

Section NoDeploy.
Context {P : Platform}.

Lemma silent_SaveMemberState {G} cmd s :
  cmd ≠ VersionCommand (config s) → silent (G:=G) cmd (SaveMemberState s).
Proof. intros Hne. unfold SaveMemberState. silent_go. Qed.

Lemma silent_CanInstallTag {G} cmd s tag :
  cmd ≠ VersionCommand (config s) → silent (G:=G) cmd (CanInstallTag s tag).
Proof. intros Hne. unfold CanInstallTag, getReleases. silent_go. Qed.

Lemma silent_CurrentStableTag {G} cmd s : silent (G:=G) cmd (CurrentStableTag s).
Proof. apply silent_getRelease. Qed.

Lemma silent_getLock {G} cmd s key tag ttl : silent (G:=G) cmd (getLock s key tag ttl).
Proof. unfold getLock. silent_go. Qed.

Lemma silent_download cmd tag : silent cmd (github_DownloadReleaseAsset tag).
Proof. intros w. apply invocations_download. Qed.

Lemma getLock_held {G} s key tag ttl (w : World G) e :
  Redis.find key (redis w) = Some e →
  (getLock s key tag ttl w).1 = Ok false
  ∨ (getLock s key tag ttl w).1 = Err (ErrorString Redis.unreachable).
Proof.
  intros Hheld. rewrite getLock_eq. cbv zeta.
  destruct (next_fault (redis w)); [by right|]. rewrite Hheld. by left.
Qed.

Lemma getLock_acquires_held {G} s key tag ttl (w : World G) e :
  Redis.find key (redis w) = Some e →
  Redis.find key (redis (getLock s key tag ttl w).2) = Some e.
Proof.
  intros Hheld. rewrite getLock_eq. cbv zeta.
  destruct (next_fault (redis w)); [exact Hheld|]. rewrite Hheld. exact Hheld.
Qed.

Lemma run_held {G A} keys key (m : Go G A) (w : World G) e :
  frames keys m → key ∉ keys →
  Redis.find key (redis w) = Some e → Redis.find key (redis (m w).2) = Some e.
Proof.
  intros Hm Hk <-. eapply find_same_elsewhere; [apply Hm|done].
Qed.

(** X22. No deployment without the lock.  While the canary lock is held,
    by any node and for any tag, a call of [handleCanaryRelease] does not
    run the deploy command, the health-check command or the rollback command,
    does not report a release, and leaves the lock as it is; and while the
    rollout lock is held, a call of [handleRollout] does not run the deploy
    command and does not report a rollout. *)
Theorem no_deployment_without_the_lock (config cfg : Config) hostname
  (cmd : string) (w : World GitHub) (e : Redis.entry) :
  let s := NewState cfg hostname in
  cmd ≠ VersionCommand cfg →
  (Redis.find (canaryReleaseTagKey s) (redis w) = Some e →
   let r := handleCanaryRelease config s w in
   invocations cmd (trace r.2) = invocations cmd (trace w)
   ∧ (∀ tag, r.1 ≠ Ok (Released tag))
   ∧ Redis.find (canaryReleaseTagKey s) (redis r.2) = Some e)
  ∧ (Redis.find (rolloutKey s) (redis w) = Some e →
     let r := handleRollout config s w in
     invocations cmd (trace r.2) = invocations cmd (trace w)
     ∧ (∀ installed all, r.1 ≠ Ok (RolledOut installed all))
     ∧ Redis.find (rolloutKey s) (redis r.2) = Some e).
Proof.
  intros s Hne.
  split.
  - intros Hheld r. subst r.
    set (Q := λ r : result canary_outcome * World GitHub,
           invocations cmd (trace r.2) = invocations cmd (trace w)
           ∧ (∀ tag, r.1 ≠ Ok (Released tag))
           ∧ Redis.find (canaryReleaseTagKey s) (redis r.2) = Some e).
    change (Q (handleCanaryRelease config s w)).
    unfold handleCanaryRelease.
    unfold bind at 1.
    pose proof (silent_SaveMemberState cmd s Hne w) as I1.
    pose proof (run_held _ (canaryReleaseTagKey s) _ w e
                  (frames_SaveMemberState s)
                  ltac:(subst s; other_name) Hheld) as F1.
    destruct (SaveMemberState s w) as [[[]|e1|h1] w1]; cbn [fst snd] in *;
      [|by unfold Q..].
    unfold bind at 1.
    pose proof (silent_GetLastInstalledTag cmd s Hne w1) as I2.
    pose proof (run_held [] (canaryReleaseTagKey s) _ w1 e
                  (frames_GetLastInstalledTag _ s) (not_elem_of_nil _) F1) as F2.
    destruct (GetLastInstalledTag s w1) as [[last|e2|h2] w2]; cbn [fst snd] in *;
      [|unfold Q; split; [cbn; congruence|done]..].
    unfold bind at 1.
    pose proof (silent_CurrentStableTag cmd s w2) as I3.
    pose proof (run_held [] (canaryReleaseTagKey s) _ w2 e
                  (frames_CurrentStableTag _ s) (not_elem_of_nil _) F2) as F3.
    destruct (CurrentStableTag s w2) as [[stable|e3|h3] w3]; cbn [fst snd] in *;
      [|unfold Q; split; [cbn; congruence|done]..].
    unfold bind at 1, try.
    pose proof (silent_download cmd LatestTag w3) as I4.
    pose proof (run_held [] (canaryReleaseTagKey s) _ w3 e
                  (frames_github_DownloadReleaseAsset _ LatestTag)
                  (not_elem_of_nil _) F3) as F4.
    destruct (github_DownloadReleaseAsset LatestTag w3) as [[[tag file]|e4|h4] w4];
      cbn [fst snd] in *; [|unfold Q; split; [cbn; congruence|done]..].
    destruct (String.eqb tag stable); [unfold Q; split; [cbn; congruence|done]|].
    unfold bind at 1.
    pose proof (silent_CanInstallTag cmd s tag Hne w4) as I5.
    pose proof (run_held [] (canaryReleaseTagKey s) _ w4 e
                  (frames_CanInstallTag _ s tag) (not_elem_of_nil _) F4) as F5.
    destruct (CanInstallTag s tag w4) as [[[]|e5|h5] w5]; cbn [fst snd] in *;
      [|unfold Q; split; [cbn; congruence|done]..].
    unfold bind at 1. unfold TryCanaryReleaseLock.
    match goal with
    | |- context [getLock s ?k ?t ?ttl w5] =>
        pose proof (silent_getLock cmd s k t ttl w5) as I6;
        pose proof (getLock_held s k t ttl w5 e F5) as L6;
        pose proof (getLock_acquires_held s k t ttl w5 e F5) as F6
    end.
    destruct (getLock s _ tag _ w5) as [[got|e6|h6] w6]; cbn [fst snd] in *;
      [|unfold Q; split; [cbn; congruence|done]..].
    destruct L6 as [[= ->]|?]; [|done].
    unfold Q. split; [cbn; congruence|done].
  - intros Hheld r. subst r.
    set (Q := λ r : result rollout_outcome * World GitHub,
           invocations cmd (trace r.2) = invocations cmd (trace w)
           ∧ (∀ installed all, r.1 ≠ Ok (RolledOut installed all))
           ∧ Redis.find (rolloutKey s) (redis r.2) = Some e).
    change (Q (handleRollout config s w)).
    unfold handleRollout.
    unfold bind at 1.
    pose proof (silent_SaveMemberState cmd s Hne w) as I1.
    pose proof (run_held _ (rolloutKey s) _ w e (frames_SaveMemberState s)
                  ltac:(subst s; other_name) Hheld) as F1.
    destruct (SaveMemberState s w) as [[[]|e1|h1] w1]; cbn [fst snd] in *;
      [|by unfold Q..].
    unfold bind at 1.
    pose proof (silent_CurrentStableTag cmd s w1) as I3.
    pose proof (run_held [] (rolloutKey s) _ w1 e
                  (frames_CurrentStableTag _ s) (not_elem_of_nil _) F1) as F3.
    destruct (CurrentStableTag s w1) as [[tag|e3|h3] w3]; cbn [fst snd] in *;
      [|unfold Q; split; [cbn; congruence|done]..].
    destruct (String.eqb tag ""); [unfold Q; split; [cbn; congruence|done]|].
    unfold bind at 1.
    pose proof (silent_CanInstallTag cmd s tag Hne w3) as I5.
    pose proof (run_held [] (rolloutKey s) _ w3 e
                  (frames_CanInstallTag _ s tag) (not_elem_of_nil _) F3) as F5.
    destruct (CanInstallTag s tag w3) as [[[]|e5|h5] w5]; cbn [fst snd] in *;
      [|unfold Q; split; [cbn; congruence|done]..].
    unfold bind at 1. unfold TryRolloutLock.
    match goal with
    | |- context [getLock s ?k ?t ?ttl w5] =>
        pose proof (silent_getLock cmd s k t ttl w5) as I6;
        pose proof (getLock_held s k t ttl w5 e F5) as L6;
        pose proof (getLock_acquires_held s k t ttl w5 e F5) as F6
    end.
    destruct (getLock s _ tag _ w5) as [[got|e6|h6] w6]; cbn [fst snd] in *;
      [|unfold Q; split; [cbn; congruence|done]..].
    destruct L6 as [[= ->]|?]; [|done].
    unfold Q. split; [cbn; congruence|done].
Qed.

End NoDeploy.

Lemma no_deployment_without_the_lock_witness :
  let held := lock_entry "v9" (Some 5000) in
  let g := Demo.github_of (Demo.remote (Demo.release "v2" 20 [Demo.tarball 7]) []) in
  let w := Demo.world
             (Demo.db_of [("acme/app_canary_release_tag", held);
                          ("acme/app_rollout", held);
                          ("acme/app_stable_release_tag",
                           Redis.Entry (Redis.VString "v3") None)] [])
             g "v1" [] [] in
  let s := NewState Demo.cfg "node1" in
  "deploy" ≠ VersionCommand Demo.cfg
  ∧ (handleCanaryRelease Demo.cfg s w).1 = Ok CanaryLockNotAcquired
  ∧ (handleRollout Demo.cfg s w).1 = Ok RolloutLockNotAcquired
  ∧ (Redis.find (canaryReleaseTagKey s) (redis w) = Some held →
     let r := handleCanaryRelease Demo.cfg s w in
     invocations "deploy" (trace r.2) = invocations "deploy" (trace w)
     ∧ (∀ tag, r.1 ≠ Ok (Released tag))
     ∧ Redis.find (canaryReleaseTagKey s) (redis r.2) = Some held)
  ∧ (Redis.find (rolloutKey s) (redis w) = Some held →
     let r := handleRollout Demo.cfg s w in
     invocations "deploy" (trace r.2) = invocations "deploy" (trace w)
     ∧ (∀ installed all, r.1 ≠ Ok (RolledOut installed all))
     ∧ Redis.find (rolloutKey s) (redis r.2) = Some held).
Proof.
  intros held g w s.
  assert (H : "deploy" ≠ VersionCommand Demo.cfg) by discriminate.
  split; [exact H|]. split; [vm_compute; reflexivity|].
  split; [vm_compute; reflexivity|].
  exact (no_deployment_without_the_lock (P:=Demo.platform) Demo.cfg Demo.cfg
           "node1" "deploy" w held H).
Defined.


(* ===================================================================== *)
(** * Start-up *)
(* ===================================================================== *)

Local Ltac stopped := cbn; repeat split; try done; intros ?; discriminate.

Section StartUpFacts.
Context {P : Platform}.
Variable regexp_Compile : string → option (string → bool).
Variable factory_NewGithubClient : gmap string string → Remote.

Lemma lib_NewState_cases {G} (config : Config) (os_Hostname : string + string)
  (w : World G) :
  lib_NewState config os_Hostname w
  = (if next_fault (redis w)
     then Err (ErrorString ("failed to create redis client: "
                            +:+ Redis.unreachable))
     else match os_Hostname with
          | inl err => Err (ErrorString ("failed to get hostname: " +:+ err))
          | inr hostname => Ok (NewState config hostname)
          end,
     set_redis (after_roundtrip (redis w)) w).
Proof.
  unfold lib_NewState, bind, try, store_Result, Ping.
  rewrite store_roundtrip.
  destruct (next_fault (redis w)); [done|]. by destruct os_Hostname.
Qed.

Lemma cmd_runServer_cases (once : bool) (config : Config)
  (environ : gmap string string) (os_Hostname : string + string)
  (w : World GitHub) :
  cmd_runServer regexp_Compile factory_NewGithubClient once config
    environ os_Hostname w
  = match (NewGitHub regexp_Compile factory_NewGithubClient config environ).1 with
    | Err err => (Ok (Some err), w)
    | Halt h => (Halt h, w)
    | Ok g =>
        let w0 := set_github g w in
        if (RepositryPollingInterval config <=? 0) || (RolloutWindow config <=? 0)
        then (Halt (Panicked "non-positive interval for NewTicker"), w0)
        else if next_fault (redis w)
        then (Ok (Some (ErrorString ("failed to create redis client: "
                                     +:+ Redis.unreachable))),
              set_redis (after_roundtrip (redis w)) w0)
        else match os_Hostname with
             | inl err =>
                 (Ok (Some (ErrorString ("failed to get hostname: " +:+ err))),
                  set_redis (after_roundtrip (redis w)) w0)
             | inr hostname =>
                 runServer once config (NewState config hostname)
                   (set_redis (after_roundtrip (redis w)) w0)
             end
    end.
Proof.
  unfold cmd_runServer.
  destruct (NewGitHub _ _ config environ).1 as [g|e|h]; [|done..].
  cbv zeta. unfold bind at 1. unfold time_NewTicker at 1.
  destruct (RepositryPollingInterval config <=? 0); [done|].
  cbn [ret orb]. unfold bind at 1. unfold time_NewTicker at 1.
  destruct (RolloutWindow config <=? 0); [done|].
  cbn [ret]. unfold bind, try. rewrite lib_NewState_cases.
  cbn [redis set_github].
  destruct (next_fault (redis w)); [done|]. by destruct os_Hostname.
Qed.

(** X23. A start-up that does not complete has run no command and written
    nothing, and never ends with nil.  A repository name without exactly one
    slash is returned as an error before the store is contacted at all; a
    polling interval or a rollout window that is not positive stops the
    process on the creation of its ticker, in one-shot mode too, again before
    the store is contacted; a store that does not answer the first round trip,
    or a host without a name, is returned as an error before the first turn of
    the loop. *)
Theorem start_up_failures_touch_nothing (once : bool) (config : Config)
  (environ : gmap string string) (os_Hostname : string + string)
  (w : World GitHub) :
  let r := cmd_runServer regexp_Compile factory_NewGithubClient once config
             environ os_Hostname w in
  (count_char "/" (Repo config) ≠ 1%nat →
   r = (Ok (Some (ErrorString ("invalid repo: " +:+ Repo config))), w))
  ∧ (RepositryPollingInterval config ≤ 0 ∨ RolloutWindow config ≤ 0 →
     redis r.2 = redis w ∧ host r.2 = host w ∧ trace r.2 = trace w
     ∧ r.1 ≠ Ok None)
  ∧ (next_fault (redis w) = true ∨ (∃ err, os_Hostname = inl err) →
     Redis.keyspace (redis r.2) = Redis.keyspace (redis w)
     ∧ host r.2 = host w ∧ trace r.2 = trace w ∧ r.1 ≠ Ok None).
Proof.
  intros r. subst r. rewrite cmd_runServer_cases. split; [|split].
  - intros Hc.
    by rewrite (NewGitHub_invalid_repo regexp_Compile factory_NewGithubClient
                  config environ Hc).
  - intros Hd.
    destruct (NewGitHub _ _ config environ).1 as [g|e|h]; [|stopped..].
    assert ((RepositryPollingInterval config <=? 0) || (RolloutWindow config <=? 0)
            = true) as ->.
    { apply orb_true_iff. rewrite !Z.leb_le. exact Hd. }
    stopped.
  - intros Hf.
    destruct (NewGitHub _ _ config environ).1 as [g|e|h]; [|stopped..].
    cbv zeta. destruct (_ || _); [stopped|].
    destruct (next_fault (redis w)) eqn:F; [stopped|].
    destruct Hf as [?|[err ->]]; [done|]. stopped.
Qed.

End StartUpFacts.

(* ===================================================================== *)
(** * Failures of the store *)
(* ===================================================================== *)

Section StoreFailures.
Context {P : Platform} {G : Type} {GH : GitHuber G}.

Lemma GetLastInstalledTag_redis s (w : World G) :
  redis (GetLastInstalledTag s w).2 = redis w.
Proof.
  unfold GetLastInstalledTag, bind, run_sh.
  destruct (sh _ _ _ (host w)) as [c h]. by destruct (failure c).
Qed.

Lemma UnlockCanaryRelease_Err s (w w' : World G) e :
  UnlockCanaryRelease s w = (Err e, w') →
  redis w' = after_roundtrip (redis w).
Proof.
  unfold UnlockCanaryRelease, bind, store_Result, Redis.Del.
  rewrite store_roundtrip.
  destruct (next_fault (redis w)); [by intros [= _ <-]|done].
Qed.

Lemma SaveStableReleaseTag_Err s tag (w w' : World G) e :
  SaveStableReleaseTag s tag w = (Err e, w') →
  Redis.keyspace (redis w') = Redis.keyspace (redis w)
  ∧ trace w' = trace w ∧ host w' = host w.
Proof.
  unfold SaveStableReleaseTag, saveRelease, store_Result, Redis.Set_.
  rewrite store_roundtrip.
  destruct (next_fault (redis w)); [by intros [= _ <-]|done].
Qed.

(** X24. The stable tag is saved before the canary lock is released, and
    nothing undoes it: when the branch of [handleCanaryRelease] that follows
    a health check that succeeded returns an error, either the stable tag
    could not be saved, and the store holds what it held; or the canary lock
    could not be released, and then the new tag is the stable tag already,
    while the lock is still as it was.  Both errors end the loop. *)
Theorem promoted_before_unlocked (config cfg : Config) hostname tag
  (w w' : World G) (e : error) :
  let s := NewState cfg hostname in
  canary_verified config s tag w = (Err e, w') →
  ((∃ msg, e = ErrorString ("can't save stable tag:" +:+ msg))
   ∧ Redis.keyspace (redis w') = Redis.keyspace (redis w)
   ∨ e = ErrorString "can't unlock canary release tag"
     ∧ Redis.find (stableReleaseTagKey s) (redis w') = Some (lock_entry tag None)
     ∧ Redis.keyspace (redis w') !! canaryReleaseTagKey s
       = Redis.keyspace (redis w) !! canaryReleaseTagKey s)
  ∧ canary_fatal (G:=G) e.
Proof.
  intros s H. unfold canary_verified in H. rewrite bind_slog in H.
  unfold bind at 1 in H. unfold try at 1 in H.
  match type of H with
  | context [SaveStableReleaseTag s tag ?w0] =>
      destruct (SaveStableReleaseTag s tag w0) as [[[]|e1|h1] w1] eqn:H1;
      [|apply SaveStableReleaseTag_Err in H1 as (H1 & _)|done]
  end.
  2: { injection H as <- <-. split; [|apply canary_fatal_ErrorString].
       left. split; [eauto|]. exact H1. }
  pose proof (frames_run _ _ _ _ _ (frames_SaveStableReleaseTag s tag) H1) as Fr1.
  cbn [redis] in Fr1.
  apply SaveStableReleaseTag_Ok in H1.
  assert (Hs1 : Redis.find (stableReleaseTagKey s) (redis w1)
                = Some (lock_entry tag None)).
  { rewrite H1. unfold Redis.find. cbn. by rewrite lookup_insert_eq. }
  clear H1.
  unfold bind at 1 in H. unfold try at 1 in H.
  pose proof (frames_SaveMemberState s w1) as Fr2.
  pose proof (SaveMemberState_keeps_stable cfg hostname w1) as Hs2.
  cbv zeta in Hs2. fold s in Hs2. rewrite Hs1 in Hs2.
  assert (Hend : ∀ (w2 w3 : World G) e3,
    redis w2 = redis (SaveMemberState s w1).2 →
    UnlockCanaryRelease s w2 = (Err e3, w3) →
    Redis.find (stableReleaseTagKey s) (redis w3) = Some (lock_entry tag None)
    ∧ Redis.keyspace (redis w3) !! canaryReleaseTagKey s
      = Redis.keyspace (redis w) !! canaryReleaseTagKey s).
  { intros w2 w3 e3 E2 H3. apply UnlockCanaryRelease_Err in H3.
    rewrite H3, E2. split; [exact Hs2|].
    destruct Fr2 as [_ Fr2]. cbn. rewrite Fr2 by (subst s; other_name).
    destruct Fr1 as [_ Fr1]. by rewrite Fr1 by (subst s; other_name). }
  destruct (SaveMemberState s w1) as [[[]|e2|h2] w2]; cbn [fst snd] in *; [| |done].
  - unfold bind at 1, ret at 1 in H. unfold bind at 1 in H. unfold try at 1 in H.
    destruct (UnlockCanaryRelease s w2) as [[[]|e3|h3] w3] eqn:H3; [| |done].
    { by rewrite bind_slog in H. }
    injection H as <- <-. split; [|apply canary_fatal_ErrorString]. right.
    split; [done|]. by apply (Hend w2 w3 e3).
  - rewrite bind_slog in H. unfold bind at 1 in H. unfold try at 1 in H.
    match type of H with
    | context [UnlockCanaryRelease s ?w0] =>
        destruct (UnlockCanaryRelease s w0) as [[[]|e3|h3] w3] eqn:H3; [| |done]
    end.
    { by rewrite bind_slog in H. }
    injection H as <- <-. split; [|apply canary_fatal_ErrorString]. right.
    split; [done|]. by eapply Hend; [|exact H3].
Qed.

End StoreFailures.

Lemma promoted_before_unlocked_witness :
  let w := Demo.world
             (Demo.db_of [("acme/app_canary_release_tag",
                           lock_entry "v2" (Some 5000))] [false; false; true])
             (Demo.github_of (Demo.remote (Demo.release "v2" 20 [Demo.tarball 7]) []))
             "v2" [] [] in
  let s := NewState Demo.cfg "node1" in
  let e := ErrorString "can't unlock canary release tag" in
  let w' := (canary_verified Demo.cfg s "v2" w).2 in
  canary_verified Demo.cfg s "v2" w = (Err e, w')
  ∧ ((∃ msg, e = ErrorString ("can't save stable tag:" +:+ msg))
     ∧ Redis.keyspace (redis w') = Redis.keyspace (redis w)
     ∨ e = ErrorString "can't unlock canary release tag"
       ∧ Redis.find (stableReleaseTagKey s) (redis w') = Some (lock_entry "v2" None)
       ∧ Redis.keyspace (redis w') !! canaryReleaseTagKey s
         = Redis.keyspace (redis w) !! canaryReleaseTagKey s)
  ∧ canary_fatal (P:=Demo.platform) (G:=GitHub) e.
Proof.
  intros w s e w'.
  assert (H : canary_verified Demo.cfg s "v2" w = (Err e, w'))
    by (vm_compute; reflexivity).
  split; [exact H|].
  exact (promoted_before_unlocked (P:=Demo.platform) Demo.cfg Demo.cfg "node1" "v2"
           w w' e H).
Defined.

Section Outage.
Context {P : Platform} {G : Type} {GH : GitHuber G}.

Lemma SaveMemberState_outage s (w w0 : World G) v :
  GetLastInstalledTag s w = (Ok v, w0) →
  next_fault (redis w) = true →
  SaveMemberState s w
  = (Err (ErrorString Redis.unreachable), set_redis (after_roundtrip (redis w0)) w0).
Proof.
  intros Hv F. pose proof (SaveMemberState_cases s w) as Hc.
  pose proof (GetLastInstalledTag_redis s w) as Hr.
  rewrite Hv in Hc, Hr. cbn [snd] in Hr. cbv zeta in Hc.
  rewrite <- Hr in F. by rewrite F in Hc.
Qed.

(** X25. An outage of the store ends the loop: when the round trip that
    opens a turn, of either kind, does not reach the store, [runServer]
    returns the error of the client, in one-shot mode or not; the turn has run
    the version command and nothing else. *)
Theorem store_outage_ends_the_loop (once : bool) (config : Config) (s : State)
  (w w0 : World G) (turn : channel) rest v :
  sched w = turn :: rest →
  turn = gitTicker ∨ turn = rolloutTicker →
  GetLastInstalledTag s (set_sched rest w) = (Ok v, w0) →
  next_fault (redis w) = true →
  runServer once config s w
  = (Ok (Some (ErrorString Redis.unreachable)),
     set_redis (after_roundtrip (redis w0)) w0).
Proof.
  intros Hsched Hturn Hv F.
  pose proof (SaveMemberState_outage s (set_sched rest w) w0 v Hv F) as Hsave.
  unfold runServer. rewrite Hsched. cbn [length serve]. rewrite Hsched.
  destruct Hturn as [-> | ->].
  - unfold bind at 1. unfold canary_case, bind at 1, try, handleCanaryRelease.
    unfold bind at 1. rewrite Hsave.
    by rewrite (canary_fatal_ErrorString Redis.unreachable).
  - unfold bind at 1. unfold rollout_case, bind at 1, try, handleRollout.
    unfold bind at 1. rewrite Hsave. done.
Qed.

End Outage.

Lemma store_outage_ends_the_loop_witness :
  let w := Demo.world (Demo.db_of [] [true])
             (Demo.github_of (Demo.remote (Demo.release "v2" 20 [Demo.tarball 7]) []))
             "v1" [] [rolloutTicker; gitTicker] in
  let s := NewState Demo.cfg "node1" in
  let w0 := (GetLastInstalledTag s (set_sched [gitTicker] w)).2 in
  sched w = rolloutTicker :: [gitTicker]
  ∧ GetLastInstalledTag s (set_sched [gitTicker] w) = (Ok "v1", w0)
  ∧ next_fault (redis w) = true
  ∧ trace w0 = [Exec_ "version" [] 0]
  ∧ runServer false Demo.cfg s w
    = (Ok (Some (ErrorString Redis.unreachable)),
       set_redis (after_roundtrip (redis w0)) w0).
Proof.
  intros w s w0.
  assert (H1 : sched w = rolloutTicker :: [gitTicker]) by reflexivity.
  assert (H2 : GetLastInstalledTag s (set_sched [gitTicker] w) = (Ok "v1", w0))
    by (vm_compute; reflexivity).
  assert (H3 : next_fault (redis w) = true) by reflexivity.
  split; [exact H1|]. split; [exact H2|]. split; [exact H3|].
  split; [vm_compute; reflexivity|].
  exact (store_outage_ends_the_loop (P:=Demo.platform) false Demo.cfg s w w0
           rolloutTicker [gitTicker] "v1" H1 (or_intror eq_refl) H2 H3).
Defined.
